(** * The RDC collective variable of PLUMED (src/colvar/RDC.cpp)

    A shallow embedding of the [RDC] action: its constructor (keyword
    reading and validation) and its [calculate] method (the direct kernel
    with its parallel reduction, and the order-tensor fit).

    The arithmetic of the source is on C++ [double].  The embedding is
    written once over an interface of the operations the source uses and
    is read at these number types:
    - [R], exact arithmetic, for the algebraic and differential identities;
    - [option R], exact arithmetic where a division by zero is recorded;
    - [float], the binary64 numbers of the machine, for concrete runs;
    - [option T] for a number type [T] with its test of a zero divisor,
      the arithmetic of [T] where a division by zero is recorded: binary64
      with [PrimFloat.is_zero] among them.

    Indices are C++ [unsigned]; they are modelled by [nat], which agrees
    with the source as long as no index reaches 2^32. *)

From Stdlib Require Import Reals Lra Lia ZArith QArith String.
From Stdlib Require Floats.PrimFloat Numbers.Cyclic.Int63.Uint63 DecimalString
  DecimalNat.
From stdpp Require Import base option list.

Local Set Warnings "-inexact-float".

(** ** Outcomes of a method call

    [Error] is a call of [Action::error], which ends the run with a
    message.  [OutOfBounds] is an access [v[i]] with [i >= v.size()]:
    undefined behaviour in C++, kept apart from a reported error.
    [OutOfFuel] is a loop that did not finish within the iterations
    granted by the model. *)

Inductive result (A : Type) : Type :=
  | Ok (a : A)
  | Error (msg : string)
  | OutOfBounds
  | OutOfFuel.
Arguments Ok {A} a.
Arguments Error {A} msg.
Arguments OutOfBounds {A}.
Arguments OutOfFuel {A}.

#[export] Instance result_ret : MRet result := fun A a => Ok a.
#[export] Instance result_bind : MBind result := fun A B f m =>
  match m with
  | Ok a => f a
  | Error msg => Error msg
  | OutOfBounds => OutOfBounds
  | OutOfFuel => OutOfFuel
  end.

Definition is_Error {A} (m : result A) : bool :=
  match m with Error _ => true | _ => false end.

(** [v[i]] read and written, with what C++ leaves undefined made explicit. *)
Definition vector_at {A} (v : list A) (i : nat) : result A :=
  match v !! i with
  | Some a => Ok a
  | None => OutOfBounds
  end.

Definition vector_set {A} (v : list A) (i : nat) (a : A) : result (list A) :=
  if decide (i < length v) then Ok (<[i:=a]> v) else OutOfBounds.

(** ** The arithmetic interface *)

Class DoubleOps (T : Type) : Type := {
  dlit : Q -> T;   (* a decimal literal of the source *)
  dadd : T -> T -> T;
  dsub : T -> T -> T;
  dmul : T -> T -> T;
  ddiv : T -> T -> T;
  dneg : T -> T;
  dsqrt : T -> T
}.
Arguments dlit {T _} _%_Q.

Declare Scope dbl_scope.
Delimit Scope dbl_scope with dbl.
Infix "+" := dadd : dbl_scope.
Infix "-" := dsub : dbl_scope.
Infix "*" := dmul : dbl_scope.
Infix "/" := ddiv : dbl_scope.
Notation "- x" := (dneg x) : dbl_scope.

(** Exact arithmetic. *)
#[export] Instance R_ops : DoubleOps R := {
  dlit := Q2R;
  dadd := Rplus;
  dsub := Rminus;
  dmul := Rmult;
  ddiv := Rdiv;
  dneg := Ropp;
  dsqrt := R_sqrt.sqrt
}.

(** Exact arithmetic that records a division by zero: [None] is the result
    of any computation that divided by zero on the way. *)
Definition checked_div (a b : option R) : option R :=
  match a, b with
  | Some x, Some y => if Req_dec_T y 0 then None else Some (x / y)%R
  | _, _ => None
  end.

Definition lift2 (f : R -> R -> R) (a b : option R) : option R :=
  match a, b with
  | Some x, Some y => Some (f x y)
  | _, _ => None
  end.

#[export] Instance checked_ops : DoubleOps (option R) := {
  dlit := fun q => Some (Q2R q);
  dadd := lift2 Rplus;
  dsub := lift2 Rminus;
  dmul := lift2 Rmult;
  ddiv := checked_div;
  dneg := option_map Ropp;
  dsqrt := option_map R_sqrt.sqrt
}.

(** binary64.  A decimal literal [n/10^k] of the source has numerator and
    denominator below 2^53, so one correctly rounded division gives the
    double nearest to it, which is what the compiler stores. *)
Definition float_of_Z (z : Z) : PrimFloat.float :=
  match z with
  | Zneg p => PrimFloat.opp (PrimFloat.of_uint63 (Uint63.of_Z (Zpos p)))
  | _ => PrimFloat.of_uint63 (Uint63.of_Z z)
  end.

Definition float_lit (q : Q) : PrimFloat.float :=
  PrimFloat.div (float_of_Z (Qnum q)) (float_of_Z (Zpos (Qden q))).

#[export] Instance float_ops : DoubleOps PrimFloat.float := {
  dlit := float_lit;
  dadd := PrimFloat.add;
  dsub := PrimFloat.sub;
  dmul := PrimFloat.mul;
  ddiv := PrimFloat.div;
  dneg := PrimFloat.opp;
  dsqrt := PrimFloat.sqrt
}.

(** ** Vectors and tensors (Vector.h, Tensor.h) *)

Section Geometry.
Context {T : Type} `{DoubleOps T}.
Local Open Scope dbl_scope.

Inductive Vector : Type := mkVector (v0 v1 v2 : T).

Definition Vector_get (v : Vector) (i : nat) : T :=
  match v, i with
  | mkVector a _ _, 0%nat => a
  | mkVector _ b _, 1%nat => b
  | mkVector _ _ c, _ => c
  end.

Definition Vector_set (v : Vector) (i : nat) (x : T) : Vector :=
  match v, i with
  | mkVector _ b c, 0%nat => mkVector x b c
  | mkVector a _ c, 1%nat => mkVector a x c
  | mkVector a b _, _ => mkVector a b x
  end.

(** A default-constructed [Vector] is zero. *)
Definition Vector_zero : Vector := mkVector (dlit 0) (dlit 0) (dlit 0).

(** Unary minus of a [Vector]. *)
Definition Vector_neg (v : Vector) : Vector :=
  match v with mkVector a b c => mkVector (- a) (- b) (- c) end.

Definition Vector_add (v w : Vector) : Vector :=
  match v, w with
  | mkVector a b c, mkVector a' b' c' => mkVector (a + a') (b + b') (c + c')
  end.

(** Modelled from the spec: [Vector::modulo] (Vector.h is not among the
    sources), the length [r = |d|] of a displacement. *)
Definition modulo (v : Vector) : T :=
  match v with mkVector a b c => dsqrt (a * a + b * b + c * c) end.

(** Modelled from the spec: [delta(a,b)], the displacement [b - a] that
    [pbcDistance] returns when there are no periodic boundaries. *)
Definition delta (a b : Vector) : Vector :=
  match a, b with
  | mkVector a0 a1 a2, mkVector b0 b1 b2 =>
      mkVector (b0 - a0) (b1 - a1) (b2 - a2)
  end.

(** A 3x3 tensor, row by row. *)
Inductive Tensor : Type := mkTensor (r0 r1 r2 : Vector).

Definition Tensor_zero : Tensor := mkTensor Vector_zero Vector_zero Vector_zero.

(** Modelled from the spec: the constructor [Tensor(v1,v2)] (Tensor.h is
    not among the sources), the outer product of two vectors, entry
    [(i,j)] being [v1[i]*v2[j]]. *)
Definition Tensor_outer (v w : Vector) : Tensor :=
  match v, w with
  | mkVector a b c, mkVector a' b' c' =>
      mkTensor (mkVector (a * a') (a * b') (a * c'))
               (mkVector (b * a') (b * b') (b * c'))
               (mkVector (c * a') (c * b') (c * c'))
  end.

(** [t += u]. *)
Definition Tensor_add (t u : Tensor) : Tensor :=
  match t, u with
  | mkTensor a b c, mkTensor a' b' c' =>
      mkTensor (Vector_add a a') (Vector_add b b') (Vector_add c c')
  end.

(** The opposite of a tensor, entry by entry. *)
Definition Tensor_neg (t : Tensor) : Tensor :=
  match t with
  | mkTensor a b c => mkTensor (Vector_neg a) (Vector_neg b) (Vector_neg c)
  end.
End Geometry.
Arguments Vector T : clear implicits.
Arguments Tensor T : clear implicits.

(** ** The constructor [RDC::RDC] *)

Definition AtomNumber := nat.

(** The message of line 210, which ends with a newline. *)
Definition newline : string :=
  String (Ascii.Ascii false true false true false false false false) EmptyString.

Definition GSL_missing : string :=
  ("You CANNOT use SVD without GSL. Recompile PLUMED with GSL!" ++ newline)%string.

(** [Tools::convert(i,ss)]: the decimal writing of an index. *)
Definition convert (i : nat) : string :=
  DecimalString.NilEmpty.string_of_uint (Nat.to_uint i).

Section Constructor.
Context {T : Type} `{DoubleOps T}.
Local Open Scope string_scope.

(** What the parser of the input line answers (Action.h is not among the
    sources, the parser is taken as given):
    - [ATOMS]: entry [i-1] is the list that [parseAtomList("ATOMS",i,t)]
      leaves in [t]; past the end of the list it leaves [t] empty;
    - [NUMBERED key i]: the value [parseNumbered(key,i,x)] stores in [x],
      or [None] when it returns false;
    - [PLAIN key]: the value [parse(key,x)] stores in [x], or [None] when
      the keyword is not on the line and [x] is left as it was;
    - [FLAG key]: the value [parseFlag(key,b)] stores in [b];
    - [CHECKREAD]: whether [checkRead()] finds every word of the line
      read; when it does not, it calls [error];
    - [HAS_GSL]: whether the macro [__PLUMED_HAS_GSL] is defined. *)
Record Input : Type := {
  ATOMS : list (list AtomNumber);
  NUMBERED : string -> nat -> option T;
  PLAIN : string -> option T;
  FLAG : string -> bool;
  CHECKREAD : bool;
  HAS_GSL : bool
}.

(** The members of the class, with the atoms requested from the host
    ([getNumberOfAtoms()] is their number) and the number of components
    added. *)
Record RDC : Type := {
  Const : T;
  ndata : nat;
  mu_s : list T;
  scale : list T;
  coupl : list T;
  serial : bool;
  svd : bool;
  with_gsl : bool;
  atoms : list AtomNumber;
  components : nat
}.

(** Lines 168-178: the loop over ATOMS1, ATOMS2, ... *)
Fixpoint read_atoms (i : nat) (kw : list (list AtomNumber))
    (atoms : list AtomNumber) : result (list AtomNumber) :=
  match kw with
  | [] => Ok atoms
  | t :: kw' =>
      if decide (length t = 0) then Ok atoms
      else if decide (length t ≠ 2) then
        Error ("ATOMS" ++ convert i ++ " keyword has the wrong number of atoms")
      else
        t0 ← vector_at t 0;
        t1 ← vector_at t 1;
        read_atoms (S i) kw' (atoms ++ [t0; t1])
  end.

(** Lines 185-188, 198-201 and 216-219:
    [for(i..;i<ndata;++i){ if(!parseNumbered(key,i+1,v[i])) break; ntarget++; }]
    with [todo] the iterations left before [i] reaches [ndata]. *)
Fixpoint read_numbered (inp : Input) (key : string) (todo i : nat)
    (v : list T) (ntarget : nat) : result (list T * nat) :=
  match todo with
  | O => Ok (v, ntarget)
  | S todo' =>
      _ ← vector_at v i;
      match NUMBERED inp key (i + 1) with
      | None => Ok (v, ntarget)
      | Some x => read_numbered inp key todo' (S i) (<[i:=x]> v) (S ntarget)
      end
  end.

(** Lines 191 and 204: [for(i=1;i<ndata;++i) v[i]=v[0];] *)
Fixpoint broadcast (todo i : nat) (v : list T) : result (list T) :=
  match todo with
  | O => Ok v
  | S todo' =>
      x ← vector_at v 0;
      v' ← vector_set v i x;
      broadcast todo' (S i) v'
  end.

(** Line 196: [for(i=0;i<ndata;++i) scale[i]=1.0;] *)
Fixpoint fill (todo i : nat) (x : T) (v : list T) : result (list T) :=
  match todo with
  | O => Ok v
  | S todo' => v' ← vector_set v i x; fill todo' (S i) x v'
  end.

(** Lines 189-192 and 202-205: one shared value, or one value per bond. *)
Definition shared_or_numbered (inp : Input) (key : string) (ndata : nat)
    (v : list T) (ntarget : nat) : result (list T) :=
  if decide (ntarget = 0) then
    _ ← vector_at v 0;
    let v := match PLAIN inp key with Some x => <[0:=x]> v | None => v end in
    broadcast (ndata - 1) 1 v
  else if decide (ntarget ≠ ndata) then
    Error ("found wrong number of " ++ key ++ " values")
  else Ok v.

(** Lines 227-230: the accesses made to print the bonds. *)
Fixpoint log_bonds (todo i : nat) (atoms : list AtomNumber)
    (mu_s scale : list T) : result unit :=
  match todo with
  | O => Ok tt
  | S todo' =>
      _ ← vector_at atoms (2 * i);
      _ ← vector_at atoms (2 * i + 1);
      _ ← vector_at mu_s i;
      _ ← vector_at scale i;
      log_bonds todo' (S i) atoms mu_s scale
  end.

Definition RDC_new (inp : Input) : result RDC :=
  atoms ← read_atoms 1 (ATOMS inp) [];
  let ndata := (length atoms / 2)%nat in
  (* GYROMAGNETIC constants *)
  let mu_s := replicate ndata (dlit 0) in
  '(mu_s, ntarget) ← read_numbered inp "GYROM" ndata 0 mu_s 0;
  mu_s ← shared_or_numbered inp "GYROM" ndata mu_s ntarget;
  (* SCALING factors *)
  scale ← fill ndata 0 (dlit 1) (replicate ndata (dlit 0));
  '(scale, ntarget) ← read_numbered inp "SCALE" ndata 0 scale 0;
  scale ← shared_or_numbered inp "SCALE" ndata scale ntarget;
  let svd := FLAG inp "SVD" in
  _ ← (if svd && negb (HAS_GSL inp) then
         Error GSL_missing
       else Ok tt);
  coupl ← (if svd then
             '(coupl, ntarget) ← read_numbered inp "COUPLING" ndata 0
                                   (replicate (length atoms / 2) (dlit 0)) 0;
             if decide (ntarget ≠ ndata) then
               Error "found wrong number of COUPLING values"
             else Ok coupl
           else Ok []);
  let serial := FLAG inp "SERIAL" in
  _ ← log_bonds ndata 0 atoms mu_s scale;
  _ ← (if CHECKREAD inp then Ok tt
       else Error "cannot understand the following words from the input");
  let serial := if svd then true else serial in
  Ok {| Const := dlit 0.3356806; ndata := ndata; mu_s := mu_s;
        scale := scale; coupl := coupl; serial := serial; svd := svd;
        with_gsl := HAS_GSL inp; atoms := atoms; components := ndata |}.

(** *** What the constructor is expected to return *)

(** The number of bonds: the ATOMS keywords found before the first
    missing one. *)
Fixpoint count_bonds (kw : list (list AtomNumber)) : nat :=
  match kw with
  | [] => 0
  | t :: kw' => if decide (length t = 0) then 0 else S (count_bonds kw')
  end.

(** The number of values [key(i+1), key(i+2), ...] found before the
    first missing one, among [todo] of them. *)
Fixpoint count_numbered (inp : Input) (key : string) (todo i : nat) : nat :=
  match todo with
  | O => 0
  | S todo' =>
      match NUMBERED inp key (i + 1) with
      | None => 0
      | Some _ => S (count_numbered inp key todo' (S i))
      end
  end.

(** One numbered value for every bond. *)
Definition numbered_values (inp : Input) (key : string) (n : nat) : list T :=
  (fun i => default (dlit 0) (NUMBERED inp key (i + 1))) <$> seq 0 n.

(** The shapes accepted for GYROM and SCALE: no leading numbered value,
    or one for every bond.  A numbered value after the first missing one
    is never read here; it is a word left on the line, which is
    [checkRead]'s to refuse. *)
Definition shape_ok (inp : Input) (key : string) (n : nat) : Prop :=
  count_numbered inp key n 0 = 0 \/ count_numbered inp key n 0 = n.

(** The values of a group of an accepted shape: the shared value, or
    [d] when there is none, for every bond; or the numbered values. *)
Definition group_values (inp : Input) (key : string) (d : T) (n : nat)
    : list T :=
  if decide (count_numbered inp key n 0 = 0)
  then replicate n (default d (PLAIN inp key))
  else numbered_values inp key n.

Definition RDC_expected (inp : Input) (atoms : list AtomNumber)
    : result RDC :=
  let n := (length atoms / 2)%nat in
  if decide (¬ shape_ok inp "GYROM" n) then
    Error "found wrong number of GYROM values"
  else if decide (¬ shape_ok inp "SCALE" n) then
    Error "found wrong number of SCALE values"
  else if FLAG inp "SVD" && negb (HAS_GSL inp) then
    Error GSL_missing
  else if FLAG inp "SVD"
          && negb (bool_decide (count_numbered inp "COUPLING" n 0 = n)) then
    Error "found wrong number of COUPLING values"
  else if negb (CHECKREAD inp) then
    Error "cannot understand the following words from the input"
  else
    Ok {| Const := dlit 0.3356806; ndata := n;
          mu_s := group_values inp "GYROM" (dlit 0) n;
          scale := group_values inp "SCALE" (dlit 1) n;
          coupl := if FLAG inp "SVD" then numbered_values inp "COUPLING" n
                   else [];
          serial := if FLAG inp "SVD" then true else FLAG inp "SERIAL";
          svd := FLAG inp "SVD"; with_gsl := HAS_GSL inp;
          atoms := atoms; components := n |}.
End Constructor.
Arguments Input T : clear implicits.
Arguments RDC T : clear implicits.

(** ** The method [RDC::calculate] *)

Section Calculate.
Context {T : Type} `{DoubleOps T}.
Local Open Scope dbl_scope.
Local Abbreviation Vec := (Vector T).
Local Notation "v .[ i ]" := (Vector_get v i)
  (at level 1, left associativity, format "v .[ i ]").

(** The host's periodic-boundary displacement between two positions
    (ActionAtomistic.h is not among the sources; taken as given). *)
Variable pbcDistance : Vec -> Vec -> Vec.

(** [gsl_linalg_SV_decomp] followed by [gsl_linalg_SV_solve]: from the
    design matrix and the right-hand side, the solution vector [S]
    (the GSL library is taken as given). *)
Variable gsl_SV_solve : list (list T) -> list T -> list T.

(** [comm.Get_size()] and [comm.Get_rank()]. *)
Record Communicator : Type := { Get_size : nat; Get_rank : nat }.

(** The three local arrays of [calculate]. *)
Record Buffers : Type := {
  rdc : list T;
  dRDC : list Vec;
  dervir : list (Tensor T)
}.

(** What is set on one output component: [val->set], and in direct mode
    [setBoxDerivatives] and the two [setAtomsDerivatives] (atom index and
    vector, in the order of the calls). *)
Record Component : Type := {
  value : T;
  boxDerivatives : option (Tensor T);
  atomsDerivatives : list (nat * Vec)
}.

(** Lines 272-292: the body of the direct loop. *)
Definition direct_body (o : RDC T) (pos : list Vec) (r : nat)
    (b : Buffers) : result Buffers :=
  let index := (r / 2)%nat in
  p0 ← vector_at pos r;
  p1 ← vector_at pos (r + 1)%nat;
  let distance := pbcDistance p0 p1 in
  let d := modulo distance in
  let ind := dlit 1 / d in
  let id3 := ind * ind * ind in
  let id7 := id3 * id3 * ind in
  let id9 := id7 * ind * ind in
  sc ← vector_at (scale o) index;
  mu ← vector_at (mu_s o) index;
  let max := - Const o * sc * mu in
  let dmax := id3 * max in
  let cos_theta := distance.[2] * ind in
  rdc' ← vector_set (rdc b) index
           (dlit 0.5 * dmax * (dlit 3 * cos_theta * cos_theta - dlit 1));
  let x2 := distance.[0] * distance.[0] in
  let y2 := distance.[1] * distance.[1] in
  let z2 := distance.[2] * distance.[2] in
  let prod := - max * id7 * (dlit 1.5 * x2 + dlit 1.5 * y2 - dlit 6 * z2) in
  g0 ← vector_at (dRDC b) r;
  let g := Vector_set g0 0 (prod * distance.[0]) in
  let g := Vector_set g 1 (prod * distance.[1]) in
  let g := Vector_set g 2
             (- max * id9 * distance.[2] *
                (dlit 4.5 * x2 * x2 + dlit 4.5 * y2 * y2 + dlit 1.5 * y2 * z2
                 - dlit 3 * z2 * z2 + x2 * (dlit 9 * y2 + dlit 1.5 * z2))) in
  dRDC' ← vector_set (dRDC b) r g;
  dRDC' ← vector_set dRDC' (r + 1)%nat (Vector_neg g);
  t ← vector_at (dervir b) index;
  dervir' ← vector_set (dervir b) index (Tensor_add t (Tensor_outer distance g));
  Ok {| rdc := rdc'; dRDC := dRDC'; dervir := dervir' |}.

(** Line 270: [for(unsigned r=rank;r<N;r+=stride)]. *)
Fixpoint direct_loop (fuel : nat) (o : RDC T) (pos : list Vec)
    (N stride r : nat) (b : Buffers) : result Buffers :=
  if decide (r < N)%nat then
    match fuel with
    | O => OutOfFuel
    | S fuel' =>
        b' ← direct_body o pos r b;
        direct_loop fuel' o pos N stride (r + stride)%nat b'
    end
  else Ok b.

(** Lines 254-293: what one rank computes before the reduction. *)
Definition calculate_local (o : RDC T) (pos : list Vec)
    (comm : Communicator) : result Buffers :=
  let N := length (atoms o) in
  let b := {| rdc := replicate (ndata o) (dlit 0);
              dRDC := replicate N Vector_zero;
              dervir := replicate (ndata o) Tensor_zero |} in
  let stride := (2 * Get_size comm)%nat in
  let rank := (2 * Get_rank comm)%nat in
  let stride := if serial o then 2%nat else stride in
  let rank := if serial o then 0%nat else rank in
  direct_loop N o pos N stride rank b.

(** Modelled from the spec: [comm.Sum], the element-wise sum-reduction of
    one buffer over the ranks of the communicator, added in rank order;
    every rank receives the sum. *)
Definition comm_Sum {A} (add : A -> A -> A) (bufs : list (list A)) : list A :=
  match bufs with
  | [] => []
  | b :: bs => foldl (zip_with add) b bs
  end.

(** Lines 298-306: the publication loop. *)
Fixpoint publish_direct (fuel : nat) (o : RDC T) (N r index : nat)
    (b : Buffers) (out : list Component) : result (list Component) :=
  if decide (r < N)%nat then
    match fuel with
    | O => OutOfFuel
    | S fuel' =>
        _ ← (if decide (index < components o)%nat then Ok tt else OutOfBounds);
        v ← vector_at (rdc b) index;
        t ← vector_at (dervir b) index;
        ga ← vector_at (dRDC b) r;
        gb ← vector_at (dRDC b) (r + 1)%nat;
        publish_direct fuel' o N (r + 2)%nat (S index) b
          (out ++ [{| value := v; boxDerivatives := Some t;
                      atomsDerivatives := [(r, ga); ((r + 1)%nat, gb)] |}])
    end
  else Ok out.

(** Lines 267-306: the direct mode as seen by the rank [comm].  The
    buffers entering the two [comm.Sum] are those every rank of the
    communicator computes with this same code. *)
Definition calculate_direct (o : RDC T) (pos : list Vec)
    (comm : Communicator) : result (list Component) :=
  let N := length (atoms o) in
  mine ← calculate_local o pos comm;
  b ← (if serial o then Ok mine
       else
         _ ← vector_at (dRDC mine) 0;
         _ ← vector_at (dervir mine) 0;
         all ← mapM (fun w => calculate_local o pos
                                {| Get_size := Get_size comm; Get_rank := w |})
                    (seq 0 (Get_size comm));
         Ok {| rdc := rdc mine;
               dRDC := comm_Sum Vector_add (dRDC <$> all);
               dervir := comm_Sum Tensor_add (dervir <$> all) |});
  publish_direct N o N 0 0 b [].

(** *** The fit mode (lines 310-370) *)

(** [gsl_matrix_get] and [gsl_matrix_set]; GSL checks the range. *)
Definition gsl_matrix_get (m : list (list T)) (i j : nat) : result T :=
  row ← vector_at m i; vector_at row j.

Definition gsl_matrix_set (m : list (list T)) (i j : nat) (x : T)
    : result (list (list T)) :=
  row ← vector_at m i;
  row' ← vector_set row j x;
  vector_set m i row'.

(** Adds [x] to entry [(i,j)]:
    [gsl_matrix_set(m,i,j,gsl_matrix_get(m,i,j)+x)]. *)
Definition gsl_matrix_acc (m : list (list T)) (i j : nat) (x : T)
    : result (list (list T)) :=
  a ← gsl_matrix_get m i j; gsl_matrix_set m i j (a + x).

(** The scalar product of a row with a vector. *)
Definition dot (row x : list T) : T :=
  foldr (fun ab acc => ab.1 * ab.2 + acc) (dlit 0) (zip row x).

(** Modelled from the spec: [gsl_blas_dgemv(CblasNoTrans,alpha,A,x,beta,y)]
    (the GSL library is not among the sources), which stores
    [alpha*A*x + beta*y] in [y]. *)
Definition gsl_blas_dgemv (alpha : T) (A : list (list T)) (x : list T)
    (beta : T) (y : list T) : list T :=
  zip_with (fun row yi => alpha * dot row x + beta * yi) A y.

(** The arrays the fit loop fills. *)
Record FitState : Type := {
  rdc_vec : list T;
  coef_mat : list (list T);
  dmax_v : list T
}.

(** Lines 327-344: the body of the fit loop. *)
Definition fit_body (o : RDC T) (pos : list Vec) (r index : nat)
    (st : FitState) : result FitState :=
  p0 ← vector_at pos r;
  p1 ← vector_at pos (r + 1)%nat;
  let distance := pbcDistance p0 p1 in
  let d := modulo distance in
  let d2 := d * d in
  let d3 := d2 * d in
  let id3 := dlit 1 / d3 in
  mu ← vector_at (mu_s o) index;
  sc ← vector_at (scale o) index;
  let max := - Const o * mu * sc in
  dmax' ← vector_set (dmax_v st) index (id3 * max);
  let mu_x := distance.[0] / d in
  let mu_y := distance.[1] / d in
  let mu_z := distance.[2] / d in
  c ← vector_at (coupl o) index;
  dm ← vector_at dmax' index;
  rdc_vec' ← vector_set (rdc_vec st) index (c / dm);
  m ← gsl_matrix_acc (coef_mat st) index 0 (mu_x * mu_x - mu_z * mu_z);
  m ← gsl_matrix_acc m index 1 (mu_y * mu_y - mu_z * mu_z);
  m ← gsl_matrix_acc m index 2 (dlit 2.0 * mu_x * mu_y);
  m ← gsl_matrix_acc m index 3 (dlit 2.0 * mu_x * mu_z);
  m ← gsl_matrix_acc m index 4 (dlit 2.0 * mu_y * mu_z);
  Ok {| rdc_vec := rdc_vec'; coef_mat := m; dmax_v := dmax' |}.

(** Line 326: [for(unsigned r=0; r<N; r+=2)], with [index++]. *)
Fixpoint fit_loop (fuel : nat) (o : RDC T) (pos : list Vec)
    (N r index : nat) (st : FitState) : result FitState :=
  if decide (r < N)%nat then
    match fuel with
    | O => OutOfFuel
    | S fuel' =>
        st' ← fit_body o pos r index st;
        fit_loop fuel' o pos N (r + 2)%nat (S index) st'
    end
  else Ok st.

(** Lines 356-358:
    [for(index=0;index<coupl.size();index++) rdc[index]=bc[index]*dmax[index];] *)
Fixpoint back_calculate (todo index : nat) (bc dmax rdc : list T)
    : result (list T) :=
  match todo with
  | O => Ok rdc
  | S todo' =>
      b ← vector_at bc index;
      dm ← vector_at dmax index;
      rdc' ← vector_set rdc index (b * dm);
      back_calculate todo' (S index) bc dmax rdc'
  end.

(** Lines 367-370: [for(i=0;i<ndata;i++) getPntrToComponent(i)->set(rdc[i]);] *)
Fixpoint publish_fit (todo i : nat) (o : RDC T) (rdc : list T)
    (out : list Component) : result (list Component) :=
  match todo with
  | O => Ok out
  | S todo' =>
      _ ← (if decide (i < components o)%nat then Ok tt else OutOfBounds);
      v ← vector_at rdc i;
      publish_fit todo' (S i) o rdc
        (out ++ [{| value := v; boxDerivatives := None;
                    atomsDerivatives := [] |}])
  end.

(** The six entries of the order tensor read off the solution. *)
Record OrderTensor : Type := {
  Sxx : T; Syy : T; Szz : T; Sxy : T; Sxz : T; Syz : T
}.

(** Lines 310-370.  The order tensor is a local of the source that is
    not published; it is returned beside the components to be able to
    speak about it.  [rdc_vec] is allocated and not set in the source;
    every entry of it is written before it is read. *)
Definition calculate_svd (o : RDC T) (pos : list Vec)
    : result (option OrderTensor * list Component) :=
  if with_gsl o then
    let N := length (atoms o) in
    let n := length (coupl o) in
    let st := {| rdc_vec := replicate n (dlit 0);
                 coef_mat := replicate n (replicate 5%nat (dlit 0));
                 dmax_v := replicate n (dlit 0) |} in
    let bc := replicate n (dlit 0) in
    st ← fit_loop N o pos N 0 0 st;
    let A := coef_mat st in
    let S := gsl_SV_solve A (rdc_vec st) in
    sxx ← vector_at S 0;
    syy ← vector_at S 1;
    let szz := - sxx - syy in
    sxy ← vector_at S 2;
    sxz ← vector_at S 3;
    syz ← vector_at S 4;
    let bc := gsl_blas_dgemv (dlit 1.0) (coef_mat st) S (dlit 0) bc in
    rdc ← back_calculate n 0 bc (dmax_v st) (replicate (ndata o) (dlit 0));
    out ← publish_fit (ndata o) 0 o rdc [];
    Ok (Some {| Sxx := sxx; Syy := syy; Szz := szz;
                Sxy := sxy; Sxz := sxz; Syz := syz |}, out)
  else Ok (None, []).

(** [RDC::calculate] as seen by the rank [comm]. *)
Definition calculate (o : RDC T) (pos : list Vec) (comm : Communicator)
    : result (list Component) :=
  if svd o then r ← calculate_svd o pos; Ok r.2
  else calculate_direct o pos comm.
End Calculate.
Arguments Buffers T : clear implicits.
Arguments Component T : clear implicits.
Arguments FitState T : clear implicits.
Arguments OrderTensor T : clear implicits.


(** ** The quantities of one bond, as the direct loop computes them *)

Section Kernel.
Context {T : Type} `{DoubleOps T}.
Local Open Scope dbl_scope.
Local Abbreviation Vec := (Vector T).

#[export] Instance T_inhabited : Inhabited T := populate (dlit 0).
#[export] Instance Vector_inhabited : Inhabited Vec := populate Vector_zero.
#[export] Instance Tensor_inhabited : Inhabited (Tensor T) := populate Tensor_zero.

(** The value stored in [rdc[index]] (lines 275-283). *)
Definition kernel_rdc (K sc mu : T) (distance : Vec) : T :=
  let d := modulo distance in
  let ind := dlit 1 / d in
  let id3 := ind * ind * ind in
  let max := - K * sc * mu in
  let dmax := id3 * max in
  let cos_theta := Vector_get distance 2 * ind in
  dlit 0.5 * dmax * (dlit 3 * cos_theta * cos_theta - dlit 1).

(** The vector stored in [dRDC[r]] (lines 275-290). *)
Definition kernel_grad (K sc mu : T) (distance : Vec) : Vec :=
  let d := modulo distance in
  let ind := dlit 1 / d in
  let id3 := ind * ind * ind in
  let id7 := id3 * id3 * ind in
  let id9 := id7 * ind * ind in
  let max := - K * sc * mu in
  let x2 := Vector_get distance 0 * Vector_get distance 0 in
  let y2 := Vector_get distance 1 * Vector_get distance 1 in
  let z2 := Vector_get distance 2 * Vector_get distance 2 in
  let prod := - max * id7 * (dlit 1.5 * x2 + dlit 1.5 * y2 - dlit 6 * z2) in
  mkVector (prod * Vector_get distance 0) (prod * Vector_get distance 1)
    (- max * id9 * Vector_get distance 2 *
       (dlit 4.5 * x2 * x2 + dlit 4.5 * y2 * y2 + dlit 1.5 * y2 * z2
        - dlit 3 * z2 * z2 + x2 * (dlit 9 * y2 + dlit 1.5 * z2))).

Variable pbcDistance : Vec -> Vec -> Vec.
Variable o : RDC T.
Variable pos : list Vec.

(** The displacement of bond [i], from atom [2i] to atom [2i+1]. *)
Definition bond_distance (i : nat) : Vec :=
  pbcDistance (pos !!! (2 * i)%nat) (pos !!! (2 * i + 1)%nat).

Definition bond_rdc (i : nat) : T :=
  kernel_rdc (Const o) (scale o !!! i) (mu_s o !!! i) (bond_distance i).

Definition bond_grad (i : nat) : Vec :=
  kernel_grad (Const o) (scale o !!! i) (mu_s o !!! i) (bond_distance i).

(** The entry of [dRDC] for atom [a]: the gradient of its bond for the
    first atom, the opposite for the second. *)
Definition atom_grad (a : nat) : Vec :=
  if Nat.even a then bond_grad (a / 2) else Vector_neg (bond_grad (a / 2)).

Definition bond_virial (i : nat) : Tensor T :=
  Tensor_add Tensor_zero (Tensor_outer (bond_distance i) (bond_grad i)).

(** Bond [i] belongs to the rank that starts at bond [k] and strides by
    [s] bonds. *)
Definition owned (s k i : nat) : Prop := (k <= i)%nat /\ (i mod s = k mod s)%nat.

(** The stride and the first bond of a rank (lines 260-265), in bonds. *)
Definition bond_stride (comm : Communicator) : nat :=
  if serial o then 1%nat else Get_size comm.
Definition bond_rank (comm : Communicator) : nat :=
  if serial o then 0%nat else Get_rank comm.

(** The three arrays of a rank at the end of the direct loop. *)
Definition local_buffers (comm : Communicator) : Buffers T :=
  let s := bond_stride comm in
  let k := bond_rank comm in
  {| rdc := (fun i => if decide (owned s k i) then bond_rdc i else dlit 0)
              <$> seq 0 (ndata o);
     dRDC := (fun a => if decide (owned s k (a / 2)) then atom_grad a
                       else Vector_zero) <$> seq 0 (2 * ndata o);
     dervir := (fun i => if decide (owned s k i) then bond_virial i
                         else Tensor_zero) <$> seq 0 (ndata o) |}.

(** The arrays after the two [comm.Sum] (lines 294-297). *)
Definition reduced_buffers (comm : Communicator) : Buffers T :=
  if serial o then local_buffers comm
  else
    let all := (fun w => local_buffers {| Get_size := Get_size comm;
                                          Get_rank := w |})
                 <$> seq 0 (Get_size comm) in
    {| rdc := rdc (local_buffers comm);
       dRDC := comm_Sum Vector_add (dRDC <$> all);
       dervir := comm_Sum Tensor_add (dervir <$> all) |}.

(** The component published for bond [i] from given arrays. *)
Definition component_of (b : Buffers T) (i : nat) : Component T :=
  {| value := rdc b !!! i;
     boxDerivatives := Some (dervir b !!! i);
     atomsDerivatives := [((2 * i)%nat, dRDC b !!! (2 * i)%nat);
                          ((2 * i + 1)%nat, dRDC b !!! (2 * i + 1)%nat)] |}.

(** The object is one the constructor can have built, and the host has
    given a position for every requested atom. *)
Record well_formed : Prop := {
  wf_bonds : (1 <= ndata o)%nat;
  wf_atoms : length (atoms o) = (2 * ndata o)%nat;
  wf_pos : length pos = length (atoms o);
  wf_mu_s : length (mu_s o) = ndata o;
  wf_scale : length (scale o) = ndata o;
  wf_components : components o = ndata o
}.

(** Arrays of the sizes [calculate] allocates. *)
Record sized (b : Buffers T) : Prop := {
  sz_rdc : length (rdc b) = ndata o;
  sz_dRDC : length (dRDC b) = (2 * ndata o)%nat;
  sz_dervir : length (dervir b) = ndata o
}.

(** The rank is one of the communicator, unless the run is serial. *)
Definition rank_ok (comm : Communicator) : Prop :=
  serial o = true \/ (Get_rank comm < Get_size comm)%nat.
End Kernel.

(** ** The formulas of the specification, over the real numbers *)

Section Formulas.
Local Open Scope R_scope.
Variables K s g : R.

(** [r = |d|]. *)
Definition spec_r (x y z : R) : R := sqrt (x * x + y * y + z * z).

(** [D_max = -K*scale*gyro/r^3]. *)
Definition spec_Dmax (r : R) : R := - K * s * g / r ^ 3.

(** [rdc = 0.5*D_max*(3*cos(theta)^2 - 1)] with [cos(theta) = d_z/r]. *)
Definition spec_rdc (x y z : R) : R :=
  let r := spec_r x y z in
  let cos_theta := z / r in
  0.5 * spec_Dmax r * (3 * cos_theta ^ 2 - 1).

(** [prod = K*scale*gyro/r^7 * (1.5x^2 + 1.5y^2 - 6z^2)]. *)
Definition spec_prod (x y z : R) : R :=
  K * s * g / spec_r x y z ^ 7 * (1.5 * x ^ 2 + 1.5 * y ^ 2 - 6 * z ^ 2).

(** The three expressions the specification gives for the gradient. *)
Definition spec_grad (x y z : R) : Vector R :=
  mkVector (spec_prod x y z * x) (spec_prod x y z * y)
    (K * s * g / spec_r x y z ^ 9 * z *
       (4.5 * x ^ 4 + 4.5 * y ^ 4 + 1.5 * y ^ 2 * z ^ 2 - 3 * z ^ 4
        + x ^ 2 * (9 * y ^ 2 + 1.5 * z ^ 2))).
End Formulas.

(** The component set for bond [i] by a call of [calculate], if any. *)
Definition published {T} (res : result (list (Component T))) (i : nat)
    : option (Component T) :=
  match res with
  | Ok comps => comps !! i
  | _ => None
  end.

(** The component that the rank [comm] publishes for bond [i] in direct
    mode, in exact arithmetic. *)
Definition direct_component (pbcDistance : Vector R -> Vector R -> Vector R)
    (o : RDC R) (pos : list (Vector R)) (comm : Communicator) (i : nat)
    : Component R :=
  {| value := if decide (owned (bond_stride o comm) (bond_rank o comm) i)
              then bond_rdc pbcDistance o pos i else 0%R;
     boxDerivatives := Some (Tensor_outer (bond_distance pbcDistance pos i)
                               (bond_grad pbcDistance o pos i));
     atomsDerivatives :=
       [((2 * i)%nat, bond_grad pbcDistance o pos i);
        ((2 * i + 1)%nat, Vector_neg (bond_grad pbcDistance o pos i))] |}.

(** ** The quantities of one bond, as the fit loop computes them *)

Section FitKernel.
Context {T : Type} `{DoubleOps T}.
Local Open Scope dbl_scope.
Variable pbcDistance : Vector T -> Vector T -> Vector T.
Variable o : RDC T.
Variable pos : list (Vector T).

(** [dmax[index]] (lines 329-334). *)
Definition fit_dmax (i : nat) : T :=
  let d := modulo (bond_distance pbcDistance pos i) in
  let d2 := d * d in
  let d3 := d2 * d in
  let id3 := dlit 1 / d3 in
  let max := - Const o * (mu_s o !!! i) * (scale o !!! i) in
  id3 * max.

(** The entry of [rdc_vec] (line 338). *)
Definition fit_target (i : nat) : T := (coupl o !!! i) / fit_dmax i.

(** The row of [coef_mat] (lines 335-343), each entry added to the zero
    the matrix was set to. *)
Definition fit_row (i : nat) : list T :=
  let distance := bond_distance pbcDistance pos i in
  let d := modulo distance in
  let mu_x := Vector_get distance 0 / d in
  let mu_y := Vector_get distance 1 / d in
  let mu_z := Vector_get distance 2 / d in
  [dlit 0 + (mu_x * mu_x - mu_z * mu_z);
   dlit 0 + (mu_y * mu_y - mu_z * mu_z);
   dlit 0 + (dlit 2.0 * mu_x * mu_y);
   dlit 0 + (dlit 2.0 * mu_x * mu_z);
   dlit 0 + (dlit 2.0 * mu_y * mu_z)].

(** The arrays at the end of the fit loop. *)
Definition fit_state : FitState T :=
  {| rdc_vec := fit_target <$> seq 0 (ndata o);
     coef_mat := fit_row <$> seq 0 (ndata o);
     dmax_v := fit_dmax <$> seq 0 (ndata o) |}.

Record fit_sized (st : FitState T) : Prop := {
  fs_rdc_vec : length (rdc_vec st) = ndata o;
  fs_coef_mat : length (coef_mat st) = ndata o;
  fs_dmax_v : length (dmax_v st) = ndata o
}.
End FitKernel.

(** ** Runs *)

(** A run of the direct mode: an object the constructor returned without
    the SVD flag, a position for each of its atoms, and the rank. *)
Record direct_run {T} `{DoubleOps T} (inp : Input T) (o : RDC T)
    (pos : list (Vector T)) (comm : Communicator) : Prop := {
  run_built : RDC_new inp = Ok o;
  run_direct : svd o = false;
  run_positions : length pos = length (atoms o);
  run_rank : rank_ok o comm
}.

(** A run of the fit mode. *)
Record fit_run {T} `{DoubleOps T} (inp : Input T) (o : RDC T)
    (pos : list (Vector T)) : Prop := {
  fit_built : RDC_new inp = Ok o;
  fit_svd : svd o = true;
  fit_positions : length pos = length (atoms o)
}.

(** The positions with the two atoms of bond [i] exchanged. *)
Definition swap_bond {T} `{DoubleOps T} (pos : list (Vector T)) (i : nat)
    : list (Vector T) :=
  <[(2 * i)%nat := pos !!! (2 * i + 1)%nat]>
    (<[(2 * i + 1)%nat := pos !!! (2 * i)%nat]> pos).

(** ** The fit of the specification, over the real numbers *)

Section FitFormulas.
Local Open Scope R_scope.

(** The row of the design matrix for a bond of displacement [d], with
    [mu = d/|d|]. *)
Definition design_row (d : Vector R) : list R :=
  let r := modulo d in
  let mx := Vector_get d 0 / r in
  let my := Vector_get d 1 / r in
  let mz := Vector_get d 2 / r in
  [mx ^ 2 - mz ^ 2; my ^ 2 - mz ^ 2; 2 * mx * my; 2 * mx * mz; 2 * my * mz].

(** The product of a row of the design matrix with the solution. *)
Definition row_times (row : list R) (sxx syy sxy sxz syz : R) : R :=
  match row with
  | [a0; a1; a2; a3; a4] => a0 * sxx + a1 * syy + a2 * sxy + a3 * sxz + a4 * syz
  | _ => 0
  end.
End FitFormulas.

(** ** Exact arithmetic with divisions by zero recorded *)

Definition checked_vector (v : Vector R) : Vector (option R) :=
  match v with mkVector x y z => mkVector (Some x) (Some y) (Some z) end.

(** The parameters of the bonds and their displacements are numbers. *)
Record exact_inputs (pbcDistance : Vector (option R) -> Vector (option R)
                                   -> Vector (option R))
    (o : RDC (option R)) (pos : list (Vector (option R)))
    (D : nat -> Vector R) : Prop := {
  exact_scale : forall i, (i < ndata o)%nat ->
    exists s, scale o !! i = Some (Some s);
  exact_mu_s : forall i, (i < ndata o)%nat ->
    exists g, mu_s o !! i = Some (Some g);
  exact_distance : forall i, (i < ndata o)%nat ->
    bond_distance pbcDistance pos i = checked_vector (D i)
}.

(** ** Any arithmetic, with the divisions by zero recorded

    The numbers are those of a number type [T], with [None] for the
    result of any computation that divided by a zero of [T] on the way;
    [is_zero] is the test of a divisor.  With the binary64 numbers and
    their test [x == 0], a number is [None] exactly when the source
    computed it from a division [a/0.0] or [a/-0.0]. *)

Section Guarded.
Context {T : Type} `{DoubleOps T}.
Variable is_zero : T -> bool.
Local Open Scope dbl_scope.

Definition guarded_div (a b : option T) : option T :=
  match a, b with
  | Some x, Some y => if is_zero y then None else Some (x / y)
  | _, _ => None
  end.

Definition guarded_lift2 (f : T -> T -> T) (a b : option T) : option T :=
  match a, b with
  | Some x, Some y => Some (f x y)
  | _, _ => None
  end.

Definition guarded_ops : DoubleOps (option T) := {|
  dlit := fun q => Some (dlit q);
  dadd := guarded_lift2 dadd;
  dsub := guarded_lift2 dsub;
  dmul := guarded_lift2 dmul;
  ddiv := guarded_div;
  dneg := option_map dneg;
  dsqrt := option_map dsqrt
|}.

Definition guarded_vector (v : Vector T) : Vector (option T) :=
  match v with mkVector x y z => mkVector (Some x) (Some y) (Some z) end.

Definition guarded_defined_vector (v : Vector (option T)) : Prop :=
  match v with mkVector a b c => is_Some a /\ is_Some b /\ is_Some c end.

Definition guarded_defined_tensor (t : Tensor (option T)) : Prop :=
  match t with
  | mkTensor a b c =>
      guarded_defined_vector a /\ guarded_defined_vector b /\
      guarded_defined_vector c
  end.

(** No number of the component comes from a division by zero. *)
Definition guarded_defined_component (c : Component (option T)) : Prop :=
  is_Some (value c) /\
  (forall t, boxDerivatives c = Some t -> guarded_defined_tensor t) /\
  Forall (fun ag => guarded_defined_vector ag.2) (atomsDerivatives c).
End Guarded.

(** The parameters of the bonds and their displacements are numbers of
    [T]; [D i] is the displacement of bond [i]. *)
Record guarded_inputs {T} (o : RDC (option T))
    (distance : nat -> Vector (option T)) (D : nat -> Vector T) : Prop := {
  guarded_scale : forall i, (i < ndata o)%nat ->
    exists s, scale o !! i = Some (Some s);
  guarded_mu_s : forall i, (i < ndata o)%nat ->
    exists g, mu_s o !! i = Some (Some g);
  guarded_distance : forall i, (i < ndata o)%nat ->
    distance i = guarded_vector (D i)
}.

(** ** Concrete runs *)

Section Examples.
Local Open Scope string_scope.
Local Open Scope R_scope.

(** One bond, direct mode, exact arithmetic. *)
Definition ex_input : Input R := {|
  ATOMS := [[20%nat; 21%nat]];
  NUMBERED := fun _ _ => None;
  PLAIN := fun k => if String.eqb k "GYROM" then Some (-72.5388)
                    else if String.eqb k "SCALE" then Some 1 else None;
  FLAG := fun _ => false; CHECKREAD := true; HAS_GSL := true |}.

Definition ex_object : RDC R := {|
  Const := 0.3356806; ndata := 1; mu_s := [-72.5388]; scale := [1];
  coupl := []; serial := false; svd := false; with_gsl := true;
  atoms := [20%nat; 21%nat]; components := 1 |}.

Definition ex_along_z : list (Vector R) := [mkVector 0 0 0; mkVector 0 0 1.04].
Definition ex_along_x : list (Vector R) := [mkVector 0 0 0; mkVector 1 0 0].
Definition ex_comm : Communicator := {| Get_size := 1; Get_rank := 0 |}.
Definition ex_solve : list (list R) -> list R -> list R := fun _ _ => [].

(** Two bonds, direct mode, exact arithmetic. *)
Definition ex_two_input : Input R := {|
  ATOMS := [[20%nat; 21%nat]; [37%nat; 38%nat]];
  NUMBERED := fun _ _ => None;
  PLAIN := fun k => if String.eqb k "GYROM" then Some (-72.5388)
                    else if String.eqb k "SCALE" then Some 1 else None;
  FLAG := fun _ => false; CHECKREAD := true; HAS_GSL := true |}.

Definition ex_two_object : RDC R := {|
  Const := 0.3356806; ndata := 2; mu_s := [-72.5388; -72.5388];
  scale := [1; 1]; coupl := []; serial := false; svd := false;
  with_gsl := true; atoms := [20%nat; 21%nat; 37%nat; 38%nat];
  components := 2 |}.

Definition ex_two_positions : list (Vector R) :=
  [mkVector 0 0 0; mkVector 0 0 1.04; mkVector 1 1 1; mkVector 2 1 1].

(** The first of two ranks, which owns the first bond and not the second. *)
Definition ex_first_of_two : Communicator := {| Get_size := 2; Get_rank := 0 |}.

(** One bond, fit mode, exact arithmetic. *)
Definition ex_fit_input : Input R := {|
  ATOMS := [[20%nat; 21%nat]];
  NUMBERED := fun k i => if String.eqb k "COUPLING" && Nat.eqb i 1
                         then Some 8.17 else None;
  PLAIN := fun k => if String.eqb k "GYROM" then Some (-72.5388)
                    else if String.eqb k "SCALE" then Some 1 else None;
  FLAG := fun k => String.eqb k "SVD"; CHECKREAD := true; HAS_GSL := true |}.

Definition ex_fit_object : RDC R := {|
  Const := 0.3356806; ndata := 1; mu_s := [-72.5388]; scale := [1];
  coupl := [8.17]; serial := true; svd := true; with_gsl := true;
  atoms := [20%nat; 21%nat]; components := 1 |}.

Definition ex_fit_solve : list (list R) -> list R -> list R :=
  fun _ _ => [1; 0; 0; 0; 0].

(** One bond along the z axis, with the divisions checked. *)
Definition ck_positions : list (Vector (option R)) :=
  [checked_vector (mkVector 0 0 0); checked_vector (mkVector 0 0 1.04)].

Definition ck_distance (i : nat) : Vector R :=
  mkVector (0 - 0) (0 - 0) (1.04 - 0).

End Examples.

(** Concrete runs in binary64. *)
Section FloatExamples.
Import PrimFloat.
Local Open Scope string_scope.

Definition fl_plain (k : string) : option float :=
  if String.eqb k "GYROM" then Some (-72.5388)%float
  else if String.eqb k "SCALE" then Some 1%float else None.

(** One bond, fit mode, its coupling given. *)
Definition fl_fit_small : Input float := {|
  ATOMS := [[20; 21]];
  NUMBERED := fun k i => if String.eqb k "COUPLING" && Nat.eqb i 1
                         then Some 8.17%float else None;
  PLAIN := fl_plain;
  FLAG := fun k => String.eqb k "SVD"; CHECKREAD := true; HAS_GSL := true |}.

(** Five bonds, fit mode, one shared COUPLING value. *)
Definition fl_shared_coupling : Input float := {|
  ATOMS := [[20; 21]; [37; 38]; [56; 57]; [76; 77]; [92; 93]];
  NUMBERED := fun _ _ => None;
  PLAIN := fun k => if String.eqb k "COUPLING" then Some 8.17%float
                    else fl_plain k;
  FLAG := fun k => String.eqb k "SVD"; CHECKREAD := true; HAS_GSL := true |}.

(** Two bonds, direct mode. *)
Definition fl_two_bonds : Input float := {|
  ATOMS := [[20; 21]; [37; 38]];
  NUMBERED := fun _ _ => None;
  PLAIN := fl_plain;
  FLAG := fun _ => false; CHECKREAD := true; HAS_GSL := true |}.

Definition fl_two_object : RDC float := {|
  Const := 0.3356806%float; ndata := 2;
  mu_s := [(-72.5388)%float; (-72.5388)%float];
  scale := [1%float; 1%float]; coupl := []; serial := false; svd := false;
  with_gsl := true; atoms := [20; 21; 37; 38]; components := 2 |}.

Definition fl_two_positions : list (Vector float) :=
  [mkVector 0 0 0; mkVector 0 0 1.04; mkVector 1 1 1; mkVector 2 1 1]%float.

Definition fl_solve : list (list float) -> list float -> list float :=
  fun _ _ => [].

Definition fl_run (size rank : nat) : result (list (Component float)) :=
  calculate delta fl_solve fl_two_object fl_two_positions
    {| Get_size := size; Get_rank := rank |}.

(** One bond whose two atoms are at the same place. *)
Definition fl_one_object : RDC float := {|
  Const := 0.3356806%float; ndata := 1; mu_s := [(-72.5388)%float];
  scale := [1%float]; coupl := []; serial := false; svd := false;
  with_gsl := true; atoms := [20; 21]; components := 1 |}.

Definition fl_zero_length : result (list (Component float)) :=
  calculate delta fl_solve fl_one_object
    [mkVector 0 0 0; mkVector 0 0 0]%float {| Get_size := 1; Get_rank := 0 |}.
End FloatExamples.

(** Two bonds in binary64 with the divisions by zero recorded: the first
    of length 1.04, the second of length 1e-200, whose square is below
    the smallest binary64 number. *)
Section GuardedFloatExample.
Import PrimFloat.
Local Open Scope string_scope.
Local Existing Instance float_ops.

Definition gf_ops : DoubleOps (option float) := guarded_ops PrimFloat.is_zero.

Definition gf_input : Input (option float) := {|
  ATOMS := [[20; 21]; [37; 38]];
  NUMBERED := fun _ _ => None;
  PLAIN := fun k => Some <$> fl_plain k;
  FLAG := fun _ => false; CHECKREAD := true; HAS_GSL := true |}.

Definition gf_object : RDC (option float) := {|
  Const := Some 0.3356806%float; ndata := 2;
  mu_s := [Some (-72.5388)%float; Some (-72.5388)%float];
  scale := [Some 1%float; Some 1%float]; coupl := []; serial := false;
  svd := false; with_gsl := true; atoms := [20; 21; 37; 38];
  components := 2 |}.

Definition gf_two_positions : list (Vector float) :=
  [mkVector 0 0 0; mkVector 0 0 1.04; mkVector 0 0 0; mkVector 1e-200 0 0]%float.

Definition gf_positions : list (Vector (option float)) :=
  guarded_vector <$> gf_two_positions.

(** The displacement of bond [i], in binary64. *)
Definition gf_distance (i : nat) : Vector float :=
  delta (gf_two_positions !!! (2 * i)) (gf_two_positions !!! (2 * i + 1)).

Definition gf_solve : list (list (option float)) -> list (option float)
                      -> list (option float) := fun _ _ => [].

(** The second of two ranks, which owns the second bond. *)
Definition gf_comm : Communicator := {| Get_size := 2; Get_rank := 1 |}.

(** One bond of length 1e-200, evaluated as the source does. *)
Definition fl_tiny_length : result (list (Component float)) :=
  calculate delta fl_solve fl_one_object
    [mkVector 0 0 0; mkVector 1e-200 0 0]%float {| Get_size := 1; Get_rank := 0 |}.
End GuardedFloatExample.

(** ** The output components the constructor adds (lines 236-245) *)

(** The calls made on the action to declare its components. *)
Inductive ComponentCall : Type :=
  | addComponentWithDerivatives (name : string)
  | addComponent (name : string)
  | componentIsNotPeriodic (name : string).

(** [for(unsigned i=0;i<ndata;i++)], with [todo] the iterations left. *)
Fixpoint add_components (todo i : nat) (svd : bool)
    (calls : list ComponentCall) : list ComponentCall :=
  match todo with
  | O => calls
  | S todo' =>
      let num := convert i in
      let calls :=
        if negb svd then
          calls ++ [addComponentWithDerivatives ("rdc_" ++ num)%string;
                    componentIsNotPeriodic ("rdc_" ++ num)%string]
        else
          calls ++ [addComponent ("rdc_" ++ num)%string;
                    componentIsNotPeriodic ("rdc_" ++ num)%string] in
      add_components todo' (S i) svd calls
  end.

Definition register_components {T} (o : RDC T) : list ComponentCall :=
  add_components (ndata o) 0 (svd o) [].

(** The names of the components added, in the order of the calls. *)
Definition added_names (calls : list ComponentCall) : list string :=
  omap (fun c => match c with
                 | addComponentWithDerivatives name | addComponent name =>
                     Some name
                 | componentIsNotPeriodic _ => None
                 end) calls.

(** Concrete input lines, in binary64. *)
Section FloatLines.
Import PrimFloat.
Local Open Scope string_scope.

(** The second ATOMS keyword lists three atoms. *)
Definition fl_three_atoms : Input float := {|
  ATOMS := [[20; 21]; [37; 38; 39]; [56; 57]];
  NUMBERED := fun _ _ => None;
  PLAIN := fl_plain;
  FLAG := fun _ => false; CHECKREAD := true; HAS_GSL := true |}.

End FloatLines.

(** ** Transformations of a displacement, over the real numbers *)

Section Transformations.
Local Open Scope R_scope.

(** The trace of a tensor. *)
Definition Tensor_trace (t : Tensor R) : R :=
  match t with
  | mkTensor (mkVector a _ _) (mkVector _ b _) (mkVector _ _ c) => a + b + c
  end.

(** The rotation of angle [phi] about the z axis, the axis of the
    magnetic field. *)
Definition rotate_z (phi : R) (v : Vector R) : Vector R :=
  match v with
  | mkVector x y z =>
      mkVector (cos phi * x - sin phi * y) (sin phi * x + cos phi * y) z
  end.

(** The vector stretched by the factor [l]. *)
Definition stretch (l : R) (v : Vector R) : Vector R :=
  match v with mkVector x y z => mkVector (l * x) (l * y) (l * z) end.

End Transformations.

(** Concrete runs of one bond, in exact arithmetic. *)
Section ExactExamples.
Local Open Scope string_scope.
Local Open Scope R_scope.

Definition ex_along_y : list (Vector R) := [mkVector 0 0 0; mkVector 0 1 0].
Definition ex_twice_x : list (Vector R) := [mkVector 0 0 0; mkVector 2 0 0].

(** One bond, direct mode, no gyromagnetic constant on the line. *)
Definition ex_no_gyrom_input : Input R := {|
  ATOMS := [[20%nat; 21%nat]];
  NUMBERED := fun _ _ => None;
  PLAIN := fun k => if String.eqb k "SCALE" then Some 1 else None;
  FLAG := fun _ => false; CHECKREAD := true; HAS_GSL := true |}.

Definition ex_no_gyrom_object : RDC R := {|
  Const := 0.3356806; ndata := 1; mu_s := [dlit 0]; scale := [1];
  coupl := []; serial := false; svd := false; with_gsl := true;
  atoms := [20%nat; 21%nat]; components := 1 |}.
End ExactExamples.

(** A solver for the fit of one bond along the x axis, whose row of the
    design matrix is [1, 0, 0, 0, 0]: the solution that reproduces the
    right-hand side. *)
Definition ex_exact_solve : list (list R) -> list R -> list R :=
  fun _ b => [b !!! 0%nat; 0; 0; 0; 0]%R.

(** The positions of [fl_two_positions] with the two atoms of the second
    bond moved. *)
Section FloatMoved.
Import PrimFloat.

Definition fl_two_positions_moved : list (Vector float) :=
  [mkVector 0 0 0; mkVector 0 0 1.04; mkVector 5 5 5; mkVector 5 7 5]%float.
End FloatMoved.

(** The arrays the fit loop starts from (lines 314-325): [rdc_vec] and
    [dmax] as allocated, [coef_mat] set to zero. *)
Definition fit_start {T} `{DoubleOps T} (o : RDC T) : FitState T :=
  let n := length (coupl o) in
  {| rdc_vec := replicate n (dlit 0);
     coef_mat := replicate n (replicate 5%nat (dlit 0));
     dmax_v := replicate n (dlit 0) |}.

(** One bond along the z axis, fit mode, with the divisions checked. *)
Section CheckedFitExample.
Local Open Scope string_scope.
Local Open Scope R_scope.

Definition ck_fit_input : Input (option R) := {|
  ATOMS := [[20%nat; 21%nat]];
  NUMBERED := fun k i => if String.eqb k "COUPLING" && Nat.eqb i 1
                         then Some (Some 8.17) else None;
  PLAIN := fun k => if String.eqb k "GYROM" then Some (Some (-72.5388))
                    else if String.eqb k "SCALE" then Some (Some 1) else None;
  FLAG := fun k => String.eqb k "SVD"; CHECKREAD := true; HAS_GSL := true |}.

Definition ck_fit_object : RDC (option R) := {|
  Const := Some 0.3356806; ndata := 1; mu_s := [Some (-72.5388)];
  scale := [Some 1]; coupl := [Some 8.17]; serial := true; svd := true;
  with_gsl := true; atoms := [20%nat; 21%nat]; components := 1 |}.
End CheckedFitExample.

(** ** The GSL objects of the fit mode (lines 311-365)

    The vectors and matrices of the fit are allocated and freed by hand.
    The calls of GSL made by [calculate] are listed in the order of the
    source, each with the objects it is given, and run on the set of the
    objects that are allocated and not yet freed. *)

Inductive GslObject : Type :=
  | gsl_rdc_vec | gsl_S | gsl_Stmp | gsl_work | gsl_bc
  | gsl_coef_mat | gsl_A | gsl_V.

#[export] Instance GslObject_eq_dec : EqDecision GslObject.
Proof. solve_decision. Defined.

Inductive GslCall : Type :=
  | gsl_alloc (x : GslObject)            (* x = gsl_vector_alloc / gsl_matrix_alloc *)
  | gsl_call (args : list GslObject)     (* any other function of GSL *)
  | gsl_free (x : GslObject).            (* gsl_vector_free / gsl_matrix_free *)

(** Lines 338-343: one iteration of the loop over the bonds. *)
Definition gsl_fit_body : list GslCall :=
  [gsl_call [gsl_rdc_vec];                             (* gsl_vector_set *)
   gsl_call [gsl_coef_mat]; gsl_call [gsl_coef_mat];   (* get, set: column 0 *)
   gsl_call [gsl_coef_mat]; gsl_call [gsl_coef_mat];   (* column 1 *)
   gsl_call [gsl_coef_mat]; gsl_call [gsl_coef_mat];   (* column 2 *)
   gsl_call [gsl_coef_mat]; gsl_call [gsl_coef_mat];   (* column 3 *)
   gsl_call [gsl_coef_mat]; gsl_call [gsl_coef_mat]].  (* column 4 *)

(** The calls of one evaluation in fit mode, for [bonds] iterations of
    the loop of line 326 and [couplings] iterations of the loop of
    line 356. *)
Definition gsl_calls (bonds couplings : nat) : list GslCall :=
  [gsl_alloc gsl_rdc_vec; gsl_alloc gsl_bc; gsl_alloc gsl_Stmp;
   gsl_alloc gsl_S; gsl_alloc gsl_work; gsl_alloc gsl_coef_mat;
   gsl_alloc gsl_A; gsl_alloc gsl_V;
   gsl_call [gsl_coef_mat];                            (* gsl_matrix_set_zero *)
   gsl_call [gsl_bc]]                                  (* gsl_vector_set_zero *)
  ++ concat (replicate bonds gsl_fit_body)
  ++ [gsl_call [gsl_A; gsl_coef_mat];                  (* gsl_matrix_memcpy *)
      gsl_call [gsl_A; gsl_V; gsl_Stmp; gsl_work];     (* gsl_linalg_SV_decomp *)
      gsl_call [gsl_A; gsl_V; gsl_Stmp; gsl_rdc_vec; gsl_S];  (* gsl_linalg_SV_solve *)
      gsl_call [gsl_S]; gsl_call [gsl_S]; gsl_call [gsl_S];
      gsl_call [gsl_S]; gsl_call [gsl_S];              (* gsl_vector_get *)
      gsl_call [gsl_coef_mat; gsl_S; gsl_bc]]          (* gsl_blas_dgemv *)
  ++ replicate couplings (gsl_call [gsl_bc])           (* gsl_vector_get *)
  ++ [gsl_free gsl_coef_mat; gsl_free gsl_A; gsl_free gsl_rdc_vec;
      gsl_free gsl_bc; gsl_free gsl_Stmp; gsl_free gsl_S; gsl_free gsl_work].

(** One call on the objects alive: an allocation into a variable whose
    object is alive loses that object, a call on an object that is not
    alive and the release of such an object are faults; [None] is a
    fault. *)
Definition gsl_step (alive : list GslObject) (c : GslCall)
    : option (list GslObject) :=
  match c with
  | gsl_alloc x => if decide (x ∈ alive) then None else Some (alive ++ [x])
  | gsl_call args =>
      if decide (Forall (fun x => x ∈ alive) args) then Some alive else None
  | gsl_free x =>
      if decide (x ∈ alive) then Some (filter (fun y => y ≠ x) alive)
      else None
  end.

Fixpoint gsl_run (alive : list GslObject) (cs : list GslCall)
    : option (list GslObject) :=
  match cs with
  | [] => Some alive
  | c :: cs' => alive' ← gsl_step alive c; gsl_run alive' cs'
  end.

(** * Proofs

    ** The direct loop, for any number type *)

Lemma vector_at_Some {A} (v : list A) i a : v !! i = Some a -> vector_at v i = Ok a.
Proof. unfold vector_at. by intros ->. Qed.

Lemma vector_at_lt {A} `{!Inhabited A} (v : list A) i :
  i < length v -> vector_at v i = Ok (v !!! i).
Proof. intros Hi. apply vector_at_Some. by apply list_lookup_lookup_total_lt. Qed.

Lemma vector_set_lt {A} (v : list A) i a :
  i < length v -> vector_set v i a = Ok (<[i:=a]> v).
Proof. unfold vector_set. intros Hi. by rewrite decide_True. Qed.

Lemma owned_step s k i :
  1 <= s -> owned s k i <-> i = k \/ owned s (k + s) i.
Proof.
  intros Hs. unfold owned.
  assert (Hks : (k + s) mod s = k mod s).
  { replace (k + s) with (k + 1 * s) by lia. apply Nat.Div0.mod_add. }
  rewrite Hks. split.
  - intros [Hle Hmod].
    destruct (decide (i = k)) as [->|Hne]; [by left|right].
    split; [|done].
    pose proof (Nat.Div0.div_mod i s) as Hi.
    pose proof (Nat.Div0.div_mod k s) as Hk.
    rewrite Hmod in Hi.
    assert (k / s < i / s) by nia.
    nia.
  - intros [->|[Hle Hmod]]; [done|]. split; [lia|done].
Qed.

Lemma owned_rank s k i : k < s -> owned s k i <-> i mod s = k.
Proof.
  intros Hk. unfold owned. rewrite (Nat.mod_small k s) by done.
  split; [by intros [_ ?]|].
  intros Hi. split; [|done].
  pose proof (Nat.Div0.mod_le i s). lia.
Qed.

Lemma mapM_Ok {A B} (f : A -> result B) (g : A -> B) (l : list A) :
  (forall x, x ∈ l -> f x = Ok (g x)) -> mapM f l = Ok (g <$> l).
Proof.
  induction l as [|x l IH]; intros Hf; [done|].
  cbn. rewrite Hf by left. cbn.
  rewrite IH; [done|]. intros y Hy. apply Hf. by right.
Qed.

Section Reduction.
Context {A : Type} `{!Inhabited A}.
Variable add : A -> A -> A.
Variable F : nat -> list A.
Variable L : nat.
Hypothesis HF : forall w, length (F w) = L.

Lemma foldl_zip_with_lookup (l : list nat) : forall acc,
  length acc = L ->
  length (foldl (zip_with add) acc (F <$> l)) = L /\
  forall a, a < L ->
    foldl (zip_with add) acc (F <$> l) !!! a =
    foldl add (acc !!! a) ((fun w => F w !!! a) <$> l).
Proof.
  induction l as [|w l IH]; intros acc Hacc; [done|].
  cbn [fmap list_fmap foldl].
  destruct (IH (zip_with add acc (F w))) as [Hlen Hlook].
  { rewrite length_zip_with, Hacc, HF. lia. }
  split; [done|]. intros a Ha. rewrite Hlook by done. f_equal.
  apply list_lookup_total_correct. rewrite lookup_zip_with.
  rewrite (list_lookup_lookup_total_lt acc) by lia.
  rewrite (list_lookup_lookup_total_lt (F w)) by (rewrite HF; lia).
  done.
Qed.

Lemma comm_Sum_spec W :
  1 <= W ->
  length (comm_Sum add (F <$> seq 0 W)) = L /\
  forall a, a < L ->
    comm_Sum add (F <$> seq 0 W) !!! a =
    foldl add (F 0 !!! a) ((fun w => F w !!! a) <$> seq 1 (W - 1)).
Proof.
  intros HW. destruct W as [|W]; [lia|].
  replace (S W - 1) with W by lia.
  cbn [seq fmap list_fmap comm_Sum].
  apply foldl_zip_with_lookup, HF.
Qed.
End Reduction.

Section Direct.
Context {T : Type} `{DoubleOps T}.
Variable pbcDistance : Vector T -> Vector T -> Vector T.
Variable o : RDC T.
Variable pos : list (Vector T).
Hypothesis wf : well_formed o pos.

Local Abbreviation n := (ndata o).

Local Abbreviation sized := (sized o).

Lemma direct_body_spec k b :
  k < n -> sized b ->
  direct_body pbcDistance o pos (2 * k) b =
    Ok {| rdc := <[k := bond_rdc pbcDistance o pos k]> (rdc b);
          dRDC := <[2 * k + 1 := Vector_neg (bond_grad pbcDistance o pos k)]>
                    (<[2 * k := bond_grad pbcDistance o pos k]> (dRDC b));
          dervir := <[k := Tensor_add (dervir b !!! k)
                             (Tensor_outer (bond_distance pbcDistance pos k)
                                (bond_grad pbcDistance o pos k))]> (dervir b) |}.
Proof.
  intros Hk [Hr Hd Hv]. destruct wf as [Hn Ha Hp Hm Hs Hc].
  unfold direct_body.
  replace (2 * k / 2) with k by (rewrite Nat.mul_comm, Nat.div_mul; lia).
  rewrite !(vector_at_lt pos) by lia. simpl.
  rewrite (vector_at_lt (scale o)) by lia. simpl.
  rewrite (vector_at_lt (mu_s o)) by lia. simpl.
  rewrite vector_set_lt by lia. simpl.
  rewrite (vector_at_lt (dRDC b)) by lia. simpl.
  rewrite vector_set_lt by lia. simpl.
  rewrite vector_set_lt by (rewrite length_insert; lia). simpl.
  rewrite (vector_at_lt (dervir b)) by lia. simpl.
  rewrite vector_set_lt by lia. simpl.
  destruct (dRDC b !!! (2 * k)) as [g0 g1 g2]. reflexivity.
Qed.

Abbreviation brdc := (bond_rdc pbcDistance o pos).
Abbreviation bgrad := (bond_grad pbcDistance o pos).
Abbreviation agrad := (atom_grad pbcDistance o pos).
Abbreviation bdist := (bond_distance pbcDistance pos).

Lemma atom_grad_even k : agrad (2 * k) = bgrad k.
Proof.
  unfold atom_grad.
  replace (Nat.even (2 * k)) with true
    by (symmetry; apply Nat.even_spec; by exists k).
  by replace (2 * k / 2) with k by (rewrite Nat.mul_comm, Nat.div_mul; lia).
Qed.

Lemma atom_grad_odd k : agrad (2 * k + 1) = Vector_neg (bgrad k).
Proof.
  unfold atom_grad.
  replace ((2 * k + 1) / 2) with k
    by (apply (Nat.div_unique _ 2 k 1); lia).
  by rewrite (Nat.add_comm (2 * k) 1), Nat.even_add_mul_2.
Qed.

Section Loop.
Variable s : nat.
Hypothesis Hs : 1 <= s.

Lemma direct_loop_spec fuel : forall k b,
  n <= k + fuel -> sized b ->
  exists b',
    direct_loop pbcDistance fuel o pos (2 * n) (2 * s) (2 * k) b = Ok b' /\
    sized b' /\
    (forall i, rdc b' !! i =
       if decide (owned s k i /\ i < n) then Some (brdc i) else rdc b !! i) /\
    (forall a, dRDC b' !! a =
       if decide (owned s k (a / 2) /\ a < 2 * n) then Some (agrad a)
       else dRDC b !! a) /\
    (forall i, dervir b' !! i =
       if decide (owned s k i /\ i < n)
       then Some (Tensor_add (dervir b !!! i) (Tensor_outer (bdist i) (bgrad i)))
       else dervir b !! i).
Proof.
  induction fuel as [|fuel IH]; intros k b Hfuel Hb.
  - exists b. cbn [direct_loop]. rewrite decide_False by lia.
    split_and!; [done|done|..]; intros i;
      rewrite decide_False; try done; unfold owned; intros [[? _] ?].
    + lia.
    + pose proof (Nat.Div0.div_lt_upper_bound i 2 n). lia.
    + lia.
  - cbn [direct_loop]. destruct (decide (2 * k < 2 * n)) as [Hk|Hk].
    + rewrite direct_body_spec by (done || lia). cbn [mbind result_bind].
      set (b1 := {| rdc := _ |}).
      assert (Hb1 : sized b1).
      { destruct Hb. subst b1. split; cbn [rdc dRDC dervir]; rewrite ?length_insert; done. }
      destruct (IH (k + s) b1) as (b' & Hrun & Hb' & Hr & Hd & Hv); [lia|done|].
      exists b'. replace (2 * k + 2 * s) with (2 * (k + s)) by lia.
      split_and!; [done|done|..].
      * intros i. rewrite Hr. subst b1. cbn [rdc dRDC dervir].
        destruct Hb as [Hlr _ _].
        destruct (decide (i = k)) as [->|Hik].
        -- rewrite list_lookup_insert_eq by lia.
           rewrite (decide_True (P := owned s k k /\ _)); last first.
           { split; [by apply owned_step; auto|lia]. }
           by case_decide.
        -- rewrite list_lookup_insert_ne by done.
           destruct (decide (owned s (k + s) i /\ i < n)) as [[Ho ?]|Hno].
           ++ rewrite decide_True; [done|]. split; [|done].
              apply owned_step; auto.
           ++ rewrite decide_False; [done|]. intros [Ho ?]. apply Hno.
              split; [|done]. apply owned_step in Ho as [?|?]; done.
      * intros a. rewrite Hd. subst b1. cbn [rdc dRDC dervir].
        destruct Hb as [_ Hld _].
        destruct (decide (a / 2 = k)) as [Hak|Hak].
        -- assert (a = 2 * k \/ a = 2 * k + 1) as [->| ->].
           { pose proof (Nat.Div0.div_mod a 2).
             pose proof (Nat.mod_upper_bound a 2). lia. }
           ++ rewrite Hak.
              rewrite list_lookup_insert_ne by lia.
              rewrite list_lookup_insert_eq by lia.
              rewrite (decide_True (P := owned s k k /\ _)); last first.
              { split; [by apply owned_step; auto|lia]. }
              rewrite atom_grad_even. by case_decide.
           ++ rewrite Hak.
              rewrite list_lookup_insert_eq by (rewrite length_insert; lia).
              rewrite (decide_True (P := owned s k k /\ _)); last first.
              { split; [by apply owned_step; auto|lia]. }
              rewrite atom_grad_odd. by case_decide.
        -- assert (a ≠ 2 * k /\ a ≠ 2 * k + 1) as [? ?].
           { split; intros ->; apply Hak.
             - rewrite Nat.mul_comm, Nat.div_mul; lia.
             - symmetry. apply (Nat.div_unique _ 2 k 1); lia. }
           rewrite !list_lookup_insert_ne by done.
           destruct (decide (owned s (k + s) (a / 2) /\ a < 2 * n)) as [[Ho ?]|Hno].
           ++ rewrite decide_True; [done|]. split; [|done].
              apply owned_step; auto.
           ++ rewrite decide_False; [done|]. intros [Ho ?]. apply Hno.
              split; [|done]. apply owned_step in Ho as [?|?]; done.
      * intros i. rewrite Hv. subst b1. cbn [rdc dRDC dervir].
        destruct Hb as [_ _ Hlv].
        destruct (decide (i = k)) as [->|Hik].
        -- rewrite list_lookup_insert_eq by lia.
           rewrite (decide_True (P := owned s k k /\ _)); last first.
           { split; [by apply owned_step; auto|lia]. }
           rewrite decide_False; [done|].
           intros [[? _] _]. lia.
        -- rewrite list_lookup_insert_ne by done.
           rewrite list_lookup_total_insert_ne by done.
           destruct (decide (owned s (k + s) i /\ i < n)) as [[Ho ?]|Hno].
           ++ rewrite decide_True; [done|]. split; [|done].
              apply owned_step; auto.
           ++ rewrite decide_False; [done|]. intros [Ho ?]. apply Hno.
              split; [|done]. apply owned_step in Ho as [?|?]; done.
    + exists b. split_and!; [done|done|..]; intros i;
        rewrite decide_False; try done; unfold owned; intros [[? _] ?].
      * lia.
      * pose proof (Nat.Div0.div_lt_upper_bound i 2 n). lia.
      * lia.
Qed.
End Loop.

Lemma local_buffers_sized comm : sized (local_buffers pbcDistance o pos comm).
Proof.
  split; cbn [local_buffers rdc dRDC dervir];
    by rewrite length_fmap, length_seq.
Qed.

Lemma calculate_local_spec comm :
  1 <= bond_stride o comm ->
  calculate_local pbcDistance o pos comm
    = Ok (local_buffers pbcDistance o pos comm).
Proof.
  intros Hs. destruct wf as [Hn Ha Hp Hm Hsc Hc].
  unfold calculate_local. rewrite Ha.
  set (b0 := {| rdc := _ |}).
  assert (Hb0 : sized b0).
  { subst b0. split; cbn [rdc dRDC dervir]; by rewrite length_replicate. }
  destruct (direct_loop_spec (bond_stride o comm) Hs (2 * n) (bond_rank o comm) b0)
    as (b' & Hrun & [Hlr Hld Hlv] & Hr & Hd & Hv); [lia|done|].
  replace (if serial o then 2 else 2 * Get_size comm)
    with (2 * bond_stride o comm) by (unfold bond_stride; by destruct (serial o)).
  replace (if serial o then 0 else 2 * Get_rank comm)
    with (2 * bond_rank o comm) by (unfold bond_rank; by destruct (serial o)).
  rewrite Hrun. f_equal. destruct b' as [r' d' v'].
  cbn [rdc dRDC dervir] in *. unfold local_buffers. f_equal.
  - apply list_eq. intros i. rewrite Hr, list_lookup_fmap.
    destruct (decide (i < n)) as [Hi|Hi].
    + rewrite lookup_seq_lt by done. cbn. subst b0. cbn [rdc].
      rewrite lookup_replicate_2 by done.
      by destruct (decide (owned _ _ _));
        [rewrite decide_True by done|rewrite decide_False by (by intros [? ?])].
    + rewrite decide_False by (intros [_ ?]; lia). subst b0. cbn [rdc].
      rewrite lookup_seq_ge by lia. cbn.
      apply lookup_ge_None_2. rewrite length_replicate. lia.
  - apply list_eq. intros a. rewrite Hd, list_lookup_fmap.
    destruct (decide (a < 2 * n)) as [Hi|Hi].
    + rewrite lookup_seq_lt by done. cbn. subst b0. cbn [dRDC].
      rewrite lookup_replicate_2 by done.
      by destruct (decide (owned _ _ _));
        [rewrite decide_True by done|rewrite decide_False by (by intros [? ?])].
    + rewrite decide_False by (intros [_ ?]; lia). subst b0. cbn [dRDC].
      rewrite lookup_seq_ge by lia. cbn.
      apply lookup_ge_None_2. rewrite length_replicate. lia.
  - apply list_eq. intros i. rewrite Hv, list_lookup_fmap.
    destruct (decide (i < n)) as [Hi|Hi].
    + rewrite lookup_seq_lt by done. cbn. subst b0. cbn [dervir].
      rewrite lookup_replicate_2, lookup_total_replicate_2 by done.
      unfold bond_virial.
      by destruct (decide (owned _ _ _));
        [rewrite decide_True by done|rewrite decide_False by (by intros [? ?])].
    + rewrite decide_False by (intros [_ ?]; lia). subst b0. cbn [dervir].
      rewrite lookup_seq_ge by lia. cbn.
      apply lookup_ge_None_2. rewrite length_replicate. lia.
Qed.

Lemma publish_direct_spec b fuel : forall k out,
  sized b -> n <= k + fuel ->
  publish_direct fuel o (2 * n) (2 * k) k b out
    = Ok (out ++ (component_of b <$> seq k (n - k))).
Proof.
  destruct wf as [Hn Ha Hp Hm Hsc Hc].
  induction fuel as [|fuel IH]; intros k out Hb Hfuel; cbn [publish_direct].
  - rewrite decide_False by lia.
    replace (n - k) with 0 by lia. cbn. by rewrite app_nil_r.
  - destruct Hb as [Hlr Hld Hlv].
    destruct (decide (2 * k < 2 * n)) as [Hk|Hk].
    + rewrite decide_True by lia. cbn [mbind result_bind].
      rewrite (vector_at_lt (rdc b)) by lia. cbn [mbind result_bind].
      rewrite (vector_at_lt (dervir b)) by lia. cbn [mbind result_bind].
      rewrite !(vector_at_lt (dRDC b)) by lia. cbn [mbind result_bind].
      replace (2 * k + 2) with (2 * S k) by lia.
      rewrite IH by (done || lia).
      replace (n - k) with (S (n - S k)) by lia.
      cbn [seq fmap list_fmap]. rewrite <- app_assoc. done.
    + replace (n - k) with 0 by lia. cbn. by rewrite app_nil_r.
Qed.

Lemma reduced_buffers_sized comm :
  1 <= bond_stride o comm -> sized (reduced_buffers pbcDistance o pos comm).
Proof.
  intros Hs. unfold reduced_buffers, bond_stride in *.
  destruct (serial o) eqn:Hser.
  - apply local_buffers_sized.
  - split; cbn [rdc dRDC dervir].
    + apply local_buffers_sized.
    + rewrite <- list_fmap_compose.
      refine (proj1 (comm_Sum_spec Vector_add _ (2 * n) _ _ Hs)).
      intros w. apply local_buffers_sized.
    + rewrite <- list_fmap_compose.
      refine (proj1 (comm_Sum_spec Tensor_add _ n _ _ Hs)).
      intros w. apply local_buffers_sized.
Qed.

(** The direct mode, for any number type: every rank publishes, bond by
    bond, its own [rdc] and the reduced derivative arrays. *)
Lemma calculate_direct_spec comm :
  1 <= bond_stride o comm ->
  calculate_direct pbcDistance o pos comm
    = Ok (component_of (reduced_buffers pbcDistance o pos comm) <$> seq 0 n).
Proof.
  intros Hs. pose proof (reduced_buffers_sized comm Hs) as Hred.
  destruct wf as [Hn Ha Hp Hm Hsc Hc].
  unfold calculate_direct. rewrite calculate_local_spec by done.
  cbn [mbind result_bind].
  assert (Hb : (if serial o then Ok (local_buffers pbcDistance o pos comm)
       else
         _ ← vector_at (dRDC (local_buffers pbcDistance o pos comm)) 0;
         _ ← vector_at (dervir (local_buffers pbcDistance o pos comm)) 0;
         all ← mapM (fun w => calculate_local pbcDistance o pos
                                {| Get_size := Get_size comm; Get_rank := w |})
                    (seq 0 (Get_size comm));
         Ok {| rdc := rdc (local_buffers pbcDistance o pos comm);
               dRDC := comm_Sum Vector_add (dRDC <$> all);
               dervir := comm_Sum Tensor_add (dervir <$> all) |})
     = Ok (reduced_buffers pbcDistance o pos comm)).
  { unfold reduced_buffers. destruct (serial o) eqn:Hser; [done|].
    destruct (local_buffers_sized comm) as [Hlr Hld Hlv].
    rewrite (vector_at_lt (dRDC _)) by lia. cbn [mbind result_bind].
    rewrite (vector_at_lt (dervir _)) by lia. cbn [mbind result_bind].
    erewrite mapM_Ok; [done|].
    intros w _. cbn beta. apply calculate_local_spec.
    unfold bond_stride in *. rewrite Hser in *. done. }
  rewrite Hb. cbn [mbind result_bind]. rewrite Ha.
  rewrite (publish_direct_spec _ (2 * n) 0 []) by (done || lia).
  by rewrite Nat.sub_0_r.
Qed.
End Direct.

(** ** The direct mode in exact arithmetic *)

Lemma lookup_total_fmap_seq {A} `{!Inhabited A} (g : nat -> A) L a :
  a < L -> (g <$> seq 0 L) !!! a = g a.
Proof.
  intros Ha. apply list_lookup_total_correct.
  by rewrite list_lookup_fmap, lookup_seq_lt.
Qed.

Section OneHot.
Context {A : Type}.
Variables (add : A -> A -> A) (zero X : A).
Hypothesis add_zero_l : forall x, add zero x = x.
Hypothesis add_zero_r : forall x, add x zero = x.
Variables (f : nat -> A) (m W : nat).
Hypothesis Hf : forall w, w < W -> f w = if decide (w = m) then X else zero.

Lemma foldl_one_hot len : forall k acc,
  k + len <= W ->
  foldl add acc (f <$> seq k len) =
    if decide (k <= m < k + len) then add acc X else acc.
Proof.
  induction len as [|len IH]; intros k acc Hk.
  - cbn. rewrite decide_False by lia. done.
  - cbn [seq fmap list_fmap foldl]. rewrite IH by lia.
    rewrite Hf by lia.
    destruct (decide (k = m)) as [->|Hkm].
    + rewrite decide_False by lia. rewrite decide_True by lia. done.
    + rewrite add_zero_r.
      destruct (decide (S k <= m < S k + len)).
      * rewrite decide_True by lia. done.
      * rewrite decide_False by lia. done.
Qed.

Lemma sum_one_hot :
  m < W -> foldl add (f 0) (f <$> seq 1 (W - 1)) = X.
Proof.
  intros Hm. rewrite foldl_one_hot by lia. rewrite Hf by lia.
  destruct (decide (0 = m)) as [<-|H0].
  - rewrite decide_False by lia. done.
  - rewrite decide_True by lia. apply add_zero_l.
Qed.
End OneHot.

Local Open Scope R_scope.

Lemma Q2R_0 : Q2R 0 = 0.
Proof. unfold Q2R. cbn. lra. Qed.

Lemma Vector_add_zero_l (v : Vector R) : Vector_add Vector_zero v = v.
Proof.
  destruct v. unfold Vector_zero. cbn. rewrite Q2R_0. f_equal; lra.
Qed.

Lemma Vector_add_zero_r (v : Vector R) : Vector_add v Vector_zero = v.
Proof.
  destruct v. unfold Vector_zero. cbn. rewrite Q2R_0. f_equal; lra.
Qed.

Lemma Tensor_add_zero_l (t : Tensor R) : Tensor_add Tensor_zero t = t.
Proof.
  destruct t. unfold Tensor_zero. cbn [Tensor_add].
  by rewrite !Vector_add_zero_l.
Qed.

Lemma Tensor_add_zero_r (t : Tensor R) : Tensor_add t Tensor_zero = t.
Proof.
  destruct t. unfold Tensor_zero. cbn [Tensor_add].
  by rewrite !Vector_add_zero_r.
Qed.

Section DirectR.
Variable pbcDistance : Vector R -> Vector R -> Vector R.
Variable o : RDC R.
Variable pos : list (Vector R).
Variable comm : Communicator.
Hypothesis wf : well_formed o pos.

Hypothesis Hrank : rank_ok o comm.

Local Abbreviation n := (ndata o).

Lemma stride_ok : (1 <= bond_stride o comm)%nat.
Proof.
  unfold bond_stride. destruct Hrank as [->| ?]; [done|].
  destruct (serial o); lia.
Qed.

Lemma reduced_dRDC a :
  (a < 2 * n)%nat ->
  dRDC (reduced_buffers pbcDistance o pos comm) !!! a
    = atom_grad pbcDistance o pos a.
Proof.
  intros Ha. pose proof stride_ok as Hs.
  unfold reduced_buffers. destruct (serial o) eqn:Hser.
  - unfold local_buffers. cbn [dRDC].
    rewrite lookup_total_fmap_seq by done.
    rewrite decide_True; [done|].
    unfold bond_stride, bond_rank, owned. rewrite Hser.
    split; [lia|]. by rewrite !Nat.mod_1_r.
  - cbn [dRDC]. rewrite <- list_fmap_compose.
    assert (HW : (1 <= Get_size comm)%nat).
    { unfold bond_stride in Hs. by rewrite Hser in Hs. }
    destruct (comm_Sum_spec Vector_add
                (dRDC ∘ (fun w => local_buffers pbcDistance o pos
                           {| Get_size := Get_size comm; Get_rank := w |}))
                (2 * n)%nat) with (W := Get_size comm) as [_ Hl]; [|done|].
    { intros w. apply local_buffers_sized. }
    rewrite Hl by done.
    apply (sum_one_hot Vector_add Vector_zero (atom_grad pbcDistance o pos a)
             Vector_add_zero_l Vector_add_zero_r
             (fun w => dRDC (local_buffers pbcDistance o pos
                        {| Get_size := Get_size comm; Get_rank := w |}) !!! a)
             ((a / 2) mod Get_size comm) (Get_size comm)).
    + intros w Hw. unfold local_buffers. cbn [dRDC].
      rewrite lookup_total_fmap_seq by done.
      unfold bond_stride, bond_rank. rewrite Hser. cbn [Get_size Get_rank].
      destruct (decide (w = (a / 2) mod Get_size comm)) as [Hw'|Hw'].
      * rewrite decide_True; [done|]. by apply owned_rank.
      * rewrite decide_False; [done|]. intros Ho. apply owned_rank in Ho; done.
    + apply Nat.mod_upper_bound. lia.
Qed.

Lemma reduced_dervir i :
  (i < n)%nat ->
  dervir (reduced_buffers pbcDistance o pos comm) !!! i
    = Tensor_outer (bond_distance pbcDistance pos i)
        (bond_grad pbcDistance o pos i).
Proof.
  intros Hi. pose proof stride_ok as Hs.
  rewrite <- (Tensor_add_zero_l (Tensor_outer _ _)).
  change (Tensor_add Tensor_zero _) with (bond_virial pbcDistance o pos i).
  unfold reduced_buffers. destruct (serial o) eqn:Hser.
  - unfold local_buffers. cbn [dervir].
    rewrite lookup_total_fmap_seq by done.
    rewrite decide_True; [done|].
    unfold bond_stride, bond_rank, owned. rewrite Hser.
    split; [lia|]. by rewrite !Nat.mod_1_r.
  - cbn [dervir]. rewrite <- list_fmap_compose.
    assert (HW : (1 <= Get_size comm)%nat).
    { unfold bond_stride in Hs. by rewrite Hser in Hs. }
    destruct (comm_Sum_spec Tensor_add
                (dervir ∘ (fun w => local_buffers pbcDistance o pos
                           {| Get_size := Get_size comm; Get_rank := w |}))
                n) with (W := Get_size comm) as [_ Hl]; [|done|].
    { intros w. apply local_buffers_sized. }
    rewrite Hl by done.
    apply (sum_one_hot Tensor_add Tensor_zero (bond_virial pbcDistance o pos i)
             Tensor_add_zero_l Tensor_add_zero_r
             (fun w => dervir (local_buffers pbcDistance o pos
                        {| Get_size := Get_size comm; Get_rank := w |}) !!! i)
             (i mod Get_size comm) (Get_size comm)).
    + intros w Hw. unfold local_buffers. cbn [dervir].
      rewrite lookup_total_fmap_seq by done.
      unfold bond_stride, bond_rank. rewrite Hser. cbn [Get_size Get_rank].
      destruct (decide (w = i mod Get_size comm)) as [Hw'|Hw'].
      * rewrite decide_True; [done|]. by apply owned_rank.
      * rewrite decide_False; [done|]. intros Ho. apply owned_rank in Ho; done.
    + apply Nat.mod_upper_bound. lia.
Qed.

Lemma reduced_rdc i :
  (i < n)%nat ->
  rdc (reduced_buffers pbcDistance o pos comm) !!! i
    = value (direct_component pbcDistance o pos comm i).
Proof.
  intros Hi.
  assert (Hloc : rdc (local_buffers pbcDistance o pos comm) !!! i
                 = value (direct_component pbcDistance o pos comm i)).
  { unfold local_buffers. cbn [rdc].
    rewrite lookup_total_fmap_seq by done. cbn [direct_component value].
    change (@dlit R _ 0%Q) with (Q2R 0). rewrite Q2R_0. done. }
  unfold reduced_buffers. by destruct (serial o).
Qed.

(** The direct mode in exact arithmetic. *)
Lemma calculate_direct_R (solve : list (list R) -> list R -> list R) :
  svd o = false ->
  calculate pbcDistance solve o pos comm
    = Ok (direct_component pbcDistance o pos comm <$> seq 0 n).
Proof.
  intros Hsvd. unfold calculate. rewrite Hsvd.
  rewrite calculate_direct_spec by (done || apply stride_ok).
  f_equal. apply list_fmap_ext. intros j i Hji.
  apply lookup_seq in Hji as [-> Hi]. cbn [Nat.add].
  unfold component_of.
  rewrite reduced_rdc, reduced_dervir by done.
  rewrite !reduced_dRDC by lia.
  rewrite atom_grad_even, atom_grad_odd. done.
Qed.
End DirectR.

Close Scope R_scope.

(** ** The kernel against the formulas of the specification *)

Local Open Scope R_scope.

Lemma kernel_rdc_spec K s g x y z :
  0 < spec_r x y z ->
  kernel_rdc K s g (mkVector x y z) = spec_rdc K s g x y z.
Proof.
  intros Hr. unfold kernel_rdc, spec_rdc, spec_Dmax, modulo.
  cbn [dlit dadd dsub dmul ddiv dneg dsqrt R_ops Vector_get].
  fold (spec_r x y z). set (r := spec_r x y z) in *.
  unfold Q2R. cbn [Qnum Qden]. cbn -[Rmult Rplus Rinv Rminus Rdiv Ropp IZR pow].
  field. lra.
Qed.

Lemma kernel_grad_spec K s g x y z :
  0 < spec_r x y z ->
  kernel_grad K s g (mkVector x y z) = spec_grad K s g x y z.
Proof.
  intros Hr. unfold kernel_grad, spec_grad, spec_prod, modulo.
  cbn [dlit dadd dsub dmul ddiv dneg dsqrt R_ops Vector_get].
  fold (spec_r x y z). set (r := spec_r x y z) in *.
  unfold Q2R. cbn [Qnum Qden].
  f_equal; field; lra.
Qed.

Lemma derivable_pt_lim_ext (f g : R -> R) x l :
  (forall t, f t = g t) -> derivable_pt_lim f x l -> derivable_pt_lim g x l.
Proof.
  intros Heq Hf eps Heps. destruct (Hf eps Heps) as [delta Hd].
  exists delta. intros h Hh Hlt. rewrite <- !Heq. by apply Hd.
Qed.

Lemma spec_r_sqr x y z : spec_r x y z * spec_r x y z = x * x + y * y + z * z.
Proof.
  unfold spec_r. apply sqrt_sqrt.
  pose proof (Rle_0_sqr x). pose proof (Rle_0_sqr y). pose proof (Rle_0_sqr z).
  unfold Rsqr in *. lra.
Qed.

(** The length, as a function of one coordinate. *)
Lemma derivable_pt_lim_length c x :
  0 < x * x + c ->
  derivable_pt_lim (fun t => sqrt (t * t + c)) x (x / sqrt (x * x + c)).
Proof.
  intros Hpos.
  assert (Hs : 0 < sqrt (x * x + c)) by by apply sqrt_lt_R0.
  assert (Hin : derivable_pt_lim (fun t => t * t + c) x (2 * x)).
  { replace (2 * x) with ((1 * x + x * 1) + 0) by ring.
    apply (derivable_pt_lim_plus (fun t => t * t) (fun _ => c)).
    - apply (derivable_pt_lim_mult id id); apply derivable_pt_lim_id.
    - apply derivable_pt_lim_const. }
  replace (x / sqrt (x * x + c)) with (/ (2 * sqrt (x * x + c)) * (2 * x))
    by (field; lra).
  apply (derivable_pt_lim_comp (fun t => t * t + c) sqrt); [done|].
  by apply derivable_pt_lim_sqrt.
Qed.

(** A quadratic over the fifth power of the length. *)
Lemma derivable_pt_lim_over_r5 a b c x :
  0 < x * x + c ->
  derivable_pt_lim (fun t => (a + b * (t * t)) / sqrt (t * t + c) ^ 5) x
    (2 * b * x / sqrt (x * x + c) ^ 5
     - 5 * (a + b * (x * x)) * x / sqrt (x * x + c) ^ 7).
Proof.
  intros Hpos.
  assert (Hs : 0 < sqrt (x * x + c)) by by apply sqrt_lt_R0.
  set (r := sqrt (x * x + c)) in *.
  assert (Hnum : derivable_pt_lim (fun t => a + b * (t * t)) x (2 * b * x)).
  { replace (2 * b * x) with (0 + b * (1 * x + x * 1)) by ring.
    apply (derivable_pt_lim_plus (fun _ => a) (fun t => b * (t * t))).
    - apply derivable_pt_lim_const.
    - apply (derivable_pt_lim_scal (fun t => t * t)).
      apply (derivable_pt_lim_mult id id); apply derivable_pt_lim_id. }
  assert (Hden : derivable_pt_lim (fun t => sqrt (t * t + c) ^ 5) x
                   (5 * r ^ 4 * (x / r))).
  { apply (derivable_pt_lim_comp (fun t => sqrt (t * t + c)) (fun u => u ^ 5)).
    - by apply derivable_pt_lim_length.
    - fold r. replace (5 * r ^ 4) with (INR 5 * r ^ pred 5)
        by (cbn [pred]; cbn [INR]; ring).
      apply derivable_pt_lim_pow. }
  replace (2 * b * x / r ^ 5 - 5 * (a + b * (x * x)) * x / r ^ 7)
    with ((2 * b * x * r ^ 5 - 5 * r ^ 4 * (x / r) * (a + b * (x * x)))
            / Rsqr (r ^ 5)) by (unfold Rsqr; field; lra).
  apply (derivable_pt_lim_div (fun t => a + b * (t * t))
           (fun t => sqrt (t * t + c) ^ 5)); [done|done|].
  fold r. apply pow_nonzero. lra.
Qed.

Lemma spec_rdc_quadratic K s g x y z :
  spec_rdc K s g x y z
    = - (0.5 * K * s * g) * (2 * (z * z) - x * x - y * y) / spec_r x y z ^ 5.
Proof.
  unfold spec_rdc, spec_Dmax. cbv zeta. pose proof (spec_r_sqr x y z) as Hsq.
  set (r := spec_r x y z) in *.
  destruct (Req_dec_T r 0) as [Hr|Hr].
  - rewrite Hr. unfold Rdiv. rewrite !pow_i by lia. rewrite Rinv_0. ring.
  - replace (2 * (z * z) - x * x - y * y) with (3 * (z * z) - r * r)
      by (rewrite Hsq; ring).
    field. done.
Qed.

Section Derivative.
Variables K s g : R.

Lemma spec_rdc_dx x y z :
  0 < spec_r x y z ->
  derivable_pt_lim (fun t => spec_rdc K s g t y z) x
    (- Vector_get (spec_grad K s g x y z) 0).
Proof.
  intros Hr. pose proof (spec_r_sqr x y z) as Hsq.
  assert (Hpos : 0 < x * x + (y * y + z * z))
    by (assert (0 < spec_r x y z * spec_r x y z) by nra; lra).
  apply (derivable_pt_lim_ext
           (fun t => (- (0.5 * K * s * g) * (2 * (z * z) - y * y)
                      + 0.5 * K * s * g * (t * t))
                     / sqrt (t * t + (y * y + z * z)) ^ 5)).
  { intros t. rewrite spec_rdc_quadratic. unfold spec_r.
    replace (t * t + y * y + z * z) with (t * t + (y * y + z * z)) by ring.
    unfold Rdiv. f_equal. ring. }
  pose proof (derivable_pt_lim_over_r5
                (- (0.5 * K * s * g) * (2 * (z * z) - y * y))
                (0.5 * K * s * g) (y * y + z * z) x Hpos) as Hd.
  replace (sqrt (x * x + (y * y + z * z))) with (spec_r x y z) in Hd
    by (unfold spec_r; f_equal; ring).
  cbn [spec_grad Vector_get]. unfold spec_prod.
  generalize dependent (spec_r x y z). intros r Hr Hsq Hd.
  match type of Hd with derivable_pt_lim _ _ ?l =>
    replace (- (K * s * g / r ^ 7 * (1.5 * x ^ 2 + 1.5 * y ^ 2 - 6 * z ^ 2) * x))
      with l; [exact Hd|] end.
  field_simplify_eq; [|lra].
  replace (r ^ 2) with (x * x + y * y + z * z) by (rewrite <- Hsq; ring).
  lra.
Qed.

Lemma spec_rdc_dy x y z :
  0 < spec_r x y z ->
  derivable_pt_lim (fun t => spec_rdc K s g x t z) y
    (- Vector_get (spec_grad K s g x y z) 1).
Proof.
  intros Hr. pose proof (spec_r_sqr x y z) as Hsq.
  assert (Hpos : 0 < y * y + (x * x + z * z))
    by (assert (0 < spec_r x y z * spec_r x y z) by nra; lra).
  apply (derivable_pt_lim_ext
           (fun t => (- (0.5 * K * s * g) * (2 * (z * z) - x * x)
                      + 0.5 * K * s * g * (t * t))
                     / sqrt (t * t + (x * x + z * z)) ^ 5)).
  { intros t. rewrite spec_rdc_quadratic. unfold spec_r.
    replace (x * x + t * t + z * z) with (t * t + (x * x + z * z)) by ring.
    unfold Rdiv. f_equal. ring. }
  pose proof (derivable_pt_lim_over_r5
                (- (0.5 * K * s * g) * (2 * (z * z) - x * x))
                (0.5 * K * s * g) (x * x + z * z) y Hpos) as Hd.
  replace (sqrt (y * y + (x * x + z * z))) with (spec_r x y z) in Hd
    by (unfold spec_r; f_equal; ring).
  cbn [spec_grad Vector_get]. unfold spec_prod.
  generalize dependent (spec_r x y z). intros r Hr Hsq Hd.
  match type of Hd with derivable_pt_lim _ _ ?l =>
    replace (- (K * s * g / r ^ 7 * (1.5 * x ^ 2 + 1.5 * y ^ 2 - 6 * z ^ 2) * y))
      with l; [exact Hd|] end.
  field_simplify_eq; [|lra].
  replace (r ^ 2) with (x * x + y * y + z * z) by (rewrite <- Hsq; ring).
  lra.
Qed.

Lemma spec_rdc_dz x y z :
  0 < spec_r x y z ->
  derivable_pt_lim (fun t => spec_rdc K s g x y t) z
    (- Vector_get (spec_grad K s g x y z) 2).
Proof.
  intros Hr. pose proof (spec_r_sqr x y z) as Hsq.
  assert (Hpos : 0 < z * z + (x * x + y * y))
    by (assert (0 < spec_r x y z * spec_r x y z) by nra; lra).
  apply (derivable_pt_lim_ext
           (fun t => (0.5 * K * s * g * (x * x + y * y)
                      + - (K * s * g) * (t * t))
                     / sqrt (t * t + (x * x + y * y)) ^ 5)).
  { intros t. rewrite spec_rdc_quadratic. unfold spec_r.
    replace (x * x + y * y + t * t) with (t * t + (x * x + y * y)) by ring.
    unfold Rdiv. f_equal. lra. }
  pose proof (derivable_pt_lim_over_r5
                (0.5 * K * s * g * (x * x + y * y))
                (- (K * s * g)) (x * x + y * y) z Hpos) as Hd.
  replace (sqrt (z * z + (x * x + y * y))) with (spec_r x y z) in Hd
    by (unfold spec_r; f_equal; ring).
  cbn [spec_grad Vector_get].
  generalize dependent (spec_r x y z). intros r Hr Hsq Hd.
  match type of Hd with derivable_pt_lim _ _ ?l =>
    match goal with |- derivable_pt_lim _ _ ?l' =>
      replace l' with l; [exact Hd|] end end.
  field_simplify_eq; [|lra].
  replace (r ^ 4) with ((x * x + y * y + z * z) * (x * x + y * y + z * z))
    by (rewrite <- Hsq; ring).
  replace (r ^ 2) with (x * x + y * y + z * z) by (rewrite <- Hsq; ring).
  lra.
Qed.
End Derivative.

Close Scope R_scope.

(** ** The constructor *)


Section ConstructorFacts.
Context {T : Type} `{DoubleOps T}.
Local Open Scope string_scope.
Variable inp : Input T.

Lemma read_atoms_spec kw : forall i acc,
  match read_atoms i kw acc with
  | Ok atoms => length atoms = length acc + 2 * count_bonds kw
  | Error _ => 1 <= count_bonds kw
  | _ => False
  end.
Proof.
  induction kw as [|t kw IH]; intros i acc; cbn [read_atoms count_bonds].
  - lia.
  - destruct (decide (length t = 0)) as [Ht|Ht]; [lia|].
    destruct (decide (length t ≠ 2)) as [Ht2|Ht2]; [lia|].
    destruct t as [|t0 [|t1 [|? ?]]]; cbn in Ht, Ht2; try lia.
    cbn [vector_at lookup list_lookup mbind result_bind].
    specialize (IH (S i) (acc ++ [t0; t1])%list).
    destruct (read_atoms _ _ _); try done.
    + rewrite IH, length_app. cbn. lia.
    + lia.
Qed.

Lemma read_numbered_spec key todo : forall i v nt,
  i + todo <= length v ->
  exists v',
    read_numbered inp key todo i v nt
      = Ok (v', nt + count_numbered inp key todo i) /\
    length v' = length v /\
    forall j, v' !! j =
      if decide (i <= j < i + count_numbered inp key todo i)
      then NUMBERED inp key (j + 1) else v !! j.
Proof.
  induction todo as [|todo IH]; intros i v nt Hlen;
    cbn [read_numbered count_numbered].
  - exists v. rewrite Nat.add_0_r. split_and!; [done..|].
    intros j. by rewrite decide_False by lia.
  - destruct (lookup_lt_is_Some_2 v i) as [x Hx]; [lia|].
    rewrite (vector_at_Some _ _ _ Hx). cbn [mbind result_bind].
    destruct (NUMBERED inp key (i + 1)) as [y|] eqn:Hy.
    + destruct (IH (S i) (<[i:=y]> v) (S nt)) as (v' & Hrun & Hl & Hlook).
      { rewrite length_insert. lia. }
      exists v'. rewrite Hrun. split_and!.
      * do 2 f_equal. lia.
      * by rewrite Hl, length_insert.
      * intros j. rewrite Hlook.
        destruct (decide (j = i)) as [->|Hji].
        -- rewrite decide_False by lia. rewrite decide_True by lia.
           rewrite list_lookup_insert_eq by lia. done.
        -- rewrite list_lookup_insert_ne by done.
           destruct (decide (S i <= j < S i + count_numbered inp key todo (S i))).
           ++ by rewrite decide_True by lia.
           ++ by rewrite decide_False by lia.
    + exists v. rewrite Nat.add_0_r. split_and!; [done..|].
      intros j. by rewrite decide_False by lia.
Qed.

Lemma count_numbered_le key todo : forall i,
  count_numbered inp key todo i <= todo.
Proof.
  induction todo as [|todo IH]; intros i; cbn; [lia|].
  destruct (NUMBERED inp key (i + 1)); [|lia]. specialize (IH (S i)). lia.
Qed.

Lemma count_numbered_Some key todo : forall i j,
  i <= j < i + count_numbered inp key todo i ->
  is_Some (NUMBERED inp key (j + 1)).
Proof.
  induction todo as [|todo IH]; intros i j; cbn; [lia|].
  destruct (NUMBERED inp key (i + 1)) as [y|] eqn:Hy; [|lia].
  intros Hj. destruct (decide (j = i)) as [->|Hji]; [by rewrite Hy|].
  apply (IH (S i)). lia.
Qed.

Lemma broadcast_spec todo : forall i (v : list T),
  1 <= i -> i + todo <= length v ->
  exists v',
    broadcast todo i v = Ok v' /\ length v' = length v /\
    forall j, v' !! j =
      if decide (i <= j < i + todo) then Some (v !!! 0) else v !! j.
Proof.
  induction todo as [|todo IH]; intros i v Hi Hlen; cbn [broadcast].
  - exists v. split_and!; [done..|]. intros j. by rewrite decide_False by lia.
  - rewrite (vector_at_lt v) by lia. cbn [mbind result_bind].
    rewrite vector_set_lt by lia. cbn [mbind result_bind].
    destruct (IH (S i) (<[i:=v !!! 0]> v)) as (v' & Hrun & Hl & Hlook);
      [lia|rewrite length_insert; lia|].
    exists v'. rewrite Hrun. split_and!; [done|by rewrite Hl, length_insert|].
    intros j. rewrite Hlook.
    rewrite list_lookup_total_insert_ne by lia.
    destruct (decide (j = i)) as [->|Hji].
    + rewrite decide_False by lia. rewrite decide_True by lia.
      by rewrite list_lookup_insert_eq by lia.
    + rewrite list_lookup_insert_ne by done.
      destruct (decide (S i <= j < S i + todo)).
      * by rewrite decide_True by lia.
      * by rewrite decide_False by lia.
Qed.

Lemma fill_spec (x : T) todo : forall i (v : list T),
  i + todo <= length v ->
  exists v',
    fill todo i x v = Ok v' /\ length v' = length v /\
    forall j, v' !! j =
      if decide (i <= j < i + todo) then Some x else v !! j.
Proof.
  induction todo as [|todo IH]; intros i v Hlen; cbn [fill].
  - exists v. split_and!; [done..|]. intros j. by rewrite decide_False by lia.
  - rewrite vector_set_lt by lia. cbn [mbind result_bind].
    assert (Hlen' : S i + todo <= length (<[i:=x]> v))
      by (rewrite length_insert; lia).
    destruct (IH (S i) (<[i:=x]> v) Hlen') as (v' & Hrun & Hl & Hlook).
    exists v'. rewrite Hrun. split_and!; [done|by rewrite Hl, length_insert|].
    intros j. rewrite Hlook.
    destruct (decide (j = i)) as [->|Hji].
    + rewrite decide_False by lia. rewrite decide_True by lia.
      by rewrite list_lookup_insert_eq by lia.
    + rewrite list_lookup_insert_ne by done.
      destruct (decide (S i <= j < S i + todo)).
      * by rewrite decide_True by lia.
      * by rewrite decide_False by lia.
Qed.

Lemma fill_replicate (x d : T) n :
  fill n 0 x (replicate n d) = Ok (replicate n x).
Proof.
  destruct (fill_spec x n 0 (replicate n d)) as (v' & -> & Hl & Hlook).
  { by rewrite length_replicate. }
  f_equal. apply list_eq. intros j. rewrite Hlook.
  rewrite length_replicate in Hl.
  destruct (decide (0 <= j < 0 + n)).
  - by rewrite lookup_replicate_2 by lia.
  - by rewrite !lookup_ge_None_2 by (rewrite length_replicate; lia).
Qed.

Lemma log_bonds_spec (ats : list AtomNumber) (mu sc : list T) n todo :
  forall i,
  length ats = 2 * n -> length mu = n -> length sc = n -> i + todo <= n ->
  log_bonds todo i ats mu sc = Ok tt.
Proof.
  induction todo as [|todo IH]; intros i Ha Hm Hs Hi; cbn [log_bonds]; [done|].
  destruct (lookup_lt_is_Some_2 ats (2 * i)) as [? ->%vector_at_Some]; [lia|].
  destruct (lookup_lt_is_Some_2 ats (2 * i + 1)) as [? ->%vector_at_Some]; [lia|].
  destruct (lookup_lt_is_Some_2 mu i) as [? ->%vector_at_Some]; [lia|].
  destruct (lookup_lt_is_Some_2 sc i) as [? ->%vector_at_Some]; [lia|].
  cbn [mbind result_bind]. apply IH; lia.
Qed.

Lemma numbered_values_length key n :
  length (numbered_values inp key n) = n.
Proof. unfold numbered_values. by rewrite length_fmap, length_seq. Qed.

Lemma group_values_length key (d : T) n :
  length (group_values inp key d n) = n.
Proof.
  unfold group_values. case_decide.
  - by rewrite length_replicate.
  - apply numbered_values_length.
Qed.

(** All [n] numbered values are there: the array read is their list. *)
Lemma read_numbered_full key (d : T) n :
  count_numbered inp key n 0 = n ->
  read_numbered inp key n 0 (replicate n d) 0
    = Ok (numbered_values inp key n, n).
Proof.
  intros Hc.
  destruct (read_numbered_spec key n 0 (replicate n d) 0)
    as (v & -> & Hl & Hlook); [by rewrite length_replicate|].
  rewrite length_replicate in Hl. rewrite Hc. do 2 f_equal.
  apply list_eq. intros j. rewrite Hlook, Hc. unfold numbered_values.
  rewrite list_lookup_fmap.
  destruct (decide (j < n)).
  - rewrite decide_True by lia. rewrite lookup_seq_lt by done. cbn.
    destruct (count_numbered_Some key n 0 j) as [y Hy]; [lia|].
    by rewrite Hy.
  - rewrite decide_False by lia. rewrite lookup_seq_ge by lia.
    apply lookup_ge_None_2. rewrite length_replicate. lia.
Qed.

(** No numbered value is there: the array is left as it was. *)
Lemma read_numbered_none key (d : T) n :
  count_numbered inp key n 0 = 0 ->
  read_numbered inp key n 0 (replicate n d) 0 = Ok (replicate n d, 0).
Proof.
  intros Hc.
  destruct (read_numbered_spec key n 0 (replicate n d) 0)
    as (v & -> & Hl & Hlook); [by rewrite length_replicate|].
  rewrite Hc. do 2 f_equal.
  apply list_eq. intros j. rewrite Hlook, Hc. by rewrite decide_False by lia.
Qed.

(** One group: the values read, then shared or checked. *)
Lemma group_spec {B} key (d : T) n (k : list T -> result B) :
  1 <= n ->
  ('(v, ntarget) ← read_numbered inp key n 0 (replicate n d) 0;
   v' ← shared_or_numbered inp key n v ntarget; k v')
  = if decide (¬ shape_ok inp key n)
    then Error ("found wrong number of " ++ key ++ " values")
    else k (group_values inp key d n).
Proof.
  intros Hn. unfold shape_ok, group_values.
  destruct (decide (count_numbered inp key n 0 = 0)) as [Hc|Hc].
  - rewrite read_numbered_none by done. cbn [mbind result_bind].
    rewrite decide_False by (intros Hno; apply Hno; by left).
    unfold shared_or_numbered. rewrite decide_True by done.
    rewrite (vector_at_lt (replicate n d)) by (rewrite length_replicate; lia).
    cbn [mbind result_bind].
    set (v1 := match PLAIN inp key with
               | Some x => <[0:=x]> (replicate n d) | None => replicate n d end).
    assert (Hl1 : length v1 = n).
    { subst v1. destruct (PLAIN inp key);
        by rewrite ?length_insert, length_replicate. }
    assert (H0 : v1 !!! 0 = default d (PLAIN inp key)).
    { subst v1. destruct (PLAIN inp key); cbn [default].
      - apply list_lookup_total_insert_eq. rewrite length_replicate. lia.
      - apply lookup_total_replicate_2. lia. }
    destruct (broadcast_spec (n - 1) 1 v1) as (v' & -> & Hl' & Hlook'); [lia..|].
    cbn [mbind result_bind]. f_equal.
    apply list_eq. intros j. rewrite Hlook', H0.
    destruct (decide (j < n)).
    + rewrite lookup_replicate_2 by done.
      destruct (decide (1 <= j < 1 + (n - 1))); [done|].
      assert (j = 0) as -> by lia.
      rewrite <- H0. apply list_lookup_lookup_total_lt. lia.
    + rewrite decide_False by lia.
      by rewrite !lookup_ge_None_2 by (rewrite ?length_replicate; lia).
  - destruct (decide (count_numbered inp key n 0 = n)) as [Hcn|Hcn].
    + rewrite read_numbered_full by done. cbn [mbind result_bind].
      rewrite decide_False by (intros Hno; apply Hno; by right).
      unfold shared_or_numbered. rewrite decide_False by lia.
      rewrite decide_False by lia. done.
    + rewrite decide_True by (intros [?|?]; done).
      destruct (read_numbered_spec key n 0 (replicate n d) 0)
        as (v & -> & Hl & Hlook); [by rewrite length_replicate|].
      cbn [mbind result_bind Nat.add]. unfold shared_or_numbered.
      rewrite decide_False by done. rewrite decide_True by done. done.
Qed.

Lemma RDC_new_spec ats :
  read_atoms 1 (ATOMS inp) [] = Ok ats ->
  1 <= count_bonds (ATOMS inp) ->
  RDC_new inp = RDC_expected inp ats.
Proof.
  intros Hats Hn.
  pose proof (read_atoms_spec (ATOMS inp) 1 []) as Hlen.
  rewrite Hats in Hlen. cbn [length Nat.add] in Hlen.
  assert (Hdiv : length ats / 2 = count_bonds (ATOMS inp)).
  { rewrite Hlen, Nat.mul_comm. apply Nat.div_mul. lia. }
  unfold RDC_new, RDC_expected. rewrite Hats. cbn [mbind result_bind].
  rewrite Hdiv. set (n := count_bonds (ATOMS inp)) in *.
  rewrite (group_spec "GYROM") by done.
  destruct (decide (¬ shape_ok inp "GYROM" n)); [done|].
  rewrite fill_replicate. cbn [mbind result_bind].
  rewrite (group_spec "SCALE") by done.
  destruct (decide (¬ shape_ok inp "SCALE" n)); [done|].
  destruct (FLAG inp "SVD") eqn:Hsvd, (HAS_GSL inp) eqn:Hgsl;
    cbn [andb negb mbind result_bind]; try done.
  - destruct (decide (count_numbered inp "COUPLING" n 0 = n)) as [Hc|Hc].
    + rewrite read_numbered_full by done. cbn [mbind result_bind].
      rewrite decide_False by lia. rewrite bool_decide_eq_true_2 by done.
      cbn [negb mbind result_bind].
      rewrite (log_bonds_spec ats _ _ n)
        by (rewrite ?group_values_length; lia).
      cbn [mbind result_bind]. by destruct (CHECKREAD inp).
    + destruct (read_numbered_spec "COUPLING" n 0 (replicate n (dlit 0)) 0)
        as (v & -> & Hl & Hlook); [by rewrite length_replicate|].
      cbn [mbind result_bind Nat.add]. rewrite decide_True by done.
      rewrite bool_decide_eq_false_2 by done. done.
  - rewrite (log_bonds_spec ats _ _ n)
      by (rewrite ?group_values_length; lia).
    cbn [mbind result_bind]. by destruct (CHECKREAD inp).
  - rewrite (log_bonds_spec ats _ _ n)
      by (rewrite ?group_values_length; lia).
    cbn [mbind result_bind]. by destruct (CHECKREAD inp).
Qed.

Lemma RDC_new_no_bond :
  count_bonds (ATOMS inp) = 0 -> RDC_new inp = OutOfBounds.
Proof.
  intros Hn. pose proof (read_atoms_spec (ATOMS inp) 1 []) as Hlen.
  unfold RDC_new. destruct (read_atoms 1 (ATOMS inp) []) as [ats| | |];
    [|lia|done..].
  rewrite Hn in Hlen. cbn in Hlen. destruct ats; [|done]. reflexivity.
Qed.

Lemma RDC_expected_not_OutOfBounds ats :
  RDC_expected inp ats ≠ OutOfBounds.
Proof. unfold RDC_expected. repeat case_match; done. Qed.

(** What the constructor leaves in an object it returns. *)
Lemma RDC_new_Ok o :
  RDC_new inp = Ok o ->
  exists ats,
    read_atoms 1 (ATOMS inp) [] = Ok ats /\
    1 <= count_bonds (ATOMS inp) /\
    length ats = 2 * count_bonds (ATOMS inp) /\
    RDC_expected inp ats = Ok o.
Proof.
  intros Hnew. pose proof (read_atoms_spec (ATOMS inp) 1 []) as Hlen.
  destruct (decide (count_bonds (ATOMS inp) = 0)) as [H0|H0].
  { by rewrite RDC_new_no_bond in Hnew. }
  destruct (read_atoms 1 (ATOMS inp) []) as [ats| | |] eqn:Hats; try done.
  - exists ats. split_and!; [done|lia|done|].
    rewrite <- Hnew. symmetry. apply RDC_new_spec; [done|lia].
  - unfold RDC_new in Hnew. by rewrite Hats in Hnew.
Qed.
End ConstructorFacts.

(** ** The direct mode: claims *)


Lemma total_of_lookup {T} `{DoubleOps T} (v : list T) i x :
  v !! i = Some x -> v !!! i = x.
Proof. apply list_lookup_total_correct. Qed.

Section Built.
Context {T : Type} `{DoubleOps T}.
Local Open Scope string_scope.

(** An object the constructor returns is well formed, whatever the
    positions the host then gives for its atoms. *)
Lemma RDC_new_well_formed (inp : Input T) o (pos : list (Vector T)) :
  RDC_new inp = Ok o -> length pos = length (atoms o) ->
  well_formed o pos.
Proof.
  intros (ats & Hats & Hn & Hlen & Hexp)%RDC_new_Ok Hpos.
  assert (Hdiv : length ats / 2 = count_bonds (ATOMS inp)).
  { rewrite Hlen, Nat.mul_comm. apply Nat.div_mul. lia. }
  unfold RDC_expected in Hexp. rewrite Hdiv in Hexp.
  repeat case_match; try done; injection Hexp as <-;
    cbn in Hpos; split; cbn; rewrite ?group_values_length; lia.
Qed.

Lemma RDC_new_Const (inp : Input T) o :
  RDC_new inp = Ok o -> Const o = dlit 0.3356806.
Proof.
  intros (ats & _ & _ & _ & Hexp)%RDC_new_Ok.
  unfold RDC_expected in Hexp. repeat case_match; try done;
  by injection Hexp as <-.
Qed.

Lemma RDC_new_svd (inp : Input T) o :
  RDC_new inp = Ok o -> svd o = FLAG inp "SVD".
Proof.
  intros (ats & _ & _ & _ & Hexp)%RDC_new_Ok.
  unfold RDC_expected in Hexp. repeat case_match; try done;
  by injection Hexp as <-.
Qed.
End Built.

Local Open Scope R_scope.

Section DirectClaims.
Variable pbcDistance : Vector R -> Vector R -> Vector R.
Variable solve : list (list R) -> list R -> list R.
Variable o : RDC R.
Variable pos : list (Vector R).
Variable comm : Communicator.
Hypothesis wf : well_formed o pos.
Hypothesis Hrank : rank_ok o comm.
Hypothesis Hsvd : svd o = false.

Lemma published_direct i :
  (i < ndata o)%nat ->
  published (calculate pbcDistance solve o pos comm) i
    = Some (direct_component pbcDistance o pos comm i).
Proof.
  intros Hi. rewrite calculate_direct_R by done. cbn [published].
  by rewrite list_lookup_fmap, lookup_seq_lt.
Qed.
End DirectClaims.

Lemma ex_run pos : length pos = 2%nat -> direct_run ex_input ex_object pos ex_comm.
Proof. intros Hpos. split; [reflexivity|reflexivity|exact Hpos|right; cbn; lia]. Defined.

Lemma direct_run_well_formed {T} `{DoubleOps T} (inp : Input T) o pos comm :
  direct_run inp o pos comm -> well_formed o pos.
Proof. intros [Hnew _ Hpos _]. by eapply RDC_new_well_formed. Qed.

Section DirectTheorems.
Variable pbcDistance : Vector R -> Vector R -> Vector R.
Variable solve : list (list R) -> list R -> list R.
Variable inp : Input R.
Variable o : RDC R.
Variable pos : list (Vector R).
Variable comm : Communicator.
Hypothesis run : direct_run inp o pos comm.
Variable i : nat.
Hypothesis Hi : (i < ndata o)%nat.

Local Abbreviation res := (calculate pbcDistance solve o pos comm).

Lemma published_run :
  published res i = Some (direct_component pbcDistance o pos comm i).
Proof.
  destruct run as [Hnew Hsvd Hpos Hrank].
  apply published_direct; try done. by eapply RDC_new_well_formed.
Qed.

(** In a serial run, and in a run of one rank, the rank owns every bond. *)
Lemma single_rank_owns_all :
  serial o = true \/ Get_size comm = 1%nat ->
  owned (bond_stride o comm) (bond_rank o comm) i.
Proof.
  destruct run as [_ _ _ Hrank]. unfold bond_stride, bond_rank, owned.
  assert (H1 : forall k, (0 <= i)%nat /\ (i mod 1 = k mod 1)%nat).
  { intros k. split; [lia|]. by rewrite !Nat.mod_1_r. }
  intros [Hser|Hone].
  - rewrite Hser. apply H1.
  - unfold rank_ok in Hrank. destruct (serial o); [apply H1|].
    destruct Hrank as [?|Hr]; [done|]. rewrite Hone in *.
    replace (Get_rank comm) with 0%nat by lia. apply H1.
Qed.

(** The closed form on the rank that owns the bond.  In direct mode, for
    a bond of displacement [(x,y,z)] and length [r > 0], the scalar
    published by the rank that owns the bond (every bond, in a serial or
    single-rank run) is [0.5 * D_max * (3 cos^2 theta - 1)] with
    [cos theta = z/r], [D_max = -K*scale*gyro/r^3] and [K = 0.3356806]. *)
Lemma rdc_closed_form s g x y z :
  owned (bond_stride o comm) (bond_rank o comm) i ->
  scale o !! i = Some s -> mu_s o !! i = Some g ->
  bond_distance pbcDistance pos i = mkVector x y z ->
  0 < spec_r x y z ->
  value <$> published res i = Some (spec_rdc 0.3356806 s g x y z).
Proof.
  intros Hown Hs Hg Hd Hr. rewrite published_run.
  cbn [fmap option_fmap option_map].
  f_equal. cbn [direct_component value]. rewrite decide_True by done.
  unfold bond_rdc. rewrite Hd, (RDC_new_Const inp o) by apply run.
  rewrite (total_of_lookup _ _ _ Hs), (total_of_lookup _ _ _ Hg).
  by apply kernel_rdc_spec.
Qed.

(** C2, amended. The vector assigned to the first atom of the bond is
    [(prod*x, prod*y, K*scale*gyro/r^9*z*(...))], the second atom gets
    the opposite vector; these expressions are the opposite of the
    partial derivatives of the closed form with respect to the
    components of [d], that is its derivatives in the position of the
    first atom. *)
Theorem gradient_closed_form s g x y z :
  scale o !! i = Some s -> mu_s o !! i = Some g ->
  bond_distance pbcDistance pos i = mkVector x y z ->
  0 < spec_r x y z ->
  let K := 0.3356806 in
  let G := spec_grad K s g x y z in
  atomsDerivatives <$> published res i
    = Some [((2 * i)%nat, G); ((2 * i + 1)%nat, Vector_neg G)] /\
  derivable_pt_lim (fun t => spec_rdc K s g t y z) x (- Vector_get G 0) /\
  derivable_pt_lim (fun t => spec_rdc K s g x t z) y (- Vector_get G 1) /\
  derivable_pt_lim (fun t => spec_rdc K s g x y t) z (- Vector_get G 2).
Proof.
  intros Hs Hg Hd Hr K G. split_and!.
  - rewrite published_run. cbn [fmap option_fmap option_map].
    cbn [direct_component atomsDerivatives]. unfold bond_grad.
    rewrite Hd, (RDC_new_Const inp o) by apply run.
    rewrite (total_of_lookup _ _ _ Hs), (total_of_lookup _ _ _ Hg).
    by rewrite kernel_grad_spec.
  - by apply spec_rdc_dx.
  - by apply spec_rdc_dy.
  - by apply spec_rdc_dz.
Qed.

(** C8, amended. The tensor published as the virial of the bond is the
    outer product of the displacement with the gradient assigned to the
    first atom of the bond.  The gradient assigned to the second atom is
    the opposite vector, so the tensor is the opposite of the outer
    product of the displacement with the gradient assigned to the second
    atom. *)
Theorem virial_outer_product :
  exists gA gB,
    atomsDerivatives <$> published res i
      = Some [((2 * i)%nat, gA); ((2 * i + 1)%nat, gB)] /\
    boxDerivatives <$> published res i
      = Some (Some (Tensor_outer (bond_distance pbcDistance pos i) gA)) /\
    gB = Vector_neg gA /\
    boxDerivatives <$> published res i
      = Some (Some (Tensor_neg
                      (Tensor_outer (bond_distance pbcDistance pos i) gB))).
Proof.
  exists (bond_grad pbcDistance o pos i),
         (Vector_neg (bond_grad pbcDistance o pos i)).
  rewrite published_run. split_and!; try done.
  cbn [fmap option_fmap option_map direct_component boxDerivatives].
  do 2 f_equal.
  destruct (bond_distance pbcDistance pos i) as [dx dy dz].
  destruct (bond_grad pbcDistance o pos i) as [gx gy gz].
  cbn [Tensor_outer Tensor_neg Vector_neg dmul dneg R_ops].
  repeat f_equal; ring.
Qed.

(** What does not depend on the ranks: after the two reductions every
    rank holds the same gradients and the same virial. *)
Lemma derivatives_on_every_rank comm' :
  direct_run inp o pos comm' ->
  atomsDerivatives <$> published (calculate pbcDistance solve o pos comm') i
    = atomsDerivatives <$> published res i /\
  boxDerivatives <$> published (calculate pbcDistance solve o pos comm') i
    = boxDerivatives <$> published res i.
Proof.
  intros run'. rewrite published_run.
  destruct run' as [Hnew Hsvd Hpos Hrank].
  rewrite (published_direct pbcDistance solve o pos comm'); try done.
  by eapply RDC_new_well_formed.
Qed.

(** What does: a rank that does not own the bond publishes zero. *)
Lemma value_on_other_rank :
  ~ owned (bond_stride o comm) (bond_rank o comm) i ->
  value <$> published res i = Some 0.
Proof.
  intros Hown. rewrite published_run. cbn [fmap option_fmap option_map].
  f_equal. cbn [direct_component value]. by rewrite decide_False.
Qed.
End DirectTheorems.

Lemma Vector_neg_involutive (v : Vector R) : Vector_neg (Vector_neg v) = v.
Proof. destruct v. cbn. f_equal; lra. Qed.

Lemma modulo_neg (v : Vector R) : modulo (Vector_neg v) = modulo v.
Proof. destruct v. cbn. f_equal. lra. Qed.

Lemma kernel_rdc_neg K s g (d : Vector R) :
  kernel_rdc K s g (Vector_neg d) = kernel_rdc K s g d.
Proof.
  unfold kernel_rdc. rewrite modulo_neg. destruct d as [x y z].
  cbn [Vector_neg Vector_get dlit dadd dsub dmul ddiv dneg dsqrt R_ops].
  generalize (Q2R 0.5) (Q2R 3) (Q2R 1); intros c1 c3 c0.
  generalize (c0 / modulo (mkVector x y z)); intros ind. ring.
Qed.

Lemma delta_antisymmetric (a b : Vector R) : delta b a = Vector_neg (delta a b).
Proof. destruct a, b. cbn. f_equal; lra. Qed.

Section Swap.
Variable pbcDistance : Vector R -> Vector R -> Vector R.
Variable solve : list (list R) -> list R -> list R.
Variable inp : Input R.
Variable o : RDC R.
Variable pos : list (Vector R).
Variable comm : Communicator.
Hypothesis run : direct_run inp o pos comm.
Variable i : nat.
Hypothesis Hi : (i < ndata o)%nat.
Hypothesis pbc_antisymmetric :
  forall a b, pbcDistance b a = Vector_neg (pbcDistance a b).

Lemma swap_bond_run : direct_run inp o (swap_bond pos i) comm.
Proof.
  destruct run as [Hnew Hsvd Hpos Hrank]. split; try done.
  unfold swap_bond. by rewrite !length_insert.
Qed.

Lemma swap_bond_distance :
  bond_distance pbcDistance (swap_bond pos i) i
    = Vector_neg (bond_distance pbcDistance pos i).
Proof.
  pose proof (direct_run_well_formed _ _ _ _ run) as [Hn Ha Hp _ _ _].
  unfold bond_distance, swap_bond.
  rewrite list_lookup_total_insert_eq by (rewrite length_insert; lia).
  rewrite list_lookup_total_insert_ne by lia.
  rewrite list_lookup_total_insert_eq by lia.
  apply pbc_antisymmetric.
Qed.

(** C9. Exchanging the two atoms of a bond, which negates its
    displacement, leaves the published scalar unchanged; and in every
    evaluation the gradient assigned to the first atom is the opposite of
    the one assigned to the second. *)
Theorem swap_atoms_symmetry :
  value <$> published (calculate pbcDistance solve o (swap_bond pos i) comm) i
    = value <$> published (calculate pbcDistance solve o pos comm) i /\
  exists gA gB,
    atomsDerivatives <$> published (calculate pbcDistance solve o pos comm) i
      = Some [((2 * i)%nat, gA); ((2 * i + 1)%nat, gB)] /\
    gA = Vector_neg gB.
Proof.
  split.
  - rewrite (published_run _ _ inp) by (done || apply swap_bond_run).
    rewrite (published_run _ _ inp) by done.
    cbn [fmap option_fmap option_map direct_component value]. f_equal.
    case_decide; [|done]. unfold bond_rdc.
    by rewrite swap_bond_distance, kernel_rdc_neg.
  - exists (bond_grad pbcDistance o pos i),
           (Vector_neg (bond_grad pbcDistance o pos i)).
    rewrite (published_run _ _ inp) by done.
    by rewrite Vector_neg_involutive.
Qed.
End Swap.

(** Witnesses: one bond along the z axis, of length 1.04. *)

Lemma ex_length_z : 0 < spec_r (0 - 0) (0 - 0) (1.04 - 0).
Proof. unfold spec_r. apply sqrt_lt_R0. lra. Qed.

Lemma rdc_closed_form_witness :
  value <$> published (calculate delta ex_solve ex_object ex_along_z ex_comm) 0
    = Some (spec_rdc 0.3356806 1 (-72.5388) (0 - 0) (0 - 0) (1.04 - 0)).
Proof.
  apply (rdc_closed_form delta ex_solve ex_input ex_object ex_along_z ex_comm
           (ex_run ex_along_z eq_refl) 0%nat).
  - cbn; lia.
  - split; [cbn; lia|reflexivity].
  - reflexivity.
  - reflexivity.
  - reflexivity.
  - exact ex_length_z.
Defined.

Lemma ex_length_x : spec_r (1 - 0) (0 - 0) (0 - 0) = 1.
Proof.
  unfold spec_r. replace ((1 - 0) * (1 - 0) + (0 - 0) * (0 - 0) + (0 - 0) * (0 - 0))
    with 1 by lra. apply sqrt_1.
Qed.

Lemma gradient_closed_form_witness :
  let K := 0.3356806 in
  let G := spec_grad K 1 (-72.5388) (0 - 0) (0 - 0) (1.04 - 0) in
  atomsDerivatives <$>
    published (calculate delta ex_solve ex_object ex_along_z ex_comm) 0
    = Some [(0%nat, G); (1%nat, Vector_neg G)] /\
  derivable_pt_lim (fun t => spec_rdc K 1 (-72.5388) t (0 - 0) (1.04 - 0))
    (0 - 0) (- Vector_get G 0) /\
  derivable_pt_lim (fun t => spec_rdc K 1 (-72.5388) (0 - 0) t (1.04 - 0))
    (0 - 0) (- Vector_get G 1) /\
  derivable_pt_lim (fun t => spec_rdc K 1 (-72.5388) (0 - 0) (0 - 0) t)
    (1.04 - 0) (- Vector_get G 2).
Proof.
  apply (gradient_closed_form delta ex_solve ex_input ex_object ex_along_z
           ex_comm (ex_run ex_along_z eq_refl) 0%nat).
  - cbn; lia.
  - reflexivity.
  - reflexivity.
  - reflexivity.
  - exact ex_length_z.
Defined.

Lemma virial_outer_product_witness :
  exists gA gB,
    atomsDerivatives <$>
      published (calculate delta ex_solve ex_object ex_along_z ex_comm) 0
      = Some [(0%nat, gA); (1%nat, gB)] /\
    boxDerivatives <$>
      published (calculate delta ex_solve ex_object ex_along_z ex_comm) 0
      = Some (Some (Tensor_outer (bond_distance delta ex_along_z 0) gA)) /\
    gB = Vector_neg gA /\
    boxDerivatives <$>
      published (calculate delta ex_solve ex_object ex_along_z ex_comm) 0
      = Some (Some (Tensor_neg
                      (Tensor_outer (bond_distance delta ex_along_z 0) gB))).
Proof.
  apply (virial_outer_product delta ex_solve ex_input ex_object ex_along_z
           ex_comm (ex_run ex_along_z eq_refl) 0%nat).
  cbn; lia.
Defined.

Lemma swap_atoms_symmetry_witness :
  value <$> published (calculate delta ex_solve ex_object
                         (swap_bond ex_along_z 0) ex_comm) 0
    = value <$> published (calculate delta ex_solve ex_object ex_along_z
                             ex_comm) 0 /\
  exists gA gB,
    atomsDerivatives <$>
      published (calculate delta ex_solve ex_object ex_along_z ex_comm) 0
      = Some [(0%nat, gA); (1%nat, gB)] /\
    gA = Vector_neg gB.
Proof.
  apply (swap_atoms_symmetry delta ex_solve ex_input ex_object ex_along_z
           ex_comm (ex_run ex_along_z eq_refl) 0%nat).
  - cbn; lia.
  - exact delta_antisymmetric.
Defined.

(** C2 as stated fails: the expression given for the x component is not
    the derivative of the closed form in [d_x]; here [d = (1,0,0)] with
    scale and gyromagnetic product 1. *)
Lemma gradient_not_derivative_in_d :
  let K := 0.3356806 in
  Vector_get (kernel_grad K 1 1 (mkVector 1 0 0)) 0
    = spec_prod K 1 1 1 0 0 * 1 /\
  ~ derivable_pt_lim (fun t => spec_rdc K 1 1 t 0 0) 1
      (spec_prod K 1 1 1 0 0 * 1).
Proof.
  intros K.
  assert (Hr : spec_r 1 0 0 = 1).
  { unfold spec_r. replace (1 * 1 + 0 * 0 + 0 * 0) with 1 by lra. apply sqrt_1. }
  split.
  - rewrite kernel_grad_spec by (rewrite Hr; lra). reflexivity.
  - intros Hd.
    pose proof (spec_rdc_dx K 1 1 1 0 0) as Hd'.
    cbn [spec_grad Vector_get] in Hd'. specialize (Hd' ltac:(rewrite Hr; lra)).
    pose proof (uniqueness_limite _ _ _ _ Hd Hd') as Heq.
    unfold spec_prod in Heq. rewrite Hr in Heq. subst K. lra.
Qed.

(** C8 as stated fails: for one bond along the x axis the virial published
    is not the outer product of the displacement with the gradient of the
    second atom. *)
Lemma virial_not_second_atom :
  exists gA gB,
    atomsDerivatives <$>
      published (calculate delta ex_solve ex_object ex_along_x ex_comm) 0
      = Some [(0%nat, gA); (1%nat, gB)] /\
    boxDerivatives <$>
      published (calculate delta ex_solve ex_object ex_along_x ex_comm) 0
      <> Some (Some (Tensor_outer (bond_distance delta ex_along_x 0) gB)).
Proof.
  exists (bond_grad delta ex_object ex_along_x 0),
         (Vector_neg (bond_grad delta ex_object ex_along_x 0)).
  rewrite (published_run delta ex_solve ex_input ex_object ex_along_x ex_comm
             (ex_run ex_along_x eq_refl) 0%nat) by (cbn; lia).
  split; [reflexivity|].
  cbn [fmap option_fmap option_map direct_component boxDerivatives].
  unfold bond_grad.
  change (bond_distance delta ex_along_x 0)
    with (mkVector (1 - 0) (0 - 0) (0 - 0) : Vector R).
  change (scale ex_object !!! 0%nat) with 1.
  change (mu_s ex_object !!! 0%nat) with (-72.5388).
  change (Const ex_object) with 0.3356806.
  rewrite kernel_grad_spec by (rewrite ex_length_x; lra).
  unfold spec_grad, spec_prod. rewrite ex_length_x.
  cbn [Tensor_outer Vector_neg dmul dneg R_ops].
  intros [= Heq _]. lra.
Qed.

(** Two bonds in exact arithmetic, on the first of two ranks and on a
    single rank. *)
Lemma ex_two_run comm :
  (Get_rank comm < Get_size comm)%nat ->
  direct_run ex_two_input ex_two_object ex_two_positions comm.
Proof. intros Hr. split; [reflexivity|reflexivity|reflexivity|by right]. Qed.

(** C1 fails on the code, on the ranks of a parallel run that do not own
    the bond.  For a bond of length [r > 0] a rank publishes the closed
    form [0.5 * D_max * (3 cos^2 theta - 1)] if it owns the bond and 0 if
    it does not.  Two bonds on two ranks, without SERIAL: the second bond
    has the displacement [(1,0,0)], of length 1, and its closed form is
    [-(K*72.5388)/2], not zero; a single rank publishes the closed form
    for it, and the first of two ranks, which does not own it, publishes
    0. *)
Theorem rdc_closed_form_not_on_every_rank :
  (forall pbcDistance solve inp o pos comm i s g x y z,
     direct_run inp o pos comm -> (i < ndata o)%nat ->
     scale o !! i = Some s -> mu_s o !! i = Some g ->
     bond_distance pbcDistance pos i = mkVector x y z ->
     0 < spec_r x y z ->
     value <$> published (calculate pbcDistance solve o pos comm) i
       = Some (if decide (owned (bond_stride o comm) (bond_rank o comm) i)
               then spec_rdc 0.3356806 s g x y z else 0)) /\
  let closed_form := spec_rdc 0.3356806 1 (-72.5388) (2 - 1) (1 - 1) (1 - 1) in
  direct_run ex_two_input ex_two_object ex_two_positions ex_first_of_two /\
  direct_run ex_two_input ex_two_object ex_two_positions ex_comm /\
  bond_distance delta ex_two_positions 1 = mkVector (2 - 1) (1 - 1) (1 - 1) /\
  spec_r (2 - 1) (1 - 1) (1 - 1) = 1 /\
  closed_form = - (0.3356806 * 72.5388) / 2 /\
  closed_form <> 0 /\
  value <$> published (calculate delta ex_solve ex_two_object ex_two_positions
                         ex_comm) 1
    = Some closed_form /\
  value <$> published (calculate delta ex_solve ex_two_object ex_two_positions
                         ex_first_of_two) 1
    = Some 0.
Proof.
  split.
  { intros pbcDistance solve inp o pos comm i s g x y z run Hi Hs Hg Hd Hr.
    case_decide.
    - by apply (rdc_closed_form pbcDistance solve inp).
    - by apply (value_on_other_rank pbcDistance solve inp). }
  intros closed_form.
  assert (Hr : spec_r (2 - 1) (1 - 1) (1 - 1) = 1).
  { unfold spec_r.
    replace ((2 - 1) * (2 - 1) + (1 - 1) * (1 - 1) + (1 - 1) * (1 - 1))
      with 1 by lra.
    apply sqrt_1. }
  assert (Hc : closed_form = - (0.3356806 * 72.5388) / 2).
  { unfold closed_form, spec_rdc, spec_Dmax. cbv zeta. rewrite Hr. lra. }
  assert (H2 : direct_run ex_two_input ex_two_object ex_two_positions
                 ex_first_of_two) by (apply ex_two_run; cbn; lia).
  assert (H1 : direct_run ex_two_input ex_two_object ex_two_positions ex_comm)
    by (apply ex_two_run; cbn; lia).
  split_and!; try done.
  - rewrite Hc. lra.
  - apply (rdc_closed_form delta ex_solve ex_two_input ex_two_object
             ex_two_positions ex_comm H1 1%nat); try reflexivity.
    + cbn; lia.
    + split; [cbn; lia|reflexivity].
    + rewrite Hr. lra.
  - apply (value_on_other_rank delta ex_solve ex_two_input ex_two_object
             ex_two_positions ex_first_of_two H2 1%nat).
    + cbn; lia.
    + intros [_ Hmod]. cbn in Hmod. discriminate Hmod.
Qed.

Close Scope R_scope.

(** ** The fit mode *)


Section Fit.
Context {T : Type} `{DoubleOps T}.
Variable pbcDistance : Vector T -> Vector T -> Vector T.
Variable gsl_SV_solve : list (list T) -> list T -> list T.
Variable o : RDC T.
Variable pos : list (Vector T).
Hypothesis wf : well_formed o pos.
Hypothesis Hcoupl : length (coupl o) = ndata o.

Local Abbreviation n := (ndata o).
Local Abbreviation zero_row := (replicate 5 (dlit 0 : T)).

Lemma gsl_matrix_acc_spec (m : list (list T)) i j row (x : T) :
  m !! i = Some row -> j < length row ->
  gsl_matrix_acc m i j x = Ok (<[i := <[j := dadd (row !!! j) x]> row]> m).
Proof.
  intros Hrow Hj. unfold gsl_matrix_acc, gsl_matrix_get, gsl_matrix_set.
  rewrite (vector_at_Some _ _ _ Hrow). cbn [mbind result_bind].
  rewrite (vector_at_lt row) by done. cbn [mbind result_bind].
  rewrite vector_set_lt by done. cbn [mbind result_bind].
  apply vector_set_lt. by eapply lookup_lt_Some.
Qed.

Lemma fit_body_spec k st :
  k < n -> fit_sized o st -> coef_mat st !! k = Some zero_row ->
  fit_body pbcDistance o pos (2 * k) k st =
    Ok {| rdc_vec := <[k := fit_target pbcDistance o pos k]> (rdc_vec st);
          coef_mat := <[k := fit_row pbcDistance pos k]> (coef_mat st);
          dmax_v := <[k := fit_dmax pbcDistance o pos k]> (dmax_v st) |}.
Proof.
  intros Hk [Hr Hm Hd] Hrow. destruct wf as [Hn Ha Hp Hmu Hsc Hc].
  unfold fit_body.
  rewrite !(vector_at_lt pos) by lia. cbn [mbind result_bind].
  rewrite (vector_at_lt (mu_s o)) by lia. cbn [mbind result_bind].
  rewrite (vector_at_lt (scale o)) by lia. cbn [mbind result_bind].
  rewrite vector_set_lt by lia. cbn [mbind result_bind].
  rewrite (vector_at_lt (coupl o)) by lia. cbn [mbind result_bind].
  rewrite vector_at_lt by (rewrite length_insert; lia).
  cbn [mbind result_bind].
  rewrite list_lookup_total_insert_eq by lia.
  rewrite vector_set_lt by lia. cbn [mbind result_bind].
  rewrite (gsl_matrix_acc_spec _ k 0 zero_row) by (done || cbn; lia).
  cbn [mbind result_bind].
  do 4 (erewrite gsl_matrix_acc_spec;
        [|apply list_lookup_insert_eq; rewrite ?length_insert; lia
         |cbn; lia];
        cbn [mbind result_bind]; rewrite list_insert_insert_eq).
  reflexivity.
Qed.

Lemma fit_loop_spec fuel : forall k st,
  n <= k + fuel -> fit_sized o st ->
  (forall i, k <= i < n -> coef_mat st !! i = Some zero_row) ->
  exists st',
    fit_loop pbcDistance fuel o pos (2 * n) (2 * k) k st = Ok st' /\
    fit_sized o st' /\
    (forall i, rdc_vec st' !! i =
       if decide (k <= i < n) then Some (fit_target pbcDistance o pos i)
       else rdc_vec st !! i) /\
    (forall i, coef_mat st' !! i =
       if decide (k <= i < n) then Some (fit_row pbcDistance pos i)
       else coef_mat st !! i) /\
    (forall i, dmax_v st' !! i =
       if decide (k <= i < n) then Some (fit_dmax pbcDistance o pos i)
       else dmax_v st !! i).
Proof.
  induction fuel as [|fuel IH]; intros k st Hfuel Hst Hzero;
    cbn [fit_loop].
  - exists st. rewrite decide_False by lia.
    split_and!; [done|done|..]; intros i; by rewrite decide_False by lia.
  - destruct (decide (2 * k < 2 * n)) as [Hk|Hk].
    + rewrite fit_body_spec by (done || lia || (apply Hzero; lia)).
      cbn [mbind result_bind]. set (st1 := {| rdc_vec := _ |}).
      assert (Hst1 : fit_sized o st1).
      { destruct Hst. subst st1.
        split; cbn [rdc_vec coef_mat dmax_v]; by rewrite length_insert. }
      destruct (IH (S k) st1) as (st' & Hrun & Hst' & Hr & Hm & Hd);
        [lia|done|..].
      { intros i Hi. subst st1. cbn [coef_mat].
        rewrite list_lookup_insert_ne by lia. apply Hzero. lia. }
      exists st'. replace (2 * k + 2) with (2 * S k) by lia.
      destruct Hst as [Hlr Hlm Hld].
      split_and!; [done|done|..]; intros i;
        rewrite ?Hr, ?Hm, ?Hd; subst st1; cbn [rdc_vec coef_mat dmax_v];
        (destruct (decide (i = k)) as [->|Hik];
         [rewrite decide_False by lia; rewrite decide_True by lia;
          by rewrite list_lookup_insert_eq by lia
         |rewrite list_lookup_insert_ne by done;
          destruct (decide (S k <= i < n));
          [by rewrite decide_True by lia|by rewrite decide_False by lia]]).
    + exists st.
      split_and!; [done|done|..]; intros i; by rewrite decide_False by lia.
Qed.

Lemma fit_loop_run :
  fit_loop pbcDistance (2 * n) o pos (2 * n) 0 0
    {| rdc_vec := replicate n (dlit 0);
       coef_mat := replicate n zero_row;
       dmax_v := replicate n (dlit 0) |}
  = Ok (fit_state pbcDistance o pos).
Proof.
  set (st0 := {| rdc_vec := _ |}).
  destruct (fit_loop_spec (2 * n) 0 st0)
    as (st' & Hrun & [Hlr Hlm Hld] & Hr & Hm & Hd); [lia|..].
  { subst st0. split; cbn; by rewrite length_replicate. }
  { intros i Hi. subst st0. cbn. apply lookup_replicate_2. lia. }
  change (2 * 0) with 0 in Hrun. rewrite Hrun. f_equal.
  destruct st' as [r' m' d']. cbn [rdc_vec coef_mat dmax_v] in *.
  unfold fit_state. f_equal; apply list_eq; intros i;
    rewrite ?Hr, ?Hm, ?Hd, list_lookup_fmap;
    (destruct (decide (i < n));
     [rewrite decide_True by lia; by rewrite lookup_seq_lt by done
     |rewrite decide_False by lia; rewrite lookup_seq_ge by lia;
      subst st0; cbn; apply lookup_ge_None_2; rewrite length_replicate; lia]).
Qed.

Lemma back_calculate_spec (bc dmax : list T) todo : forall index rdc,
  index + todo <= length bc -> index + todo <= length dmax ->
  index + todo <= length rdc ->
  exists rdc',
    back_calculate todo index bc dmax rdc = Ok rdc' /\
    length rdc' = length rdc /\
    forall i, rdc' !! i =
      if decide (index <= i < index + todo)
      then Some (dmul (bc !!! i) (dmax !!! i)) else rdc !! i.
Proof.
  induction todo as [|todo IH]; intros index rdc Hb Hd Hr;
    cbn [back_calculate].
  - exists rdc. split_and!; [done..|].
    intros i. by rewrite decide_False by lia.
  - rewrite (vector_at_lt bc), (vector_at_lt dmax) by lia.
    cbn [mbind result_bind]. rewrite vector_set_lt by lia.
    cbn [mbind result_bind].
    destruct (IH (S index) (<[index := dmul (bc !!! index) (dmax !!! index)]> rdc))
      as (rdc' & Hrun & Hl & Hlook); [lia|lia|rewrite length_insert; lia|].
    exists rdc'. split_and!; [done|by rewrite Hl, length_insert|].
    intros i. rewrite Hlook.
    destruct (decide (i = index)) as [->|Hi].
    + rewrite decide_False by lia. rewrite decide_True by lia.
      by rewrite list_lookup_insert_eq by lia.
    + rewrite list_lookup_insert_ne by done.
      destruct (decide (S index <= i < S index + todo)).
      * by rewrite decide_True by lia.
      * by rewrite decide_False by lia.
Qed.

Lemma publish_fit_spec (rdc : list T) todo : forall i out,
  i + todo <= length rdc -> i + todo <= components o ->
  publish_fit todo i o rdc out
    = Ok (out ++ ((fun j => {| value := rdc !!! j; boxDerivatives := None;
                               atomsDerivatives := [] |}) <$> seq i todo)).
Proof.
  induction todo as [|todo IH]; intros i out Hr Hc; cbn [publish_fit].
  - cbn. by rewrite app_nil_r.
  - rewrite decide_True by lia. cbn [mbind result_bind].
    rewrite vector_at_lt by lia. cbn [mbind result_bind].
    rewrite IH by lia. cbn [seq fmap list_fmap].
    by rewrite <- app_assoc.
Qed.

(** The fit mode, for any number type. *)
Lemma calculate_svd_spec sxx syy sxy sxz syz :
  with_gsl o = true ->
  gsl_SV_solve (fit_row pbcDistance pos <$> seq 0 n)
               (fit_target pbcDistance o pos <$> seq 0 n)
    = [sxx; syy; sxy; sxz; syz] ->
  calculate_svd pbcDistance gsl_SV_solve o pos =
    Ok (Some {| Sxx := sxx; Syy := syy; Szz := dsub (dneg sxx) syy;
                Sxy := sxy; Sxz := sxz; Syz := syz |},
        (fun i =>
           {| value :=
                dmul (dadd (dmul (dlit 1.0)
                              (dot (fit_row pbcDistance pos i)
                                   [sxx; syy; sxy; sxz; syz]))
                           (dmul (dlit 0) (dlit 0)))
                     (fit_dmax pbcDistance o pos i);
              boxDerivatives := None; atomsDerivatives := [] |})
          <$> seq 0 n).
Proof.
  intros Hgsl Hsolve. destruct wf as [Hn Ha Hp Hmu Hsc Hc].
  unfold calculate_svd. rewrite Hgsl, Ha, Hcoupl.
  rewrite fit_loop_run. cbn [mbind result_bind].
  cbn [fit_state coef_mat rdc_vec dmax_v]. rewrite Hsolve.
  cbn [vector_at lookup list_lookup mbind result_bind].
  set (S := [sxx; syy; sxy; sxz; syz]).
  set (bc := gsl_blas_dgemv _ _ _ _ _).
  assert (Hbc : length bc = n).
  { subst bc. unfold gsl_blas_dgemv.
    rewrite length_zip_with, length_fmap, length_seq, length_replicate. lia. }
  destruct (back_calculate_spec bc (fit_dmax pbcDistance o pos <$> seq 0 n)
              n 0 (replicate n (dlit 0)))
    as (rdc' & -> & Hl & Hlook);
    [rewrite ?length_fmap, ?length_seq, ?length_replicate; lia..|].
  rewrite length_replicate in Hl. cbn [mbind result_bind].
  rewrite publish_fit_spec by lia. cbn [mbind result_bind app].
  do 2 f_equal. apply list_fmap_ext. intros j i Hji.
  apply lookup_seq in Hji as [-> Hi]. cbn [Nat.add]. f_equal.
  apply list_lookup_total_correct. rewrite Hlook.
  rewrite decide_True by lia. f_equal.
  rewrite lookup_total_fmap_seq by done. f_equal.
  subst bc. unfold gsl_blas_dgemv. apply list_lookup_total_correct.
  rewrite lookup_zip_with, list_lookup_fmap, lookup_seq_lt by done.
  cbn. by rewrite lookup_replicate_2 by done.
Qed.
End Fit.

Section BuiltFit.
Context {T : Type} `{DoubleOps T}.

Lemma RDC_new_fit (inp : Input T) o :
  RDC_new inp = Ok o -> svd o = true ->
  with_gsl o = true /\ length (coupl o) = ndata o /\ serial o = true.
Proof.
  intros (ats & _ & _ & _ & Hexp)%RDC_new_Ok Hsvd.
  unfold RDC_expected in Hexp.
  repeat case_match; try done; injection Hexp as <-; cbn in *;
    try done; split_and!; try done.
  - by destruct (HAS_GSL inp).
  - apply numbered_values_length.
Qed.
End BuiltFit.

Local Open Scope R_scope.

Section FitTheorem.
Variable pbcDistance : Vector R -> Vector R -> Vector R.
Variable solve : list (list R) -> list R -> list R.
Variable inp : Input R.
Variable o : RDC R.
Variable pos : list (Vector R).
Hypothesis run : fit_run inp o pos.

Local Abbreviation d := (bond_distance pbcDistance pos).

Lemma fit_row_R i : fit_row pbcDistance pos i = design_row (d i).
Proof.
  unfold fit_row, design_row.
  cbn [dlit dadd dsub dmul ddiv dneg R_ops].
  generalize (Vector_get (d i) 0 / modulo (d i))
             (Vector_get (d i) 1 / modulo (d i))
             (Vector_get (d i) 2 / modulo (d i)).
  intros mx my mz. rewrite Q2R_0.
  replace (Q2R 2.0) with 2 by (unfold Q2R; cbn; lra).
  repeat f_equal; lra.
Qed.

Lemma fit_dmax_R i :
  fit_dmax pbcDistance o pos i
    = spec_Dmax 0.3356806 (scale o !!! i) (mu_s o !!! i) (modulo (d i)).
Proof.
  unfold fit_dmax, spec_Dmax. rewrite (RDC_new_Const inp o) by apply run.
  cbn [dlit dadd dsub dmul ddiv dneg R_ops].
  generalize (modulo (d i)) (scale o !!! i) (mu_s o !!! i). intros r s g.
  replace (Q2R 1) with 1 by (unfold Q2R; cbn; lra).
  unfold Rdiv. replace (r ^ 3) with (r * r * r) by ring.
  generalize (/ (r * r * r)) (Q2R 0.3356806). intros ir K. ring.
Qed.

(** C4. In fit mode the kernel hands to the SVD solver the design matrix
    whose row [i] is [mu_x^2-mu_z^2, mu_y^2-mu_z^2, 2 mu_x mu_y,
    2 mu_x mu_z, 2 mu_y mu_z] and the right-hand side of entries
    [coupling[i]/D_max[i]]; from the solution [(Sxx,Syy,Sxy,Sxz,Syz)] it
    derives [Szz = -Sxx-Syy] and publishes, with no derivative,
    [rdc[i] = (design_matrix . solution)[i] * D_max[i]]. *)
Theorem fit_mode_kernel sxx syy sxy sxz syz :
  (forall i, (i < ndata o)%nat -> 0 < modulo (d i)) ->
  let Dmax i :=
    spec_Dmax 0.3356806 (scale o !!! i) (mu_s o !!! i) (modulo (d i)) in
  let A := (fun i => design_row (d i)) <$> seq 0 (ndata o) in
  let b := (fun i => coupl o !!! i / Dmax i) <$> seq 0 (ndata o) in
  let out :=
    (fun i => {| value := row_times (design_row (d i)) sxx syy sxy sxz syz
                          * Dmax i;
                 boxDerivatives := None; atomsDerivatives := [] |})
      <$> seq 0 (ndata o) in
  solve A b = [sxx; syy; sxy; sxz; syz] ->
  calculate_svd pbcDistance solve o pos
    = Ok (Some {| Sxx := sxx; Syy := syy; Szz := - sxx - syy;
                  Sxy := sxy; Sxz := sxz; Syz := syz |}, out) /\
  forall comm, calculate pbcDistance solve o pos comm = Ok out.
Proof.
  intros _ Dmax A b out Hsolve.
  destruct run as [Hnew Hsvd Hpos].
  destruct (RDC_new_fit inp o Hnew Hsvd) as (Hgsl & Hcoupl & _).
  pose proof (RDC_new_well_formed inp o pos Hnew Hpos) as wf.
  assert (HA : fit_row pbcDistance pos <$> seq 0 (ndata o) = A).
  { apply list_fmap_ext. intros ? ? _. apply fit_row_R. }
  assert (Hb : fit_target pbcDistance o pos <$> seq 0 (ndata o) = b).
  { apply list_fmap_ext. intros ? ? _. unfold fit_target.
    by rewrite fit_dmax_R. }
  assert (Hsvd_run : calculate_svd pbcDistance solve o pos
    = Ok (Some {| Sxx := sxx; Syy := syy; Szz := - sxx - syy;
                  Sxy := sxy; Sxz := sxz; Syz := syz |}, out)).
  { rewrite (calculate_svd_spec pbcDistance solve o pos wf Hcoupl
               sxx syy sxy sxz syz Hgsl) by (by rewrite HA, Hb).
    do 2 f_equal. apply list_fmap_ext. intros ? i _. f_equal.
    rewrite fit_row_R, fit_dmax_R. fold (Dmax i). f_equal.
    unfold design_row, row_times, dot.
    cbn [zip zip_with foldr fst snd dlit dadd dsub dmul ddiv dneg R_ops].
    rewrite Q2R_0. replace (Q2R 1.0) with 1 by (unfold Q2R; cbn; lra).
    lra. }
  split; [done|]. intros comm. unfold calculate. by rewrite Hsvd, Hsvd_run.
Qed.
End FitTheorem.


Lemma ex_fit_run : fit_run ex_fit_input ex_fit_object ex_along_z.
Proof. split; reflexivity. Defined.

Lemma ex_fit_lengths i :
  (i < ndata ex_fit_object)%nat -> 0 < modulo (bond_distance delta ex_along_z i).
Proof.
  intros Hi. assert (i = 0%nat) as -> by (cbn in Hi; lia).
  exact ex_length_z.
Qed.

Lemma fit_mode_kernel_witness :
  let d := bond_distance delta ex_along_z in
  let Dmax i := spec_Dmax 0.3356806 (scale ex_fit_object !!! i)
                  (mu_s ex_fit_object !!! i) (modulo (d i)) in
  let out := [{| value := row_times (design_row (d 0%nat)) 1 0 0 0 0 * Dmax 0%nat;
                 boxDerivatives := None; atomsDerivatives := [] |}] in
  calculate_svd delta ex_fit_solve ex_fit_object ex_along_z
    = Ok (Some {| Sxx := 1; Syy := 0; Szz := - 1 - 0;
                  Sxy := 0; Sxz := 0; Syz := 0 |}, out) /\
  forall comm,
    calculate delta ex_fit_solve ex_fit_object ex_along_z comm = Ok out.
Proof.
  apply (fit_mode_kernel delta ex_fit_solve ex_fit_input ex_fit_object
           ex_along_z ex_fit_run 1 0 0 0 0 ex_fit_lengths).
  reflexivity.
Defined.

Close Scope R_scope.

(** ** The constructor: claims *)


Section ConstructorTheorems.
Context {T : Type} `{DoubleOps T}.
Local Open Scope string_scope.
Variable inp : Input T.
Variable ats : list AtomNumber.
Hypothesis Hats : read_atoms 1 (ATOMS inp) [] = Ok ats.
Hypothesis Hbonds : 1 <= count_bonds (ATOMS inp).

Local Abbreviation n := (count_bonds (ATOMS inp)).

Lemma atoms_div : length ats / 2 = n.
Proof.
  pose proof (read_atoms_spec (ATOMS inp) 1 []) as Hlen.
  rewrite Hats in Hlen. cbn [length Nat.add] in Hlen.
  rewrite Hlen, Nat.mul_comm. apply Nat.div_mul. lia.
Qed.

(** C5, amended. With the SVD flag, construction fails when GSL is
    missing or when the numbered COUPLING values do not number the
    bonds; the number of bonds is not compared with 5, and a fit-mode
    configuration of any positive number of bonds whose parameters are
    complete is accepted. *)
Theorem fit_mode_construction :
  FLAG inp "SVD" = true ->
  shape_ok inp "GYROM" n -> shape_ok inp "SCALE" n ->
  (HAS_GSL inp = false ->
   RDC_new inp
     = Error GSL_missing) /\
  (HAS_GSL inp = true -> count_numbered inp "COUPLING" n 0 ≠ n ->
   RDC_new inp = Error "found wrong number of COUPLING values") /\
  (HAS_GSL inp = true -> count_numbered inp "COUPLING" n 0 = n ->
   CHECKREAD inp = true ->
   exists o, RDC_new inp = Ok o /\ svd o = true /\ ndata o = n).
Proof.
  intros Hsvd Hg Hs. rewrite (RDC_new_spec inp ats) by done.
  unfold RDC_expected. rewrite atoms_div, Hsvd.
  rewrite !decide_False by (intros Hno; by apply Hno).
  split_and!.
  - by intros ->.
  - intros -> Hc. cbn [andb negb]. by rewrite bool_decide_eq_false_2.
  - intros -> Hc ->. cbn [andb negb]. rewrite bool_decide_eq_true_2 by done.
    cbn [negb]. eexists. split; [reflexivity|done].
Qed.

(** C7, amended. For GYROM and for SCALE the constructor accepts two
    shapes, no leading numbered value (the shared value, or the default,
    is given to every bond) or one numbered value for every bond; for
    COUPLING, in fit mode, it accepts only one numbered value for every
    bond.  Any other number of leading numbered values is an error whose
    message names the group. *)
Theorem parameter_groups :
  (¬ shape_ok inp "GYROM" n ->
   RDC_new inp = Error "found wrong number of GYROM values") /\
  (shape_ok inp "GYROM" n -> ¬ shape_ok inp "SCALE" n ->
   RDC_new inp = Error "found wrong number of SCALE values") /\
  (shape_ok inp "GYROM" n -> shape_ok inp "SCALE" n ->
   FLAG inp "SVD" = true -> HAS_GSL inp = true ->
   count_numbered inp "COUPLING" n 0 ≠ n ->
   RDC_new inp = Error "found wrong number of COUPLING values") /\
  (shape_ok inp "GYROM" n -> shape_ok inp "SCALE" n ->
   (FLAG inp "SVD" = true ->
    HAS_GSL inp = true /\ count_numbered inp "COUPLING" n 0 = n) ->
   CHECKREAD inp = true ->
   exists o, RDC_new inp = Ok o) /\
  (forall o, RDC_new inp = Ok o ->
     shape_ok inp "GYROM" n /\ shape_ok inp "SCALE" n /\
     mu_s o = group_values inp "GYROM" (dlit 0) n /\
     scale o = group_values inp "SCALE" (dlit 1) n /\
     (svd o = true ->
      count_numbered inp "COUPLING" n 0 = n /\
      coupl o = numbered_values inp "COUPLING" n)).
Proof.
  rewrite (RDC_new_spec inp ats) by done.
  unfold RDC_expected. rewrite atoms_div. split_and!.
  - intros Hg. by rewrite decide_True.
  - intros Hg Hs. rewrite decide_False by (intros Hno; by apply Hno).
    by rewrite decide_True.
  - intros Hg Hs -> -> Hc.
    rewrite !decide_False by (intros Hno; by apply Hno).
    cbn [andb negb]. by rewrite bool_decide_eq_false_2.
  - intros Hg Hs Hfit ->.
    rewrite !decide_False by (intros Hno; by apply Hno).
    destruct (FLAG inp "SVD"); cbn [andb negb]; [|by eexists].
    destruct Hfit as [-> Hc]; [done|]. cbn [negb].
    rewrite bool_decide_eq_true_2 by done. by eexists.
  - intros o Ho.
    destruct (decide (¬ shape_ok inp "GYROM" n)) as [|Hg]; [done|].
    destruct (decide (¬ shape_ok inp "SCALE" n)) as [|Hs]; [done|].
    apply dec_stable in Hg. apply dec_stable in Hs.
    repeat case_match; try done; injection Ho as <-; cbn;
      split_and!; try done.
    intros _. split; [|done].
    match goal with Hb : _ && _ = false |- _ =>
      cbn in Hb; apply negb_false_iff, bool_decide_eq_true in Hb end.
    done.
Qed.
End ConstructorTheorems.

(** C10. With no ATOMS keyword the constructor reports no error: it reads
    element 0 of the empty vector of gyromagnetic constants; with at least
    one bond every access it makes is within bounds. *)
Theorem no_bond_out_of_bounds {T : Type} `{DoubleOps T} (inp : Input T) :
  RDC_new inp = OutOfBounds <-> count_bonds (ATOMS inp) = 0.
Proof.
  split.
  - intros Hoob.
    destruct (decide (count_bonds (ATOMS inp) = 0)) as [|Hn]; [done|].
    exfalso. pose proof (read_atoms_spec (ATOMS inp) 1 []) as Hlen.
    destruct (read_atoms 1 (ATOMS inp) []) as [ats| | |] eqn:Hats; try done.
    + rewrite (RDC_new_spec inp ats) in Hoob by (done || lia).
      by apply RDC_expected_not_OutOfBounds in Hoob.
    + unfold RDC_new in Hoob. by rewrite Hats in Hoob.
  - apply RDC_new_no_bond.
Qed.

(** Concrete configurations, in binary64. *)

Section FloatConfigurations.
Import PrimFloat.
Local Open Scope string_scope.

(** C5 as stated fails: a fit-mode configuration of one bond is accepted. *)
Lemma fit_mode_one_bond_accepted :
FLAG fl_fit_small "SVD" = true /\
count_bonds (ATOMS fl_fit_small) = 1 /\
RDC_new fl_fit_small
  = Ok {| Const := 0.3356806%float; ndata := 1; mu_s := [(-72.5388)%float];
          scale := [1%float]; coupl := [8.17%float]; serial := true;
          svd := true; with_gsl := true; atoms := [20; 21];
          components := 1 |}.
Proof. split_and!; vm_compute; reflexivity. Qed.

Lemma fit_mode_construction_witness :
(HAS_GSL fl_fit_small = false ->
 RDC_new fl_fit_small
   = Error GSL_missing) /\
(HAS_GSL fl_fit_small = true ->
 count_numbered fl_fit_small "COUPLING" 1 0 ≠ 1 ->
 RDC_new fl_fit_small = Error "found wrong number of COUPLING values") /\
(HAS_GSL fl_fit_small = true ->
 count_numbered fl_fit_small "COUPLING" 1 0 = 1 ->
 CHECKREAD fl_fit_small = true ->
 exists o, RDC_new fl_fit_small = Ok o /\ svd o = true /\ ndata o = 1).
Proof.
apply (fit_mode_construction fl_fit_small [20; 21]).
- reflexivity.
- vm_compute; lia.
- reflexivity.
- left; reflexivity.
- left; reflexivity.
Defined.

(** C7 as stated fails: in fit mode one shared COUPLING value is refused. *)
Lemma shared_coupling_refused :
FLAG fl_shared_coupling "SVD" = true /\
PLAIN fl_shared_coupling "COUPLING" = Some 8.17%float /\
RDC_new fl_shared_coupling = Error "found wrong number of COUPLING values".
Proof. split_and!; vm_compute; reflexivity. Qed.

Lemma parameter_groups_witness :
let n := 1 in
(¬ shape_ok fl_fit_small "GYROM" n ->
 RDC_new fl_fit_small = Error "found wrong number of GYROM values") /\
(shape_ok fl_fit_small "GYROM" n -> ¬ shape_ok fl_fit_small "SCALE" n ->
 RDC_new fl_fit_small = Error "found wrong number of SCALE values") /\
(shape_ok fl_fit_small "GYROM" n -> shape_ok fl_fit_small "SCALE" n ->
 FLAG fl_fit_small "SVD" = true -> HAS_GSL fl_fit_small = true ->
 count_numbered fl_fit_small "COUPLING" n 0 ≠ n ->
 RDC_new fl_fit_small = Error "found wrong number of COUPLING values") /\
(shape_ok fl_fit_small "GYROM" n -> shape_ok fl_fit_small "SCALE" n ->
 (FLAG fl_fit_small "SVD" = true ->
  HAS_GSL fl_fit_small = true /\
  count_numbered fl_fit_small "COUPLING" n 0 = n) ->
 CHECKREAD fl_fit_small = true ->
 exists o, RDC_new fl_fit_small = Ok o) /\
(forall o, RDC_new fl_fit_small = Ok o ->
   shape_ok fl_fit_small "GYROM" n /\ shape_ok fl_fit_small "SCALE" n /\
   mu_s o = group_values fl_fit_small "GYROM" (dlit 0) n /\
   scale o = group_values fl_fit_small "SCALE" (dlit 1) n /\
   (svd o = true ->
    count_numbered fl_fit_small "COUPLING" n 0 = n /\
    coupl o = numbered_values fl_fit_small "COUPLING" n)).
Proof.
apply (parameter_groups fl_fit_small [20; 21]).
- reflexivity.
- vm_compute; lia.
Defined.
End FloatConfigurations.

(** ** Runs in binary64, and divisions by zero *)


Section FloatRuns.
Import PrimFloat.

(** C3 fails on the code. With two ranks each rank publishes the scalar
    of the bonds it owns and zero for the others: the scalars are neither
    summed nor gathered.  With one rank both scalars are published. *)
Theorem parallel_rdc_not_gathered :
  RDC_new fl_two_bonds = Ok fl_two_object /\
  value <$> published (fl_run 1 0) 0 = Some 21.646943903689682%float /\
  value <$> published (fl_run 1 0) 1 = Some (-12.174933953639998)%float /\
  value <$> published (fl_run 2 0) 0 = Some 21.646943903689682%float /\
  value <$> published (fl_run 2 0) 1 = Some 0%float /\
  value <$> published (fl_run 2 1) 0 = Some 0%float /\
  value <$> published (fl_run 2 1) 1 = Some (-12.174933953639998)%float.
Proof. split_and!; vm_compute; reflexivity. Qed.

(** C6 as stated fails, in both its readings.  For a bond of length zero
    the evaluation raises no error and publishes NaN.  And a positive
    length does not keep the evaluation from dividing by zero: for a bond
    of length 1e-200 the squares underflow, the length computed is zero,
    and NaN is published as well. *)
Lemma zero_length_publishes_nan :
  is_Error fl_zero_length = false /\
  published fl_zero_length 0
    = Some {| value := nan;
              boxDerivatives :=
                Some (mkTensor (mkVector nan nan nan) (mkVector nan nan nan)
                        (mkVector nan nan nan));
              atomsDerivatives := [(0, mkVector nan nan nan);
                                   (1, mkVector nan nan nan)] |} /\
  delta (mkVector 0 0 0)%float (mkVector 1e-200 0 0)%float
    = mkVector 1e-200%float 0%float 0%float /\
  is_zero 1e-200%float = false /\
  ltb 0%float 1e-200%float = true /\
  modulo (mkVector 1e-200%float 0%float 0%float) = 0%float /\
  is_Error fl_tiny_length = false /\
  published fl_tiny_length 0
    = Some {| value := nan;
              boxDerivatives :=
                Some (mkTensor (mkVector nan nan nan) (mkVector nan nan nan)
                        (mkVector nan nan nan));
              atomsDerivatives := [(0, mkVector nan nan nan);
                                   (1, mkVector nan nan nan)] |}.
Proof. split_and!; vm_compute; reflexivity. Qed.
End FloatRuns.

Lemma foldl_preserves {A} (P : A -> Prop) (add : A -> A -> A) (l : list A) :
  (forall a b, P a -> P b -> P (add a b)) ->
  forall acc, P acc -> Forall P l -> P (foldl add acc l).
Proof.
  intros Hadd. induction l as [|x l IH]; intros acc Hacc Hl; [done|].
  inversion_clear Hl. cbn. apply IH; auto.
Qed.

Section LocalValue.
Context {T : Type} `{DoubleOps T}.
Variable pbcDistance : Vector T -> Vector T -> Vector T.
Variable o : RDC T.
Variable pos : list (Vector T).
Variable comm : Communicator.

(** The scalars are not reduced: a rank publishes its own. *)
Lemma reduced_rdc_local i :
  (i < ndata o)%nat ->
  rdc (reduced_buffers pbcDistance o pos comm) !!! i
    = if decide (owned (bond_stride o comm) (bond_rank o comm) i)
      then bond_rdc pbcDistance o pos i else dlit 0.
Proof.
  intros Hi.
  assert (rdc (reduced_buffers pbcDistance o pos comm)
          = rdc (local_buffers pbcDistance o pos comm)) as ->.
  { unfold reduced_buffers. by destruct (serial o). }
  unfold local_buffers. cbn [rdc]. by rewrite lookup_total_fmap_seq.
Qed.
End LocalValue.

(** ** The direct mode, with the divisions by zero recorded *)

Section GuardedKernel.
Context {T : Type} `{DoubleOps T}.
Variable is_zero : T -> bool.
Local Instance guarded : DoubleOps (option T) := guarded_ops is_zero.

Lemma guarded_kernel_rdc K s g (d : Vector T) :
  kernel_rdc (Some K) (Some s) (Some g) (guarded_vector d)
    = if is_zero (modulo d) then None else Some (kernel_rdc K s g d).
Proof.
  destruct d as [x y z]. unfold kernel_rdc, modulo, guarded_vector.
  cbn [dlit dadd dsub dmul ddiv dneg dsqrt guarded guarded_ops Vector_get
       guarded_lift2 option_map guarded_div].
  by destruct (is_zero _).
Qed.

Lemma guarded_kernel_grad K s g (d : Vector T) :
  kernel_grad (Some K) (Some s) (Some g) (guarded_vector d)
    = if is_zero (modulo d) then mkVector None None None
      else guarded_vector (kernel_grad K s g d).
Proof.
  destruct d as [x y z]. unfold kernel_grad, modulo, guarded_vector.
  cbn [dlit dadd dsub dmul ddiv dneg dsqrt guarded guarded_ops Vector_get
       guarded_lift2 option_map guarded_div].
  by destruct (is_zero _).
Qed.

Lemma guarded_defined_vector_add v w :
  guarded_defined_vector v -> guarded_defined_vector w ->
  guarded_defined_vector (Vector_add v w).
Proof.
  destruct v as [a b c], w as [a' b' c'].
  intros ([? ->] & [? ->] & [? ->]) ([? ->] & [? ->] & [? ->]). cbn. eauto.
Qed.

Lemma guarded_defined_vector_neg v :
  guarded_defined_vector v -> guarded_defined_vector (Vector_neg v).
Proof. destruct v as [a b c]. intros ([? ->] & [? ->] & [? ->]). cbn. eauto. Qed.

Lemma guarded_defined_vector_zero : guarded_defined_vector Vector_zero.
Proof. cbn. eauto. Qed.

Lemma guarded_defined_vector_guarded (v : Vector T) :
  guarded_defined_vector (guarded_vector v).
Proof. destruct v. cbn. eauto. Qed.

Lemma guarded_defined_tensor_add t u :
  guarded_defined_tensor t -> guarded_defined_tensor u ->
  guarded_defined_tensor (Tensor_add t u).
Proof.
  destruct t, u. intros (? & ? & ?) (? & ? & ?).
  cbn [Tensor_add guarded_defined_tensor].
  auto using guarded_defined_vector_add.
Qed.

Lemma guarded_defined_tensor_zero : guarded_defined_tensor Tensor_zero.
Proof. cbn. eauto 10. Qed.

Lemma guarded_defined_tensor_outer v w :
  guarded_defined_vector v -> guarded_defined_vector w ->
  guarded_defined_tensor (Tensor_outer v w).
Proof.
  destruct v as [a b c], w as [a' b' c'].
  intros ([? ->] & [? ->] & [? ->]) ([? ->] & [? ->] & [? ->]). cbn. eauto 10.
Qed.

Variable pbcDistance : Vector (option T) -> Vector (option T) -> Vector (option T).
Variable solve : list (list (option T)) -> list (option T) -> list (option T).
Variable inp : Input (option T).
Variable o : RDC (option T).
Variable pos : list (Vector (option T)).
Variable comm : Communicator.
Variable D : nat -> Vector T.
Hypothesis run : direct_run inp o pos comm.
Hypothesis Hin : guarded_inputs o (bond_distance pbcDistance pos) D.

Local Abbreviation n := (ndata o).

Lemma guarded_stride_ok : (1 <= bond_stride o comm)%nat.
Proof.
  destruct run as [_ _ _ Hrank]. unfold bond_stride.
  destruct Hrank as [->| ?]; [done|]. destruct (serial o); lia.
Qed.

Lemma guarded_calculate :
  calculate pbcDistance solve o pos comm
    = Ok (component_of (reduced_buffers pbcDistance o pos comm) <$> seq 0 n).
Proof.
  pose proof (direct_run_well_formed _ _ _ _ run) as wf.
  unfold calculate. rewrite (run_direct _ _ _ _ run).
  apply calculate_direct_spec; [done|apply guarded_stride_ok].
Qed.

Lemma guarded_bond_rdc i :
  (i < n)%nat ->
  is_Some (bond_rdc pbcDistance o pos i) <-> is_zero (modulo (D i)) = false.
Proof.
  intros Hi. unfold bond_rdc.
  rewrite (guarded_distance _ _ _ Hin) by done.
  rewrite (RDC_new_Const inp o) by apply run.
  destruct (guarded_scale _ _ _ Hin i Hi) as [s ->%total_of_lookup].
  destruct (guarded_mu_s _ _ _ Hin i Hi) as [g ->%total_of_lookup].
  change (@dlit (option T) _ 0.3356806%Q) with (Some (@dlit T _ 0.3356806%Q)).
  rewrite guarded_kernel_rdc. destruct (is_zero _).
  - split; [by intros [? ?]|done].
  - split; [done|eauto].
Qed.

Lemma guarded_bond_grad i :
  (i < n)%nat -> is_zero (modulo (D i)) = false ->
  guarded_defined_vector (bond_grad pbcDistance o pos i).
Proof.
  intros Hi Hr. unfold bond_grad.
  rewrite (guarded_distance _ _ _ Hin) by done.
  rewrite (RDC_new_Const inp o) by apply run.
  destruct (guarded_scale _ _ _ Hin i Hi) as [s ->%total_of_lookup].
  destruct (guarded_mu_s _ _ _ Hin i Hi) as [g ->%total_of_lookup].
  change (@dlit (option T) _ 0.3356806%Q) with (Some (@dlit T _ 0.3356806%Q)).
  rewrite guarded_kernel_grad, Hr. apply guarded_defined_vector_guarded.
Qed.

Lemma guarded_local_dRDC c a :
  (a < 2 * n)%nat -> is_zero (modulo (D (a / 2))) = false ->
  guarded_defined_vector (dRDC (local_buffers pbcDistance o pos c) !!! a).
Proof.
  intros Ha Hr. unfold local_buffers. cbn [dRDC].
  rewrite lookup_total_fmap_seq by done.
  case_decide; [|apply guarded_defined_vector_zero].
  assert (Hi : (a / 2 < n)%nat) by (apply Nat.Div0.div_lt_upper_bound; lia).
  unfold atom_grad. destruct (Nat.even a).
  - by apply guarded_bond_grad.
  - by apply guarded_defined_vector_neg, guarded_bond_grad.
Qed.

Lemma guarded_local_dervir c i :
  (i < n)%nat -> is_zero (modulo (D i)) = false ->
  guarded_defined_tensor (dervir (local_buffers pbcDistance o pos c) !!! i).
Proof.
  intros Hi Hr. unfold local_buffers. cbn [dervir].
  rewrite lookup_total_fmap_seq by done.
  case_decide; [|apply guarded_defined_tensor_zero].
  unfold bond_virial.
  apply guarded_defined_tensor_add; [apply guarded_defined_tensor_zero|].
  apply guarded_defined_tensor_outer.
  - rewrite (guarded_distance _ _ _ Hin) by done.
    apply guarded_defined_vector_guarded.
  - by apply guarded_bond_grad.
Qed.

Lemma guarded_reduced_dRDC a :
  (a < 2 * n)%nat -> is_zero (modulo (D (a / 2))) = false ->
  guarded_defined_vector (dRDC (reduced_buffers pbcDistance o pos comm) !!! a).
Proof.
  intros Ha Hr. pose proof guarded_stride_ok as Hs.
  unfold reduced_buffers. destruct (serial o) eqn:Hser.
  { by apply guarded_local_dRDC. }
  cbn [dRDC]. rewrite <- list_fmap_compose.
  unfold bond_stride in Hs. rewrite Hser in Hs.
  destruct (comm_Sum_spec Vector_add
              (dRDC ∘ (fun w => local_buffers pbcDistance o pos
                         {| Get_size := Get_size comm; Get_rank := w |}))
              (2 * n)%nat) with (W := Get_size comm) as [_ Hl]; [|done|].
  { intros w. apply local_buffers_sized. }
  rewrite Hl by done.
  apply (foldl_preserves guarded_defined_vector).
  - apply guarded_defined_vector_add.
  - by apply guarded_local_dRDC.
  - apply Forall_fmap, Forall_forall. intros w _.
    by apply guarded_local_dRDC.
Qed.

Lemma guarded_reduced_dervir i :
  (i < n)%nat -> is_zero (modulo (D i)) = false ->
  guarded_defined_tensor (dervir (reduced_buffers pbcDistance o pos comm) !!! i).
Proof.
  intros Hi Hr. pose proof guarded_stride_ok as Hs.
  unfold reduced_buffers. destruct (serial o) eqn:Hser.
  { by apply guarded_local_dervir. }
  cbn [dervir]. rewrite <- list_fmap_compose.
  unfold bond_stride in Hs. rewrite Hser in Hs.
  destruct (comm_Sum_spec Tensor_add
              (dervir ∘ (fun w => local_buffers pbcDistance o pos
                           {| Get_size := Get_size comm; Get_rank := w |}))
              n) with (W := Get_size comm) as [_ Hl]; [|done|].
  { intros w. apply local_buffers_sized. }
  rewrite Hl by done.
  apply (foldl_preserves guarded_defined_tensor).
  - apply guarded_defined_tensor_add.
  - by apply guarded_local_dervir.
  - apply Forall_fmap, Forall_forall. intros w _.
    by apply guarded_local_dervir.
Qed.

(** C6, amended. The direct mode raises no error, whatever the lengths of
    the bonds, in any arithmetic.  Its one division is [1/|d|], by the
    length computed for the bond: on the rank that owns a bond whose
    computed length is zero this is a division by zero, and its outcome
    is published; for a bond whose computed length is not zero no
    division by zero is made on any rank, and every number published for
    it, scalar, gradients and virial, is the outcome of defined
    operations.  In exact arithmetic the computed length is zero for the
    zero displacement only. *)
Theorem zero_length_not_checked :
  is_Error (calculate pbcDistance solve o pos comm) = false /\
  (forall i, (i < ndata o)%nat ->
     owned (bond_stride o comm) (bond_rank o comm) i ->
     is_zero (modulo (D i)) = true ->
     value <$> published (calculate pbcDistance solve o pos comm) i
       = Some None) /\
  (forall i, (i < ndata o)%nat ->
     is_zero (modulo (D i)) = false ->
     exists c, published (calculate pbcDistance solve o pos comm) i = Some c /\
               guarded_defined_component c) /\
  (forall x y z : R,
     modulo (mkVector x y z) = 0%R <-> x = 0%R /\ y = 0%R /\ z = 0%R).
Proof.
  rewrite guarded_calculate. split_and!.
  - done.
  - intros i Hi Hown Hr. cbn [published].
    rewrite list_lookup_fmap, lookup_seq_lt by done.
    cbn [fmap option_fmap option_map Nat.add component_of value]. f_equal.
    rewrite reduced_rdc_local, decide_True by done.
    destruct (bond_rdc pbcDistance o pos i) as [v|] eqn:Hv; [|done].
    exfalso. assert (Hsome : is_Some (bond_rdc pbcDistance o pos i))
      by (by rewrite Hv).
    apply (guarded_bond_rdc i Hi) in Hsome. congruence.
  - intros i Hi Hr. eexists. cbn [published].
    rewrite list_lookup_fmap, lookup_seq_lt by done.
    cbn [fmap option_fmap option_map Nat.add]. split; [reflexivity|].
    assert (H0 : (2 * i / 2 = i)%nat)
      by (rewrite Nat.mul_comm, Nat.div_mul; lia).
    assert (H1 : ((2 * i + 1) / 2 = i)%nat)
      by (symmetry; apply (Nat.div_unique _ 2 i 1); lia).
    unfold component_of, guarded_defined_component.
    cbn [value boxDerivatives atomsDerivatives]. split_and!.
    + rewrite reduced_rdc_local by done. case_decide; [|by eexists].
      by apply guarded_bond_rdc.
    + intros t [= <-]. by apply guarded_reduced_dervir.
    + repeat constructor; cbn [snd]; apply guarded_reduced_dRDC;
        rewrite ?H0, ?H1; (done || lia).
  - intros x y z. unfold modulo. cbn [dadd dmul dsqrt R_ops].
    pose proof (Rle_0_sqr x) as Hx. pose proof (Rle_0_sqr y) as Hy.
    pose proof (Rle_0_sqr z) as Hz. unfold Rsqr in *. split.
    + intros Hs. apply sqrt_eq_0 in Hs; [|lra].
      assert (x * x = 0 /\ y * y = 0 /\ z * z = 0)%R as (Hx0 & Hy0 & Hz0)
        by (split_and!; lra).
      split_and!; by apply Rsqr_0_uniq.
    + intros (-> & -> & ->).
      replace (0 * 0 + 0 * 0 + 0 * 0)%R with 0%R by lra. apply sqrt_0.
Qed.
End GuardedKernel.

(** Witness: two bonds in binary64, one of length 1.04 and one of length
    1e-200, on the rank that owns the second. *)
Section GuardedFloat.
Import PrimFloat.
Local Existing Instance gf_ops.

Lemma gf_run : direct_run gf_input gf_object gf_positions gf_comm.
Proof.
  split; [vm_compute; reflexivity|reflexivity|reflexivity|right; cbn; lia].
Defined.

Lemma gf_inputs :
  guarded_inputs gf_object (bond_distance delta gf_positions) gf_distance.
Proof.
  split; intros i Hi;
    (destruct i as [|[|i]]; [| |cbn in Hi; lia]); try (by eexists);
    vm_compute; reflexivity.
Defined.

Lemma zero_length_not_checked_witness :
  let res := calculate delta gf_solve gf_object gf_positions gf_comm in
  is_zero (modulo (gf_distance 0)) = false /\
  gf_distance 1 = mkVector 1e-200%float 0%float 0%float /\
  is_zero (modulo (gf_distance 1)) = true /\
  is_Error res = false /\
  value <$> published res 1 = Some None /\
  (exists c, published res 0 = Some c /\ guarded_defined_component c) /\
  (forall x y z : R,
     modulo (mkVector x y z) = 0%R <-> x = 0%R /\ y = 0%R /\ z = 0%R).
Proof.
  destruct (zero_length_not_checked PrimFloat.is_zero delta gf_solve gf_input
              gf_object gf_positions gf_comm gf_distance gf_run gf_inputs)
    as (Herr & Hzero & Hdef & Hexact).
  split_and!.
  - vm_compute; reflexivity.
  - vm_compute; reflexivity.
  - vm_compute; reflexivity.
  - exact Herr.
  - apply Hzero; [cbn; lia|split; [cbn; lia|reflexivity]|vm_compute; reflexivity].
  - apply Hdef; [cbn; lia|vm_compute; reflexivity].
  - exact Hexact.
Defined.
End GuardedFloat.

(** ** The constructor: the atoms, the object built, the components *)

(** Membership in a list written out. *)
Ltac in_list :=
  repeat first [apply list_elem_of_here | apply list_elem_of_further].

Section AtomsFacts.
Local Open Scope string_scope.

Lemma read_atoms_wrong kw : forall k acc i t,
  kw !! i = Some t -> length t ≠ 0 -> length t ≠ 2 ->
  (forall j u, j < i -> kw !! j = Some u -> length u = 2) ->
  read_atoms k kw acc
    = Error ("ATOMS" ++ convert (k + i) ++ " keyword has the wrong number of atoms").
Proof.
  induction kw as [|u kw IH]; intros k acc i t Hi H0 H2 Hbefore; [done|].
  destruct i as [|i]; cbn [read_atoms].
  - injection Hi as ->. rewrite decide_False, decide_True by done.
    by rewrite Nat.add_0_r.
  - pose proof (Hbefore 0 u ltac:(lia) eq_refl) as Hu.
    rewrite decide_False by lia. rewrite decide_False by (intros Hno; by apply Hno).
    destruct u as [|u0 [|u1 [|? ?]]]; cbn in Hu; try lia.
    cbn [vector_at lookup list_lookup mbind result_bind].
    rewrite (IH (S k) _ i t); [by rewrite Nat.add_succ_comm|done..|].
    intros j v Hj Hv. apply (Hbefore (S j) v); [lia|done].
Qed.

Lemma read_atoms_Ok kw : forall k acc ats,
  read_atoms k kw acc = Ok ats ->
  ats = (acc ++ concat (take (count_bonds kw) kw))%list /\
  forall i, i < count_bonds kw ->
    exists a b, kw !! i = Some [a; b] /\
      ats !! (length acc + 2 * i) = Some a /\
      ats !! (length acc + 2 * i + 1) = Some b.
Proof.
  induction kw as [|t kw IH]; intros k acc ats; cbn [read_atoms count_bonds].
  - intros [= <-]. rewrite app_nil_r. split; [done|]. intros i Hi; lia.
  - destruct (decide (length t = 0)) as [Ht|Ht].
    { intros [= <-]. rewrite app_nil_r. split; [done|]. intros i Hi; lia. }
    destruct (decide (length t ≠ 2)) as [Ht2|Ht2]; [done|].
    apply dec_stable in Ht2.
    destruct t as [|t0 [|t1 [|? ?]]]; cbn in Ht2; try lia.
    cbn [vector_at lookup list_lookup mbind result_bind].
    intros [-> Hlook]%IH. cbn [take concat]. split.
    + by rewrite <- app_assoc.
    + intros [|i] Hi.
      * exists t0, t1. split; [done|]. rewrite <- !app_assoc. cbn [app]. split.
        -- apply list_lookup_middle. lia.
        -- change (acc ++ t0 :: t1 :: concat (take (count_bonds kw) kw))%list
             with (acc ++ [t0] ++ t1 :: concat (take (count_bonds kw) kw))%list.
           rewrite app_assoc. apply list_lookup_middle.
           rewrite length_app. cbn. lia.
      * destruct (Hlook i) as (a & b & Hab & Ha & Hb); [lia|].
        exists a, b. split; [done|].
        rewrite length_app in Ha, Hb. cbn [length] in Ha, Hb. split.
        -- rewrite <- Ha. f_equal. lia.
        -- rewrite <- Hb. f_equal. lia.
Qed.
End AtomsFacts.

Lemma convert_inj i j : convert i = convert j -> i = j.
Proof.
  unfold convert. intros Heq.
  assert (Hu : Some (Nat.to_uint i) = Some (Nat.to_uint j)).
  { by rewrite <- !DecimalString.NilEmpty.usu, Heq. }
  injection Hu as Hu.
  by rewrite <- (DecimalNat.Unsigned.of_to i), <- (DecimalNat.Unsigned.of_to j), Hu.
Qed.

Section ComponentFacts.
Local Open Scope string_scope.

Lemma add_components_names svd todo : forall i calls,
  added_names (add_components todo i svd calls)
    = (added_names calls
       ++ ((fun j => ("rdc_" ++ convert j)%string) <$> seq i todo))%list.
Proof.
  induction todo as [|todo IH]; intros i calls; cbn [add_components seq fmap list_fmap].
  - by rewrite app_nil_r.
  - rewrite IH. unfold added_names.
    destruct svd; cbn [negb]; rewrite omap_app; cbn; by rewrite <- app_assoc.
Qed.

Lemma add_components_calls svd todo : forall i calls c,
  c ∈ add_components todo i svd calls <->
  c ∈ calls \/
  exists j, i <= j < i + todo /\
    (c = componentIsNotPeriodic ("rdc_" ++ convert j) \/
     c = if svd then addComponent ("rdc_" ++ convert j)
         else addComponentWithDerivatives ("rdc_" ++ convert j)).
Proof.
  induction todo as [|todo IH]; intros i calls c; cbn [add_components].
  - split; [by left|]. intros [?|(j & ? & _)]; [done|lia].
  - rewrite IH. split.
    + intros [Hc|(j & Hj & Hc)].
      * destruct svd; cbn [negb] in Hc;
          apply elem_of_app in Hc as [Hc|Hc]; [by left| |by left|];
          right; exists i; (split; [lia|]);
          apply elem_of_cons in Hc as [->|Hc]; [by right| |by right|];
          apply list_elem_of_singleton in Hc as ->; by left.
      * right. exists j. split; [lia|done].
    + intros [Hc|(j & Hj & Hc)].
      * left. destruct svd; cbn [negb]; apply elem_of_app; by left.
      * destruct (decide (j = i)) as [->|Hji].
        -- left. destruct svd; cbn [negb]; apply elem_of_app; right;
             destruct Hc as [->| ->]; in_list.
        -- right. exists j. split; [lia|done].
Qed.
End ComponentFacts.

Section ConstructorExtras.
Context {T : Type} `{DoubleOps T}.
Local Open Scope string_scope.

Lemma RDC_expected_Ok (inp : Input T) ats o :
  RDC_expected inp ats = Ok o ->
  let n := length ats / 2 in
  o = {| Const := dlit 0.3356806; ndata := n;
         mu_s := group_values inp "GYROM" (dlit 0) n;
         scale := group_values inp "SCALE" (dlit 1) n;
         coupl := if FLAG inp "SVD" then numbered_values inp "COUPLING" n
                  else [];
         serial := if FLAG inp "SVD" then true else FLAG inp "SERIAL";
         svd := FLAG inp "SVD"; with_gsl := HAS_GSL inp;
         atoms := ats; components := n |} /\
  CHECKREAD inp = true /\
  (FLAG inp "SVD" = true -> HAS_GSL inp = true).
Proof.
  unfold RDC_expected. intros Hexp. cbv zeta.
  destruct (decide (¬ shape_ok inp "GYROM" _)); [done|].
  destruct (decide (¬ shape_ok inp "SCALE" _)); [done|].
  destruct (FLAG inp "SVD") eqn:Hsvd, (HAS_GSL inp) eqn:Hgsl,
    (CHECKREAD inp) eqn:Hc; cbn [andb negb] in Hexp; try done;
    try (destruct (bool_decide _); cbn [negb] in Hexp; try done);
    by injection Hexp as <-.
Qed.

(** X1. An ATOMS keyword that lists a number of atoms other than two,
    every ATOMS keyword before it listing two, is a fatal error of the
    constructor, whatever the rest of the line: the message names the
    keyword, numbered from 1. *)
Theorem atoms_keyword_wrong_size (inp : Input T) i t :
  ATOMS inp !! i = Some t -> length t ≠ 0 -> length t ≠ 2 ->
  (forall j u, j < i -> ATOMS inp !! j = Some u -> length u = 2) ->
  RDC_new inp
    = Error ("ATOMS" ++ convert (S i) ++ " keyword has the wrong number of atoms").
Proof.
  intros Hi H0 H2 Hbefore. unfold RDC_new.
  by rewrite (read_atoms_wrong _ 1 [] i t).
Qed.

(** X2. The bonds of an object the constructor returns are the ATOMS
    keywords read before the first missing one, in their order: bond [i],
    counted from 0, is made of the two atoms of the keyword ATOMS(i+1),
    which are the atoms [2i] and [2i+1] requested from the host, and there
    is one output component for every bond. *)
Theorem atoms_requested_in_order (inp : Input T) o :
  RDC_new inp = Ok o ->
  ndata o = count_bonds (ATOMS inp) /\
  components o = ndata o /\
  atoms o = concat (take (ndata o) (ATOMS inp)) /\
  forall i, i < ndata o ->
    exists a b, ATOMS inp !! i = Some [a; b] /\
      atoms o !! (2 * i) = Some a /\ atoms o !! (2 * i + 1) = Some b.
Proof.
  intros (ats & Hats & Hn & Hlen & Hexp)%RDC_new_Ok.
  apply RDC_expected_Ok in Hexp as (-> & _ & _). cbn [ndata components atoms].
  assert (Hdiv : length ats / 2 = count_bonds (ATOMS inp)).
  { rewrite Hlen, Nat.mul_comm. apply Nat.div_mul. lia. }
  rewrite Hdiv. apply read_atoms_Ok in Hats as [Hcat Hlook].
  cbn [app length Nat.add] in Hcat, Hlook. split_and!; [done..|].
  intros i Hi. destruct (Hlook i Hi) as (a & b & Hab & Ha & Hb). by exists a, b.
Qed.

(** X3. Every object the constructor returns has at least one bond, two
    atoms, one gyromagnetic constant, one scaling factor and one component
    for each bond, a coupling for each bond exactly in fit mode, and the
    constant 0.3356806; the fit mode is the SVD flag, it needs GSL, and it
    makes the run serial whatever the SERIAL flag; and [checkRead] has
    accepted the line. *)
Theorem constructed_object_invariant (inp : Input T) o :
  RDC_new inp = Ok o ->
  1 <= ndata o /\
  length (atoms o) = 2 * ndata o /\
  length (mu_s o) = ndata o /\
  length (scale o) = ndata o /\
  length (coupl o) = (if svd o then ndata o else 0) /\
  components o = ndata o /\
  Const o = dlit 0.3356806 /\
  svd o = FLAG inp "SVD" /\
  serial o = FLAG inp "SVD" || FLAG inp "SERIAL" /\
  with_gsl o = HAS_GSL inp /\
  (svd o = true -> with_gsl o = true) /\
  CHECKREAD inp = true.
Proof.
  intros (ats & Hats & Hn & Hlen & Hexp)%RDC_new_Ok.
  apply RDC_expected_Ok in Hexp as (-> & Hcheck & Hgsl).
  cbn [ndata components atoms mu_s scale coupl Const svd serial with_gsl].
  assert (Hdiv : length ats / 2 = count_bonds (ATOMS inp)).
  { rewrite Hlen, Nat.mul_comm. apply Nat.div_mul. lia. }
  rewrite Hdiv, !group_values_length.
  split_and!; try done;
    destruct (FLAG inp "SVD"); try done; apply numbered_values_length.
Qed.

(** X5. The constructor adds one component for every bond, named
    [rdc_0], [rdc_1], ... from the index of the bond counted from 0 (the
    keyword of the bond is counted from 1), each declared not periodic;
    no two components have the same name; and the components carry
    derivatives in direct mode and none in fit mode. *)
Theorem component_names_distinct (o : RDC T) :
  let calls := register_components o in
  added_names calls = (fun i => "rdc_" ++ convert i) <$> seq 0 (ndata o) /\
  NoDup (added_names calls) /\
  (forall name, name ∈ added_names calls ->
     componentIsNotPeriodic name ∈ calls) /\
  (forall name, addComponentWithDerivatives name ∈ calls -> svd o = false) /\
  (forall name, addComponent name ∈ calls -> svd o = true).
Proof.
  intros calls. subst calls. unfold register_components.
  assert (Hnames : added_names (add_components (ndata o) 0 (svd o) [])
                   = (fun i => "rdc_" ++ convert i) <$> seq 0 (ndata o)).
  { by rewrite add_components_names. }
  split_and!.
  - done.
  - rewrite Hnames. apply NoDup_fmap_2; [|apply NoDup_seq].
    intros i j Heq. apply convert_inj. by injection Heq.
  - intros name. rewrite Hnames.
    intros (i & -> & [_ Hi]%elem_of_seq)%list_elem_of_fmap.
    apply add_components_calls. right. exists i. split; [lia|by left].
  - intros name [Hnil|(j & _ & [?|Hc])]%add_components_calls;
      [by apply elem_of_nil in Hnil|done|]. by destruct (svd o).
  - intros name [Hnil|(j & _ & [?|Hc])]%add_components_calls;
      [by apply elem_of_nil in Hnil|done|]. by destruct (svd o).
Qed.
End ConstructorExtras.

Section ConstructorWitnesses.
Import PrimFloat.
Local Open Scope string_scope.

Lemma atoms_keyword_wrong_size_witness :
  RDC_new fl_three_atoms
    = Error "ATOMS2 keyword has the wrong number of atoms".
Proof.
  apply (atoms_keyword_wrong_size fl_three_atoms 1 [37; 38; 39]).
  - reflexivity.
  - cbn; lia.
  - cbn; lia.
  - intros j u Hj Hu. assert (j = 0) as -> by lia.
    injection Hu as <-. reflexivity.
Defined.

Lemma fl_two_built : RDC_new fl_two_bonds = Ok fl_two_object.
Proof. vm_compute. reflexivity. Qed.

Lemma atoms_requested_in_order_witness :
  ndata fl_two_object = count_bonds (ATOMS fl_two_bonds) /\
  components fl_two_object = ndata fl_two_object /\
  atoms fl_two_object
    = concat (take (ndata fl_two_object) (ATOMS fl_two_bonds)) /\
  forall i, i < ndata fl_two_object ->
    exists a b, ATOMS fl_two_bonds !! i = Some [a; b] /\
      atoms fl_two_object !! (2 * i) = Some a /\
      atoms fl_two_object !! (2 * i + 1) = Some b.
Proof. exact (atoms_requested_in_order fl_two_bonds fl_two_object fl_two_built). Defined.

Lemma constructed_object_invariant_witness :
  1 <= ndata ex_fit_object /\
  length (atoms ex_fit_object) = 2 * ndata ex_fit_object /\
  length (mu_s ex_fit_object) = ndata ex_fit_object /\
  length (scale ex_fit_object) = ndata ex_fit_object /\
  length (coupl ex_fit_object)
    = (if svd ex_fit_object then ndata ex_fit_object else 0) /\
  components ex_fit_object = ndata ex_fit_object /\
  Const ex_fit_object = dlit 0.3356806 /\
  svd ex_fit_object = FLAG ex_fit_input "SVD" /\
  serial ex_fit_object = FLAG ex_fit_input "SVD" || FLAG ex_fit_input "SERIAL" /\
  with_gsl ex_fit_object = HAS_GSL ex_fit_input /\
  (svd ex_fit_object = true -> with_gsl ex_fit_object = true) /\
  CHECKREAD ex_fit_input = true.
Proof.
  exact (constructed_object_invariant ex_fit_input ex_fit_object
           (fit_built _ _ _ ex_fit_run)).
Defined.

End ConstructorWitnesses.

(** ** The direct mode, for any number type: what every rank publishes *)

Section DirectExtras.
Context {T : Type} `{DoubleOps T}.
Variable pbcDistance : Vector T -> Vector T -> Vector T.
Variable solve : list (list T) -> list T -> list T.
Variable inp : Input T.
Variable o : RDC T.
Variable pos : list (Vector T).
Variable comm : Communicator.
Hypothesis run : direct_run inp o pos comm.

Local Abbreviation n := (ndata o).
Local Abbreviation res := (calculate pbcDistance solve o pos comm).
Local Abbreviation d := (bond_distance pbcDistance pos).
Local Abbreviation g := (bond_grad pbcDistance o pos).

Lemma bond_stride_pos : 1 <= bond_stride o comm.
Proof.
  destruct run as [_ _ _ Hrank]. unfold bond_stride.
  destruct Hrank as [->| ?]; [done|]. destruct (serial o); lia.
Qed.

Lemma calculate_direct_run :
  res = Ok (component_of (reduced_buffers pbcDistance o pos comm) <$> seq 0 n).
Proof.
  pose proof (direct_run_well_formed _ _ _ _ run) as wf.
  unfold calculate. rewrite (run_direct _ _ _ _ run).
  apply calculate_direct_spec; [done|apply bond_stride_pos].
Qed.

Lemma published_component i :
  i < n ->
  published res i
    = Some (component_of (reduced_buffers pbcDistance o pos comm) i).
Proof.
  intros Hi. rewrite calculate_direct_run. cbn [published].
  by rewrite list_lookup_fmap, lookup_seq_lt.
Qed.

(** A rank that owns every bond: its arrays hold the numbers of the
    kernel. *)
Lemma local_buffers_all c :
  bond_stride o c = 1 -> bond_rank o c = 0 ->
  (forall i, i < n ->
     rdc (local_buffers pbcDistance o pos c) !!! i
       = bond_rdc pbcDistance o pos i) /\
  (forall a, a < 2 * n ->
     dRDC (local_buffers pbcDistance o pos c) !!! a
       = atom_grad pbcDistance o pos a) /\
  (forall i, i < n ->
     dervir (local_buffers pbcDistance o pos c) !!! i
       = bond_virial pbcDistance o pos i).
Proof.
  intros Hs Hk. unfold local_buffers. rewrite Hs, Hk.
  assert (Hown : forall i, owned 1 0 i).
  { intros i. split; [lia|]. by rewrite !Nat.mod_1_r. }
  cbn [rdc dRDC dervir].
  split_and!; intros i Hi; rewrite lookup_total_fmap_seq by done;
    by rewrite decide_True.
Qed.

(** X6. In direct mode [calculate] fails for no number type, no
    positions and no rank of the communicator, more ranks than bonds
    included: no access leaves its array and every loop ends.  It
    publishes one component for every bond, in the order of the bonds,
    each with a value, a virial and the derivatives for the atoms [2i]
    and [2i+1] of its bond. *)
Theorem direct_mode_total :
  exists out,
    calculate pbcDistance solve o pos comm = Ok out /\
    length out = ndata o /\
    forall i, i < ndata o ->
      exists v t gA gB,
        out !! i = Some {| value := v; boxDerivatives := Some t;
                           atomsDerivatives := [(2 * i, gA); (2 * i + 1, gB)] |}.
Proof.
  eexists. split; [apply calculate_direct_run|].
  split; [by rewrite length_fmap, length_seq|].
  intros i Hi. rewrite list_lookup_fmap, lookup_seq_lt by done.
  unfold component_of. by eexists _, _, _, _.
Qed.

(** X7. In a parallel run of the direct mode the scalars are neither
    summed nor gathered: of [W] ranks, rank [w] publishes the scalar of
    the kernel for the bonds [i] with [i mod W = w], and the zero the
    array was created with for every other bond. *)
Theorem value_published_by_rank i :
  i < n -> serial o = false ->
  value <$> published res i
    = Some (if decide (i mod Get_size comm = Get_rank comm)
            then bond_rdc pbcDistance o pos i else dlit 0).
Proof.
  intros Hi Hser. rewrite published_component by done.
  cbn [fmap option_fmap option_map component_of value]. f_equal.
  rewrite reduced_rdc_local by done.
  destruct run as [_ _ _ [Hs|Hrank]]; [congruence|].
  unfold bond_stride, bond_rank. rewrite Hser.
  destruct (decide (i mod Get_size comm = Get_rank comm)) as [Hm|Hm].
  - rewrite decide_True; [done|]. by apply owned_rank.
  - rewrite decide_False; [done|]. intros Ho. by apply owned_rank in Ho.
Qed.

(** X8. In a serial run (the flag SERIAL) and in a run of one rank,
    every number published is the one the kernel computes, bit for bit in
    any number type: the scalar, the gradient for the first atom and its
    opposite for the second, and as virial the outer product of the
    displacement with the gradient of the first atom, added to zero. *)
Theorem single_rank_publishes_kernel i :
  i < n -> serial o = true \/ Get_size comm = 1 ->
  published res i
    = Some {| value := kernel_rdc (Const o) (scale o !!! i) (mu_s o !!! i) (d i);
              boxDerivatives :=
                Some (Tensor_add Tensor_zero (Tensor_outer (d i) (g i)));
              atomsDerivatives := [(2 * i, g i); (2 * i + 1, Vector_neg (g i))] |}.
Proof.
  intros Hi Hone. rewrite published_component by done.
  pose proof (direct_run_well_formed _ _ _ _ run) as wf.
  assert (Hred : reduced_buffers pbcDistance o pos comm
                 = local_buffers pbcDistance o pos comm).
  { unfold reduced_buffers. destruct (serial o) eqn:Hser; [done|].
    destruct Hone as [?|Hone]; [done|].
    destruct run as [_ _ _ [?|Hrank]]; [congruence|].
    assert (Hc : {| Get_size := Get_size comm; Get_rank := 0 |} = comm).
    { destruct comm as [W w]. cbn in *. f_equal. lia. }
    rewrite Hone. cbn [seq fmap list_fmap comm_Sum foldl].
    rewrite <- Hone, Hc. by destruct (local_buffers pbcDistance o pos comm). }
  rewrite Hred.
  destruct (local_buffers_all comm) as (Hr & Hg & Hv).
  { unfold bond_stride. destruct (serial o); [done|]. by destruct Hone. }
  { unfold bond_rank. destruct (serial o) eqn:Hser; [done|].
    destruct Hone as [?|Hone]; [done|].
    destruct run as [_ _ _ [?|Hrank]]; [congruence|]. lia. }
  unfold component_of. rewrite Hr, Hv, !Hg by lia.
  by rewrite (atom_grad_even pbcDistance o pos), (atom_grad_odd pbcDistance o pos).
Qed.
End DirectExtras.

Section DirectFloatWitnesses.
Import PrimFloat.

Lemma fl_two_run size rank :
  rank < size ->
  direct_run fl_two_bonds fl_two_object fl_two_positions
    {| Get_size := size; Get_rank := rank |}.
Proof.
  intros Hr. split; [apply fl_two_built|reflexivity|reflexivity|by right].
Qed.

Lemma direct_mode_total_witness :
  exists out,
    fl_run 3 2 = Ok out /\ length out = 2 /\
    forall i, i < 2 ->
      exists v t gA gB,
        out !! i = Some {| value := v; boxDerivatives := Some t;
                           atomsDerivatives := [(2 * i, gA); (2 * i + 1, gB)] |}.
Proof.
  apply (direct_mode_total delta fl_solve fl_two_bonds fl_two_object
           fl_two_positions {| Get_size := 3; Get_rank := 2 |}).
  apply fl_two_run. lia.
Defined.

Lemma value_published_by_rank_witness :
  value <$> published (fl_run 2 0) 1
    = Some (if decide (1 mod 2 = 0)
            then bond_rdc delta fl_two_object fl_two_positions 1 else dlit 0).
Proof.
  apply (value_published_by_rank delta fl_solve fl_two_bonds fl_two_object
           fl_two_positions {| Get_size := 2; Get_rank := 0 |}).
  - apply fl_two_run. lia.
  - cbn; lia.
  - reflexivity.
Defined.

Lemma single_rank_publishes_kernel_witness :
  let d := bond_distance delta fl_two_positions 1 in
  let g := bond_grad delta fl_two_object fl_two_positions 1 in
  published (fl_run 1 0) 1
    = Some {| value := kernel_rdc (Const fl_two_object)
                         (scale fl_two_object !!! 1) (mu_s fl_two_object !!! 1) d;
              boxDerivatives := Some (Tensor_add Tensor_zero (Tensor_outer d g));
              atomsDerivatives := [(2 * 1, g); (2 * 1 + 1, Vector_neg g)] |}.
Proof.
  apply (single_rank_publishes_kernel delta fl_solve fl_two_bonds fl_two_object
           fl_two_positions {| Get_size := 1; Get_rank := 0 |}).
  - apply fl_two_run. lia.
  - cbn; lia.
  - by right.
Defined.
End DirectFloatWitnesses.

(** ** The kernel of the direct mode, over the real numbers *)

Local Open Scope R_scope.

Lemma modulo_spec_r x y z : modulo (mkVector x y z) = spec_r x y z.
Proof. reflexivity. Qed.

(** Euler's identity for a function homogeneous of degree -3. *)
Lemma spec_grad_euler K s g x y z :
  0 < spec_r x y z ->
  Tensor_trace (Tensor_outer (mkVector x y z) (spec_grad K s g x y z))
    = 3 * spec_rdc K s g x y z.
Proof.
  intros Hr. rewrite spec_rdc_quadratic.
  unfold spec_grad, spec_prod. cbn [Tensor_outer Tensor_trace dmul R_ops].
  pose proof (spec_r_sqr x y z) as Hsq.
  generalize dependent (spec_r x y z). intros r Hr Hsq.
  field_simplify_eq; [|lra].
  replace (r ^ 4) with ((x * x + y * y + z * z) * (x * x + y * y + z * z))
    by (rewrite <- Hsq; ring).
  replace (r ^ 2) with (x * x + y * y + z * z) by (rewrite <- Hsq; ring).
  lra.
Qed.

(** [|3 cos^2 - 1| <= 2]. *)
Lemma spec_rdc_bound K s g x y z :
  0 < spec_r x y z ->
  Rabs (spec_rdc K s g x y z) <= Rabs (spec_Dmax K s g (spec_r x y z)).
Proof.
  intros Hr. unfold spec_rdc. cbv zeta.
  pose proof (spec_r_sqr x y z) as Hsq.
  generalize dependent (spec_r x y z). intros r Hr Hsq.
  set (c := z / r).
  assert (Hc : 0 <= c ^ 2 <= 1).
  { replace (c ^ 2) with (z * z / (r * r)) by (subst c; field; lra).
    assert (0 < r * r) by nra.
    pose proof (Rle_0_sqr x) as Hx. pose proof (Rle_0_sqr y) as Hy.
    pose proof (Rle_0_sqr z) as Hz. unfold Rsqr in *.
    split.
    - apply Rmult_le_pos; [lra|]. left. by apply Rinv_0_lt_compat.
    - apply (Rmult_le_reg_r (r * r)); [lra|].
      replace (z * z / (r * r) * (r * r)) with (z * z) by (field; lra). lra. }
  replace (0.5 * spec_Dmax K s g r * (3 * c ^ 2 - 1))
    with (spec_Dmax K s g r * (0.5 * (3 * c ^ 2 - 1))) by ring.
  rewrite Rabs_mult.
  rewrite <- (Rmult_1_r (Rabs (spec_Dmax K s g r))) at 2.
  apply Rmult_le_compat_l; [apply Rabs_pos|].
  apply Rabs_le. lra.
Qed.

Lemma rotate_z_square phi x y :
  (cos phi * x - sin phi * y) * (cos phi * x - sin phi * y)
  + (sin phi * x + cos phi * y) * (sin phi * x + cos phi * y)
  = x * x + y * y.
Proof.
  pose proof (sin2_cos2 phi) as Hcs. unfold Rsqr in Hcs.
  replace (_ + _)
    with ((sin phi * sin phi + cos phi * cos phi) * (x * x + y * y)) by ring.
  rewrite Hcs. ring.
Qed.

Lemma modulo_rotate_z phi (d : Vector R) : modulo (rotate_z phi d) = modulo d.
Proof.
  destruct d as [x y z]. unfold modulo, rotate_z.
  cbn [dadd dmul dsqrt R_ops]. by rewrite rotate_z_square.
Qed.

Lemma kernel_rdc_rotate_z K s g phi (d : Vector R) :
  kernel_rdc K s g (rotate_z phi d) = kernel_rdc K s g d.
Proof.
  unfold kernel_rdc. rewrite modulo_rotate_z. by destruct d.
Qed.

Lemma kernel_grad_rotate_z K s g phi (d : Vector R) :
  kernel_grad K s g (rotate_z phi d) = rotate_z phi (kernel_grad K s g d).
Proof.
  unfold kernel_grad. rewrite modulo_rotate_z.
  generalize (modulo d). intros r. destruct d as [x y z].
  cbn [rotate_z Vector_get dlit dadd dsub dmul ddiv dneg R_ops].
  pose proof (rotate_z_square phi x y) as Hrho.
  set (x' := cos phi * x - sin phi * y) in *.
  set (y' := sin phi * x + cos phi * y) in *.
  replace (Q2R 4.5) with 4.5 by (unfold Q2R; cbn; lra).
  replace (Q2R 1.5) with 1.5 by (unfold Q2R; cbn; lra).
  replace (Q2R 9) with 9 by (unfold Q2R; cbn; lra).
  replace (Q2R 3) with 3 by (unfold Q2R; cbn; lra).
  generalize (Q2R 1 / r) (Q2R 6). intros ind c6.
  assert (Hprod : 1.5 * (x' * x') + 1.5 * (y' * y') - c6 * (z * z)
                  = 1.5 * (x * x) + 1.5 * (y * y) - c6 * (z * z)).
  { replace (1.5 * (x' * x') + 1.5 * (y' * y'))
      with (1.5 * (x' * x' + y' * y')) by lra. rewrite Hrho. lra. }
  assert (Hpoly :
    4.5 * (x' * x') * (x' * x') + 4.5 * (y' * y') * (y' * y')
    + 1.5 * (y' * y') * (z * z) - 3 * (z * z) * (z * z)
    + x' * x' * (9 * (y' * y') + 1.5 * (z * z))
    = 4.5 * (x * x) * (x * x) + 4.5 * (y * y) * (y * y)
      + 1.5 * (y * y) * (z * z) - 3 * (z * z) * (z * z)
      + x * x * (9 * (y * y) + 1.5 * (z * z))).
  { transitivity (4.5 * ((x' * x' + y' * y') * (x' * x' + y' * y'))
                  + 1.5 * (x' * x' + y' * y') * (z * z)
                  - 3 * (z * z) * (z * z)); [lra|].
    rewrite Hrho. lra. }
  rewrite Hprod, Hpoly. f_equal.
  - subst x'. ring.
  - subst y'. ring.
Qed.

Lemma modulo_stretch l (d : Vector R) :
  0 <= l -> modulo (stretch l d) = l * modulo d.
Proof.
  intros Hl. destruct d as [x y z]. unfold modulo, stretch.
  cbn [dadd dmul dsqrt R_ops].
  replace (l * x * (l * x) + l * y * (l * y) + l * z * (l * z))
    with (l * l * (x * x + y * y + z * z)) by ring.
  rewrite sqrt_mult_alt by nra. by rewrite sqrt_square.
Qed.

Lemma kernel_rdc_stretch K s g l (d : Vector R) :
  0 < l -> 0 < modulo d ->
  kernel_rdc K s g (stretch l d) = kernel_rdc K s g d / l ^ 3.
Proof.
  intros Hl Hr. unfold kernel_rdc. rewrite modulo_stretch by lra.
  generalize dependent (modulo d). intros r Hr. destruct d as [x y z].
  cbn [stretch Vector_get dlit dadd dsub dmul ddiv dneg R_ops].
  unfold Q2R. cbn [Qnum Qden]. field. lra.
Qed.

Lemma kernel_grad_stretch K s g l (d : Vector R) :
  0 < l -> 0 < modulo d ->
  kernel_grad K s g (stretch l d) = stretch (/ l ^ 4) (kernel_grad K s g d).
Proof.
  intros Hl Hr. unfold kernel_grad. rewrite modulo_stretch by lra.
  generalize dependent (modulo d). intros r Hr. destruct d as [x y z].
  cbn [stretch Vector_get dlit dadd dsub dmul ddiv dneg R_ops].
  unfold Q2R. cbn [Qnum Qden]. f_equal; field; lra.
Qed.

(** With a gyromagnetic constant of zero every number of the kernel is
    zero. *)
Lemma kernel_rdc_no_gyrom K s (d : Vector R) : kernel_rdc K s 0 d = 0.
Proof.
  unfold kernel_rdc. cbn [dlit dadd dsub dmul ddiv dneg R_ops]. ring.
Qed.

Lemma kernel_grad_no_gyrom K s (d : Vector R) :
  kernel_grad K s 0 d = mkVector 0 0 0.
Proof.
  unfold kernel_grad. cbn [dlit dadd dsub dmul ddiv dneg R_ops].
  f_equal; ring.
Qed.

Section DirectExact.
Variable pbcDistance : Vector R -> Vector R -> Vector R.
Variable solve : list (list R) -> list R -> list R.
Variable inp : Input R.
Variable o : RDC R.
Variable pos : list (Vector R).
Variable comm : Communicator.
Hypothesis run : direct_run inp o pos comm.
Variable i : nat.
Hypothesis Hi : (i < ndata o)%nat.

Local Abbreviation res := (calculate pbcDistance solve o pos comm).
Local Abbreviation d := (bond_distance pbcDistance pos i).
Local Abbreviation K := (0.3356806).

Lemma published_exact :
  published res i = Some (direct_component pbcDistance o pos comm i).
Proof. by apply (published_run pbcDistance solve inp). Qed.

Lemma bond_rdc_exact x y z :
  d = mkVector x y z -> 0 < spec_r x y z ->
  bond_rdc pbcDistance o pos i
    = spec_rdc K (scale o !!! i) (mu_s o !!! i) x y z.
Proof.
  intros Hd Hr. unfold bond_rdc.
  rewrite Hd, (RDC_new_Const inp o) by apply run. by apply kernel_rdc_spec.
Qed.

Lemma bond_grad_exact x y z :
  d = mkVector x y z -> 0 < spec_r x y z ->
  bond_grad pbcDistance o pos i
    = spec_grad K (scale o !!! i) (mu_s o !!! i) x y z.
Proof.
  intros Hd Hr. unfold bond_grad.
  rewrite Hd, (RDC_new_Const inp o) by apply run. by apply kernel_grad_spec.
Qed.

(** X9. In exact arithmetic the two reductions give to every rank,
    whatever the number of ranks, the derivatives that a single rank
    computes: the gradient of the kernel for the first atom of the bond,
    its opposite for the second, and as virial the outer product of the
    displacement with the gradient of the first atom. *)
Theorem derivatives_after_reduction :
  atomsDerivatives <$> published res i
    = Some [((2 * i)%nat, bond_grad pbcDistance o pos i);
            ((2 * i + 1)%nat, Vector_neg (bond_grad pbcDistance o pos i))] /\
  boxDerivatives <$> published res i
    = Some (Some (Tensor_outer d (bond_grad pbcDistance o pos i))).
Proof. by rewrite published_exact. Qed.

(** X10. For a bond of positive length, on the rank that owns it, the
    trace of the virial published is three times the scalar published
    (the scalar is homogeneous of degree -3 in the displacement). *)
Theorem virial_trace :
  owned (bond_stride o comm) (bond_rank o comm) i ->
  0 < modulo d ->
  exists c t,
    published res i = Some c /\ boxDerivatives c = Some t /\
    Tensor_trace t = 3 * value c.
Proof.
  intros Hown Hr. eexists _, _. split; [apply published_exact|].
  cbn [direct_component boxDerivatives value]. split; [reflexivity|].
  rewrite decide_True by done.
  destruct d as [x y z] eqn:Hd.
  rewrite (bond_rdc_exact x y z), (bond_grad_exact x y z) by done.
  by apply spec_grad_euler.
Qed.

(** X11. For a bond of positive length [r] the scalar published is at
    most [K*|scale*gyro|/r^3] in absolute value, on every rank. *)
Theorem rdc_bounded_by_Dmax :
  0 < modulo d ->
  exists v,
    value <$> published res i = Some v /\
    Rabs v <= Rabs (spec_Dmax K (scale o !!! i) (mu_s o !!! i) (modulo d)).
Proof.
  intros Hr. eexists. rewrite published_exact. split; [reflexivity|].
  cbn [direct_component value]. case_decide.
  - destruct d as [x y z] eqn:Hd.
    rewrite (bond_rdc_exact x y z) by done. by apply spec_rdc_bound.
  - rewrite Rabs_R0. apply Rabs_pos.
Qed.

(** X12. The magnetic field is along z: when the displacement of a bond
    is rotated about the z axis the scalar published does not change,
    and the gradients published are rotated by the same angle. *)
Theorem rotation_about_field_axis phi pos' :
  direct_run inp o pos' comm ->
  bond_distance pbcDistance pos' i = rotate_z phi d ->
  let res' := calculate pbcDistance solve o pos' comm in
  value <$> published res' i = value <$> published res i /\
  exists gA,
    atomsDerivatives <$> published res i
      = Some [((2 * i)%nat, gA); ((2 * i + 1)%nat, Vector_neg gA)] /\
    atomsDerivatives <$> published res' i
      = Some [((2 * i)%nat, rotate_z phi gA);
              ((2 * i + 1)%nat, Vector_neg (rotate_z phi gA))].
Proof.
  intros run' Hd' res'. subst res'.
  rewrite published_exact, (published_run pbcDistance solve inp o pos') by done.
  cbn [fmap option_fmap option_map direct_component value atomsDerivatives].
  split.
  - f_equal. case_decide; [|done]. unfold bond_rdc.
    by rewrite Hd', kernel_rdc_rotate_z.
  - eexists. split; [reflexivity|]. unfold bond_grad.
    by rewrite Hd', kernel_grad_rotate_z.
Qed.

(** X13. The scalar decays as the inverse cube of the length of the bond:
    when the displacement of a bond of positive length is stretched by a
    factor [l > 0], the scalar published is divided by [l^3] and the
    gradients published by [l^4]. *)
Theorem inverse_cube_of_length l pos' :
  direct_run inp o pos' comm ->
  bond_distance pbcDistance pos' i = stretch l d ->
  0 < l -> 0 < modulo d ->
  let res' := calculate pbcDistance solve o pos' comm in
  exists v gA,
    value <$> published res i = Some v /\
    atomsDerivatives <$> published res i
      = Some [((2 * i)%nat, gA); ((2 * i + 1)%nat, Vector_neg gA)] /\
    value <$> published res' i = Some (v / l ^ 3) /\
    atomsDerivatives <$> published res' i
      = Some [((2 * i)%nat, stretch (/ l ^ 4) gA);
              ((2 * i + 1)%nat, Vector_neg (stretch (/ l ^ 4) gA))].
Proof.
  intros run' Hd' Hl Hr res'. subst res'.
  rewrite published_exact, (published_run pbcDistance solve inp o pos') by done.
  cbn [fmap option_fmap option_map direct_component value atomsDerivatives].
  eexists _, _. split_and!; [reflexivity|reflexivity|..].
  - f_equal. case_decide; [|lra]. unfold bond_rdc.
    by rewrite Hd', kernel_rdc_stretch.
  - unfold bond_grad. by rewrite Hd', kernel_grad_stretch.
Qed.

End DirectExact.

(** Witnesses: one bond, along the z axis or along the x axis. *)

Lemma ex_modulo_z : 0 < modulo (bond_distance delta ex_along_z 0).
Proof. exact ex_length_z. Qed.

Lemma ex_modulo_x : 0 < modulo (bond_distance delta ex_along_x 0).
Proof.
  change (0 < spec_r (1 - 0) (0 - 0) (0 - 0)). rewrite ex_length_x. lra.
Qed.

Lemma ex_owned : owned (bond_stride ex_object ex_comm) (bond_rank ex_object ex_comm) 0.
Proof. split; [cbn; lia|reflexivity]. Qed.

Lemma derivatives_after_reduction_witness :
  atomsDerivatives <$>
    published (calculate delta ex_solve ex_object ex_along_z ex_comm) 0
    = Some [((2 * 0)%nat, bond_grad delta ex_object ex_along_z 0);
            ((2 * 0 + 1)%nat, Vector_neg (bond_grad delta ex_object ex_along_z 0))] /\
  boxDerivatives <$>
    published (calculate delta ex_solve ex_object ex_along_z ex_comm) 0
    = Some (Some (Tensor_outer (bond_distance delta ex_along_z 0)
                    (bond_grad delta ex_object ex_along_z 0))).
Proof.
  apply (derivatives_after_reduction delta ex_solve ex_input ex_object
           ex_along_z ex_comm (ex_run ex_along_z eq_refl) 0%nat).
  cbn; lia.
Defined.

Lemma virial_trace_witness :
  exists c t,
    published (calculate delta ex_solve ex_object ex_along_z ex_comm) 0 = Some c /\
    boxDerivatives c = Some t /\ Tensor_trace t = 3 * value c.
Proof.
  apply (virial_trace delta ex_solve ex_input ex_object ex_along_z ex_comm
           (ex_run ex_along_z eq_refl) 0%nat).
  - cbn; lia.
  - exact ex_owned.
  - exact ex_modulo_z.
Defined.

Lemma rdc_bounded_by_Dmax_witness :
  exists v,
    value <$> published (calculate delta ex_solve ex_object ex_along_z ex_comm) 0
      = Some v /\
    Rabs v <= Rabs (spec_Dmax 0.3356806 (scale ex_object !!! 0%nat)
                      (mu_s ex_object !!! 0%nat)
                      (modulo (bond_distance delta ex_along_z 0))).
Proof.
  apply (rdc_bounded_by_Dmax delta ex_solve ex_input ex_object ex_along_z
           ex_comm (ex_run ex_along_z eq_refl) 0%nat).
  - cbn; lia.
  - exact ex_modulo_z.
Defined.

Lemma ex_quarter_turn :
  bond_distance delta ex_along_y 0
    = rotate_z (PI / 2) (bond_distance delta ex_along_x 0).
Proof.
  change (mkVector (0 - 0) (1 - 0) (0 - 0)
          = mkVector (cos (PI / 2) * (1 - 0) - sin (PI / 2) * (0 - 0))
              (sin (PI / 2) * (1 - 0) + cos (PI / 2) * (0 - 0)) (0 - 0)).
  rewrite cos_PI2, sin_PI2. f_equal; lra.
Qed.

Lemma rotation_about_field_axis_witness :
  let res := calculate delta ex_solve ex_object ex_along_x ex_comm in
  let res' := calculate delta ex_solve ex_object ex_along_y ex_comm in
  value <$> published res' 0 = value <$> published res 0 /\
  exists gA,
    atomsDerivatives <$> published res 0
      = Some [((2 * 0)%nat, gA); ((2 * 0 + 1)%nat, Vector_neg gA)] /\
    atomsDerivatives <$> published res' 0
      = Some [((2 * 0)%nat, rotate_z (PI / 2) gA);
              ((2 * 0 + 1)%nat, Vector_neg (rotate_z (PI / 2) gA))].
Proof.
  apply (rotation_about_field_axis delta ex_solve ex_input ex_object
           ex_along_x ex_comm (ex_run ex_along_x eq_refl) 0%nat).
  - cbn; lia.
  - exact (ex_run ex_along_y eq_refl).
  - exact ex_quarter_turn.
Defined.

Lemma ex_doubled :
  bond_distance delta ex_twice_x 0 = stretch 2 (bond_distance delta ex_along_x 0).
Proof.
  change (mkVector (2 - 0) (0 - 0) (0 - 0)
          = mkVector (2 * (1 - 0)) (2 * (0 - 0)) (2 * (0 - 0))).
  f_equal; lra.
Qed.

Lemma inverse_cube_of_length_witness :
  let res := calculate delta ex_solve ex_object ex_along_x ex_comm in
  let res' := calculate delta ex_solve ex_object ex_twice_x ex_comm in
  exists v gA,
    value <$> published res 0 = Some v /\
    atomsDerivatives <$> published res 0
      = Some [((2 * 0)%nat, gA); ((2 * 0 + 1)%nat, Vector_neg gA)] /\
    value <$> published res' 0 = Some (v / 2 ^ 3) /\
    atomsDerivatives <$> published res' 0
      = Some [((2 * 0)%nat, stretch (/ 2 ^ 4) gA);
              ((2 * 0 + 1)%nat, Vector_neg (stretch (/ 2 ^ 4) gA))].
Proof.
  apply (inverse_cube_of_length delta ex_solve ex_input ex_object
           ex_along_x ex_comm (ex_run ex_along_x eq_refl) 0%nat).
  - cbn; lia.
  - exact (ex_run ex_twice_x eq_refl).
  - exact ex_doubled.
  - lra.
  - exact ex_modulo_x.
Defined.

Lemma ex_no_gyrom_run :
  direct_run ex_no_gyrom_input ex_no_gyrom_object ex_along_z ex_comm.
Proof. split; [reflexivity|reflexivity|reflexivity|right; cbn; lia]. Qed.


Close Scope R_scope.

(** ** The fit mode: what is published, and its symmetries *)

Section FitExtras.
Context {T : Type} `{DoubleOps T}.
Variable pbcDistance : Vector T -> Vector T -> Vector T.
Variable solve : list (list T) -> list T -> list T.
Variable inp : Input T.
Variable o : RDC T.

Local Abbreviation n := (ndata o).

(** The fit reads the positions only through the arrays of its loop. *)
Lemma calculate_svd_state pos pos' :
  fit_run inp o pos -> fit_run inp o pos' ->
  fit_state pbcDistance o pos' = fit_state pbcDistance o pos ->
  calculate_svd pbcDistance solve o pos'
    = calculate_svd pbcDistance solve o pos.
Proof.
  intros [Hnew Hsvd Hpos] [_ _ Hpos'] Hstate.
  destruct (RDC_new_fit inp o Hnew Hsvd) as (Hgsl & Hcoupl & _).
  pose proof (RDC_new_well_formed inp o pos Hnew Hpos) as wf.
  pose proof (RDC_new_well_formed inp o pos' Hnew Hpos') as wf'.
  unfold calculate_svd. rewrite Hgsl, (wf_atoms _ _ wf), Hcoupl.
  rewrite !fit_loop_run by done. cbn [mbind result_bind].
  by rewrite Hstate.
Qed.

(** X15. In fit mode [calculate] fails for no number of bonds, no number
    type and no positions, once the solver has returned the five entries
    of its solution: no access leaves its array.  It publishes one
    component for every bond, the same on every rank of the communicator,
    and no component carries a derivative. *)
Theorem fit_mode_total pos :
  fit_run inp o pos ->
  length (solve (fit_row pbcDistance pos <$> seq 0 n)
                (fit_target pbcDistance o pos <$> seq 0 n)) = 5 ->
  exists out,
    (forall comm, calculate pbcDistance solve o pos comm = Ok out) /\
    length out = n /\
    forall c, c ∈ out -> boxDerivatives c = None /\ atomsDerivatives c = [].
Proof.
  intros [Hnew Hsvd Hpos] Hlen.
  destruct (RDC_new_fit inp o Hnew Hsvd) as (Hgsl & Hcoupl & _).
  pose proof (RDC_new_well_formed inp o pos Hnew Hpos) as wf.
  destruct (solve _ _) as [|sxx [|syy [|sxy [|sxz [|syz [|? ?]]]]]] eqn:Hsolve;
    cbn in Hlen; try lia.
  eexists. split_and!.
  - intros comm. unfold calculate. rewrite Hsvd.
    rewrite (calculate_svd_spec pbcDistance solve o pos wf Hcoupl
               sxx syy sxy sxz syz Hgsl Hsolve).
    reflexivity.
  - cbn [snd]. by rewrite length_fmap, length_seq.
  - cbn [snd]. by intros c (i & -> & _)%list_elem_of_fmap.
Qed.
End FitExtras.

Local Open Scope R_scope.

Lemma fit_row_neg pbcDistance (pos pos' : list (Vector R)) j :
  bond_distance pbcDistance pos' j
    = Vector_neg (bond_distance pbcDistance pos j) ->
  fit_row pbcDistance pos' j = fit_row pbcDistance pos j.
Proof.
  intros Hd. unfold fit_row. rewrite Hd, modulo_neg.
  generalize (modulo (bond_distance pbcDistance pos j)). intros r.
  destruct (bond_distance pbcDistance pos j) as [x y z].
  cbn [Vector_neg Vector_get dlit dadd dsub dmul ddiv dneg R_ops].
  generalize (Q2R 0) (Q2R 2.0). intros c0 c2. unfold Rdiv.
  repeat (apply (f_equal2 cons); [ring|]). reflexivity.
Qed.

Lemma fit_dmax_neg pbcDistance o (pos pos' : list (Vector R)) j :
  bond_distance pbcDistance pos' j
    = Vector_neg (bond_distance pbcDistance pos j) ->
  fit_dmax pbcDistance o pos' j = fit_dmax pbcDistance o pos j.
Proof. intros Hd. unfold fit_dmax. by rewrite Hd, modulo_neg. Qed.

Lemma swap_bond_other pbcDistance (pos : list (Vector R)) i j :
  j <> i ->
  bond_distance pbcDistance (swap_bond pos i) j
    = bond_distance pbcDistance pos j.
Proof.
  intros Hji. unfold bond_distance, swap_bond.
  by rewrite !list_lookup_total_insert_ne by lia.
Qed.

Section FitExact.
Variable pbcDistance : Vector R -> Vector R -> Vector R.
Variable solve : list (list R) -> list R -> list R.
Variable inp : Input R.
Variable o : RDC R.
Variable pos : list (Vector R).
Hypothesis run : fit_run inp o pos.
Variable i : nat.
Hypothesis Hi : (i < ndata o)%nat.

Local Abbreviation d := (bond_distance pbcDistance pos).
Local Abbreviation K := (0.3356806).
Local Abbreviation Dmax :=
  (fun j => spec_Dmax K (scale o !!! j) (mu_s o !!! j) (modulo (d j))).

(** What the fit publishes for a bond, from the solution of the solver. *)
Lemma published_fit sxx syy sxy sxz syz comm :
  solve ((fun j => design_row (d j)) <$> seq 0 (ndata o))
        ((fun j => coupl o !!! j / Dmax j) <$> seq 0 (ndata o))
    = [sxx; syy; sxy; sxz; syz] ->
  published (calculate pbcDistance solve o pos comm) i
    = Some {| value := row_times (design_row (d i)) sxx syy sxy sxz syz
                       * Dmax i;
              boxDerivatives := None; atomsDerivatives := [] |}.
Proof.
  intros Hsolve. destruct run as [Hnew Hsvd Hpos].
  destruct (RDC_new_fit inp o Hnew Hsvd) as (Hgsl & Hcoupl & _).
  pose proof (RDC_new_well_formed inp o pos Hnew Hpos) as wf.
  unfold calculate. rewrite Hsvd.
  rewrite (calculate_svd_spec pbcDistance solve o pos wf Hcoupl
             sxx syy sxy sxz syz Hgsl).
  - cbn [mbind result_bind snd published].
    rewrite list_lookup_fmap, lookup_seq_lt by done.
    cbn [fmap option_fmap option_map Nat.add]. do 2 f_equal.
    rewrite fit_row_R, (fit_dmax_R pbcDistance inp o pos run). f_equal.
    unfold design_row, row_times, dot.
    cbn [zip zip_with foldr fst snd dlit dadd dsub dmul ddiv dneg R_ops].
    rewrite Q2R_0. replace (Q2R 1.0) with 1 by (unfold Q2R; cbn; lra).
    lra.
  - rewrite <- Hsolve. f_equal.
    + apply list_fmap_ext. intros ? ? _. apply fit_row_R.
    + apply list_fmap_ext. intros ? ? _. unfold fit_target.
      by rewrite (fit_dmax_R pbcDistance inp o pos run).
Qed.

(** X16. When the solution the solver returns satisfies the equation of
    a bond exactly, the value back-calculated for this bond is its
    experimental coupling, whatever its scaling factor and gyromagnetic
    constant, provided they are not zero and the bond has a positive
    length. *)
Theorem exact_fit_reproduces_coupling sxx syy sxy sxz syz comm :
  solve ((fun j => design_row (d j)) <$> seq 0 (ndata o))
        ((fun j => coupl o !!! j / Dmax j) <$> seq 0 (ndata o))
    = [sxx; syy; sxy; sxz; syz] ->
  row_times (design_row (d i)) sxx syy sxy sxz syz = coupl o !!! i / Dmax i ->
  scale o !!! i <> 0 -> mu_s o !!! i <> 0 -> 0 < modulo (d i) ->
  value <$> published (calculate pbcDistance solve o pos comm) i
    = Some (coupl o !!! i).
Proof.
  intros Hsolve Hrow Hs Hg Hr. rewrite (published_fit _ _ _ _ _ _ Hsolve).
  cbn [fmap option_fmap option_map value]. f_equal. rewrite Hrow.
  unfold spec_Dmax.
  set (r := modulo (d i)) in *. clearbody r.
  field. split_and!; try done; lra.
Qed.

(** X17. In fit mode, exchanging the two atoms of a bond, which negates
    its displacement, changes nothing of what is published, for any
    solver: the design matrix, the right-hand side and [D_max] are even in
    the displacement. *)
Theorem fit_swap_atoms_invariant comm :
  (forall a b, pbcDistance b a = Vector_neg (pbcDistance a b)) ->
  calculate pbcDistance solve o (swap_bond pos i) comm
    = calculate pbcDistance solve o pos comm.
Proof.
  intros Hanti. destruct run as [Hnew Hsvd Hpos].
  pose proof (RDC_new_well_formed inp o pos Hnew Hpos) as [Hn Ha Hp _ _ _].
  assert (run' : fit_run inp o (swap_bond pos i)).
  { split; try done. unfold swap_bond. by rewrite !length_insert. }
  assert (Hd : forall j,
    bond_distance pbcDistance (swap_bond pos i) j = d j \/
    bond_distance pbcDistance (swap_bond pos i) j = Vector_neg (d j)).
  { intros j. destruct (decide (j = i)) as [->|Hji].
    - right. unfold bond_distance, swap_bond.
      rewrite list_lookup_total_insert_eq by (rewrite length_insert; lia).
      rewrite list_lookup_total_insert_ne by lia.
      rewrite list_lookup_total_insert_eq by lia.
      apply Hanti.
    - left. by apply swap_bond_other. }
  assert (Hrow : forall j, fit_row pbcDistance (swap_bond pos i) j
                           = fit_row pbcDistance pos j).
  { intros j. destruct (Hd j) as [Hj|Hj]; [|by apply fit_row_neg].
    unfold fit_row. by rewrite Hj. }
  assert (Hdmax : forall j, fit_dmax pbcDistance o (swap_bond pos i) j
                            = fit_dmax pbcDistance o pos j).
  { intros j. destruct (Hd j) as [Hj|Hj]; [|by apply fit_dmax_neg].
    unfold fit_dmax. by rewrite Hj. }
  unfold calculate. rewrite Hsvd.
  rewrite (calculate_svd_state pbcDistance solve inp o pos (swap_bond pos i));
    [done|by split|done|].
  unfold fit_state. f_equal; apply list_fmap_ext; intros ? j _;
    unfold fit_target; by rewrite ?Hrow, ?Hdmax.
Qed.
End FitExact.

(** Witnesses: one bond, fit mode. *)

Lemma ex_fit_run_x : fit_run ex_fit_input ex_fit_object ex_along_x.
Proof. split; reflexivity. Qed.

Lemma fit_mode_total_witness :
  exists out,
    (forall comm,
       calculate delta ex_fit_solve ex_fit_object ex_along_z comm = Ok out) /\
    length out = ndata ex_fit_object /\
    forall c, c ∈ out -> boxDerivatives c = None /\ atomsDerivatives c = [].
Proof.
  apply (fit_mode_total delta ex_fit_solve ex_fit_input ex_fit_object
           ex_along_z ex_fit_run).
  reflexivity.
Defined.

Lemma ex_row_x : design_row (bond_distance delta ex_along_x 0) = [1; 0; 0; 0; 0].
Proof.
  unfold design_row.
  change (modulo (bond_distance delta ex_along_x 0))
    with (spec_r (1 - 0) (0 - 0) (0 - 0)).
  rewrite ex_length_x.
  change (bond_distance delta ex_along_x 0)
    with (mkVector (1 - 0) (0 - 0) (0 - 0) : Vector R).
  cbn [Vector_get]. repeat f_equal; lra.
Qed.

Lemma exact_fit_reproduces_coupling_witness :
  value <$> published (calculate delta ex_exact_solve ex_fit_object ex_along_x
                         ex_comm) 0
    = Some (coupl ex_fit_object !!! 0%nat).
Proof.
  set (D := spec_Dmax 0.3356806 (scale ex_fit_object !!! 0%nat)
              (mu_s ex_fit_object !!! 0%nat)
              (modulo (bond_distance delta ex_along_x 0))).
  apply (exact_fit_reproduces_coupling delta ex_exact_solve ex_fit_input
           ex_fit_object ex_along_x ex_fit_run_x 0%nat ltac:(cbn; lia)
           (coupl ex_fit_object !!! 0%nat / D) 0 0 0 0 ex_comm).
  - reflexivity.
  - rewrite ex_row_x. unfold row_times. fold D. lra.
  - change (1 <> 0). lra.
  - change (-72.5388 <> 0). lra.
  - exact ex_modulo_x.
Defined.

Lemma fit_swap_atoms_invariant_witness :
  calculate delta ex_fit_solve ex_fit_object (swap_bond ex_along_z 0) ex_comm
    = calculate delta ex_fit_solve ex_fit_object ex_along_z ex_comm.
Proof.
  apply (fit_swap_atoms_invariant delta ex_fit_solve ex_fit_input
           ex_fit_object ex_along_z ex_fit_run 0%nat).
  - cbn; lia.
  - exact delta_antisymmetric.
Defined.

Close Scope R_scope.

(** ** The direct mode: the bonds do not interact *)

Section Locality.
Context {T : Type} `{DoubleOps T}.
Variable pbcDistance : Vector T -> Vector T -> Vector T.
Variable solve : list (list T) -> list T -> list T.
Variable inp : Input T.
Variable o : RDC T.
Variables pos pos' : list (Vector T).
Variable comm : Communicator.
Hypothesis run : direct_run inp o pos comm.
Hypothesis run' : direct_run inp o pos' comm.
Variable i : nat.
Hypothesis Hi : i < ndata o.
Hypothesis Hsame :
  bond_distance pbcDistance pos' i = bond_distance pbcDistance pos i.

Lemma local_buffers_same c :
  rdc (local_buffers pbcDistance o pos' c) !!! i
    = rdc (local_buffers pbcDistance o pos c) !!! i /\
  dervir (local_buffers pbcDistance o pos' c) !!! i
    = dervir (local_buffers pbcDistance o pos c) !!! i /\
  forall a, a < 2 * ndata o -> a / 2 = i ->
    dRDC (local_buffers pbcDistance o pos' c) !!! a
      = dRDC (local_buffers pbcDistance o pos c) !!! a.
Proof.
  unfold local_buffers. cbn [rdc dRDC dervir]. split_and!.
  - rewrite !lookup_total_fmap_seq by done. unfold bond_rdc. by rewrite Hsame.
  - rewrite !lookup_total_fmap_seq by done.
    unfold bond_virial, bond_grad. by rewrite Hsame.
  - intros a Ha Hai. rewrite !lookup_total_fmap_seq by done.
    unfold atom_grad, bond_grad. by rewrite Hai, Hsame.
Qed.

Lemma reduced_buffers_same :
  component_of (reduced_buffers pbcDistance o pos' comm) i
    = component_of (reduced_buffers pbcDistance o pos comm) i.
Proof.
  pose proof (bond_stride_pos inp o pos comm run) as Hs.
  assert (Ha0 : 2 * i / 2 = i) by (rewrite Nat.mul_comm, Nat.div_mul; lia).
  assert (Ha1 : (2 * i + 1) / 2 = i)
    by (symmetry; apply (Nat.div_unique _ 2 i 1); lia).
  unfold component_of, reduced_buffers, bond_stride in *.
  destruct (serial o) eqn:Hser.
  - destruct (local_buffers_same comm) as (-> & -> & Hd).
    by rewrite !Hd by (done || lia).
  - cbn [rdc dRDC dervir].
    destruct (local_buffers_same comm) as (-> & _ & _).
    rewrite <- !list_fmap_compose.
    destruct (comm_Sum_spec Vector_add
                (dRDC ∘ (fun w => local_buffers pbcDistance o pos
                           {| Get_size := Get_size comm; Get_rank := w |}))
                (2 * ndata o)) with (W := Get_size comm) as [_ Hg]; [|done|].
    { intros w. apply local_buffers_sized. }
    destruct (comm_Sum_spec Vector_add
                (dRDC ∘ (fun w => local_buffers pbcDistance o pos'
                           {| Get_size := Get_size comm; Get_rank := w |}))
                (2 * ndata o)) with (W := Get_size comm) as [_ Hg']; [|done|].
    { intros w. apply local_buffers_sized. }
    destruct (comm_Sum_spec Tensor_add
                (dervir ∘ (fun w => local_buffers pbcDistance o pos
                             {| Get_size := Get_size comm; Get_rank := w |}))
                (ndata o)) with (W := Get_size comm) as [_ Hv]; [|done|].
    { intros w. apply local_buffers_sized. }
    destruct (comm_Sum_spec Tensor_add
                (dervir ∘ (fun w => local_buffers pbcDistance o pos'
                             {| Get_size := Get_size comm; Get_rank := w |}))
                (ndata o)) with (W := Get_size comm) as [_ Hv']; [|done|].
    { intros w. apply local_buffers_sized. }
    rewrite Hv, Hv', !Hg, !Hg' by lia. cbn [compose].
    assert (Hloc : forall w,
      dervir (local_buffers pbcDistance o pos'
                {| Get_size := Get_size comm; Get_rank := w |}) !!! i
        = dervir (local_buffers pbcDistance o pos
                    {| Get_size := Get_size comm; Get_rank := w |}) !!! i /\
      dRDC (local_buffers pbcDistance o pos'
              {| Get_size := Get_size comm; Get_rank := w |}) !!! (2 * i)
        = dRDC (local_buffers pbcDistance o pos
                  {| Get_size := Get_size comm; Get_rank := w |}) !!! (2 * i) /\
      dRDC (local_buffers pbcDistance o pos'
              {| Get_size := Get_size comm; Get_rank := w |}) !!! (2 * i + 1)
        = dRDC (local_buffers pbcDistance o pos
                  {| Get_size := Get_size comm; Get_rank := w |}) !!! (2 * i + 1)).
    { intros w. destruct (local_buffers_same
                            {| Get_size := Get_size comm; Get_rank := w |})
        as (_ & Hw & Hd).
      split_and!; [done|apply Hd; (done || lia)..]. }
    assert (Hfold : forall (A : Type) (add : A -> A -> A) (f f' : nat -> A) l,
      (forall w, f' w = f w) ->
      foldl add (f' 0) (f' <$> l) = foldl add (f 0) (f <$> l)).
    { intros A add f f' l Hf. rewrite Hf. f_equal.
      apply list_fmap_ext. intros ? w _. apply Hf. }
    f_equal; [f_equal|f_equal; [f_equal|f_equal; f_equal]].
    + apply (Hfold _ Tensor_add
               (fun w => dervir (local_buffers pbcDistance o pos
                  {| Get_size := Get_size comm; Get_rank := w |}) !!! i)
               (fun w => dervir (local_buffers pbcDistance o pos'
                  {| Get_size := Get_size comm; Get_rank := w |}) !!! i)).
      intros w. apply Hloc.
    + apply (Hfold _ Vector_add
               (fun w => dRDC (local_buffers pbcDistance o pos
                  {| Get_size := Get_size comm; Get_rank := w |}) !!! (2 * i))
               (fun w => dRDC (local_buffers pbcDistance o pos'
                  {| Get_size := Get_size comm; Get_rank := w |}) !!! (2 * i))).
      intros w. apply Hloc.
    + apply (Hfold _ Vector_add
               (fun w => dRDC (local_buffers pbcDistance o pos
                  {| Get_size := Get_size comm; Get_rank := w |}) !!! (2 * i + 1))
               (fun w => dRDC (local_buffers pbcDistance o pos'
                  {| Get_size := Get_size comm; Get_rank := w |}) !!! (2 * i + 1))).
      intros w. apply Hloc.
Qed.

(** X18. In direct mode the bonds do not interact: for any number type
    and on every rank, what is published for a bond depends on the
    positions only through the displacement of this bond.  Moving the
    atoms of the other bonds, or the two atoms of the bond together,
    changes nothing of its scalar, its gradients and its virial. *)
Theorem bond_component_is_local :
  published (calculate pbcDistance solve o pos' comm) i
    = published (calculate pbcDistance solve o pos comm) i.
Proof.
  rewrite (published_component pbcDistance solve inp o pos' comm run' i Hi).
  rewrite (published_component pbcDistance solve inp o pos comm run i Hi).
  f_equal. apply reduced_buffers_same.
Qed.
End Locality.

Section LocalityWitness.
Import PrimFloat.

Lemma fl_two_run_moved size rank :
  rank < size ->
  direct_run fl_two_bonds fl_two_object fl_two_positions_moved
    {| Get_size := size; Get_rank := rank |}.
Proof.
  intros Hr. split; [apply fl_two_built|reflexivity|reflexivity|by right].
Qed.

Lemma bond_component_is_local_witness :
  published (calculate delta fl_solve fl_two_object fl_two_positions_moved
               {| Get_size := 2; Get_rank := 0 |}) 0
    = published (calculate delta fl_solve fl_two_object fl_two_positions
                   {| Get_size := 2; Get_rank := 0 |}) 0.
Proof.
  apply (bond_component_is_local delta fl_solve fl_two_bonds fl_two_object
           fl_two_positions fl_two_positions_moved
           {| Get_size := 2; Get_rank := 0 |}).
  - apply fl_two_run. lia.
  - apply fl_two_run_moved. lia.
  - cbn; lia.
  - reflexivity.
Defined.
End LocalityWitness.

(** ** The fit mode: where it divides by zero *)

Local Open Scope R_scope.

Lemma checked_fit_dmax a b m :
  lift2 Rmult (checked_div (Some a) (Some b)) (Some m)
    = if Req_dec_T b 0 then None else Some (a / b * m).
Proof. cbn [checked_div]. by destruct (Req_dec_T b 0). Qed.

Section CheckedFit.
Variable pbcDistance : Vector (option R) -> Vector (option R) -> Vector (option R).
Variable inp : Input (option R).
Variable o : RDC (option R).
Variable pos : list (Vector (option R)).
Variable D : nat -> Vector R.
Hypothesis run : fit_run inp o pos.
Hypothesis Hex : exact_inputs pbcDistance o pos D.

Lemma checked_fit_target i s g c :
  (i < ndata o)%nat ->
  scale o !! i = Some (Some s) -> mu_s o !! i = Some (Some g) ->
  coupl o !! i = Some (Some c) ->
  is_Some (fit_target pbcDistance o pos i)
    <-> modulo (D i) <> 0 /\ s <> 0 /\ g <> 0.
Proof.
  intros Hi Hs Hg Hc. unfold fit_target, fit_dmax.
  rewrite (exact_distance _ _ _ _ Hex) by done.
  rewrite (RDC_new_Const inp o) by apply run.
  rewrite (total_of_lookup _ _ _ Hs), (total_of_lookup _ _ _ Hg),
    (total_of_lookup _ _ _ Hc).
  change (@dlit (option R) _ 0.3356806%Q) with (Some (Q2R 0.3356806)).
  change (@dlit (option R) _ 1%Q) with (Some (Q2R 1)).
  destruct (D i) as [x y z]. unfold modulo, checked_vector.
  cbn [dadd dmul dneg dsqrt checked_ops R_ops lift2 option_map ddiv].
  set (r := sqrt (x * x + y * y + z * z)).
  rewrite checked_fit_dmax.
  assert (HK : Q2R 0.3356806 <> 0) by (unfold Q2R; cbn; lra).
  assert (H1 : Q2R 1 = 1) by (unfold Q2R; cbn; lra).
  destruct (Req_dec_T (r * r * r) 0) as [Hr0|Hr0].
  - cbn [checked_div]. split; [by intros [? ?]|].
    intros (Hr & _ & _). exfalso. apply Hr.
    apply Rmult_integral in Hr0 as [Hr0|Hr0]; [|done].
    by apply Rmult_integral in Hr0 as [Hr0|Hr0].
  - cbn [checked_div].
    assert (Hr : r <> 0). { intros Hr. apply Hr0. rewrite Hr. ring. }
    destruct (Req_dec_T _ 0) as [Hd0|Hd0].
    + split; [by intros [? ?]|]. intros (_ & Hs0 & Hg0). exfalso.
      rewrite H1 in Hd0.
      apply Rmult_integral in Hd0 as [Hd0|Hd0].
      * apply (Rmult_eq_compat_r (r * r * r)) in Hd0.
        rewrite Rmult_0_l in Hd0. unfold Rdiv in Hd0.
        rewrite Rmult_assoc, Rinv_l, Rmult_1_r in Hd0 by done. lra.
      * apply Rmult_integral in Hd0 as [Hd0|Hd0]; [|done].
        apply Rmult_integral in Hd0 as [Hd0|Hd0]; [|done]. lra.
    + split; [|by eexists]. intros _. split_and!; [done| |].
      * intros ->. apply Hd0. ring.
      * intros ->. apply Hd0. ring.
Qed.

End CheckedFit.

Lemma ck_fit_run : fit_run ck_fit_input ck_fit_object ck_positions.
Proof. split; reflexivity. Qed.

Lemma ck_fit_exact : exact_inputs delta ck_fit_object ck_positions ck_distance.
Proof.
  split; intros i Hi; assert (i = 0%nat) as -> by (cbn in Hi; lia).
  - by eexists.
  - by eexists.
  - reflexivity.
Qed.


Close Scope R_scope.

(** ** The fit mode: the GSL objects *)

Lemma gsl_run_app cs : forall alive cs',
  gsl_run alive (cs ++ cs') = alive' ← gsl_run alive cs; gsl_run alive' cs'.
Proof.
  induction cs as [|c cs IH]; intros alive cs'; [done|].
  cbn [app gsl_run]. destruct (gsl_step alive c); [apply IH|done].
Qed.

(** A loop whose body leaves the objects alive as they were. *)
Lemma gsl_run_loop alive body n :
  gsl_run alive body = Some alive ->
  gsl_run alive (concat (replicate n body)) = Some alive.
Proof.
  intros Hbody. induction n as [|n IH]; [done|].
  cbn [replicate concat]. rewrite gsl_run_app, Hbody. exact IH.
Qed.

Lemma gsl_run_replicate alive c n :
  gsl_step alive c = Some alive ->
  gsl_run alive (replicate n c) = Some alive.
Proof.
  intros Hc. induction n as [|n IH]; [done|].
  cbn [replicate gsl_run]. rewrite Hc. exact IH.
Qed.

(** X20. An evaluation in fit mode, whatever the number of bonds, gives
    to GSL only objects that are allocated and not yet freed, frees no
    object twice, and at its end has freed every object it allocated but
    one: the 5x5 matrix [V] of the decomposition, allocated at line 321,
    is never freed and is lost at every call. *)
Theorem gsl_objects_freed_but_V bonds couplings :
  gsl_run [] (gsl_calls bonds couplings) = Some [gsl_V].
Proof.
  set (alive := [gsl_rdc_vec; gsl_bc; gsl_Stmp; gsl_S; gsl_work;
                 gsl_coef_mat; gsl_A; gsl_V]).
  unfold gsl_calls.
  (* the allocations and the two initialisations *)
  rewrite gsl_run_app.
  match goal with |- context [gsl_run [] ?cs] =>
    change (gsl_run [] cs) with (Some alive) end.
  cbn [mbind option_bind].
  (* the loop over the bonds *)
  rewrite gsl_run_app, (gsl_run_loop alive) by reflexivity.
  cbn [mbind option_bind].
  (* the decomposition, the solution and the product *)
  rewrite gsl_run_app.
  match goal with |- context [gsl_run alive (?c :: ?cs)] =>
    change (gsl_run alive (c :: cs)) with (Some alive) end.
  cbn [mbind option_bind].
  (* the loop over the couplings, and the releases *)
  rewrite gsl_run_app, (gsl_run_replicate alive) by reflexivity.
  reflexivity.
Qed.

(** ** The direct mode: the orientation of a bond *)

Local Open Scope R_scope.

Lemma spec_rdc_along_z K s g z :
  0 < spec_r 0 0 z ->
  spec_rdc K s g 0 0 z = spec_Dmax K s g (spec_r 0 0 z).
Proof.
  intros Hr. pose proof (spec_r_sqr 0 0 z) as Hsq.
  unfold spec_rdc. cbv zeta.
  generalize dependent (spec_r 0 0 z). intros r Hr Hsq.
  replace ((z / r) ^ 2) with 1; [lra|].
  replace ((z / r) ^ 2) with (z * z / (r * r)) by (field; lra).
  replace (z * z) with (r * r) by lra. field. lra.
Qed.

Lemma spec_rdc_across_z K s g x y :
  0 < spec_r x y 0 ->
  spec_rdc K s g x y 0 = - spec_Dmax K s g (spec_r x y 0) / 2.
Proof.
  intros Hr. unfold spec_rdc. cbv zeta.
  generalize dependent (spec_r x y 0). intros r Hr.
  replace ((0 / r) ^ 2) with 0 by (field; lra). lra.
Qed.

Lemma spec_rdc_zero K s g x y z :
  0 < spec_r x y z -> K * s * g <> 0 ->
  spec_rdc K s g x y z = 0 <-> 2 * (z * z) = x * x + y * y.
Proof.
  intros Hr HK. rewrite spec_rdc_quadratic.
  assert (Hr5 : spec_r x y z ^ 5 <> 0) by (apply pow_nonzero; lra).
  split.
  - intros H0. unfold Rdiv in H0.
    apply Rmult_integral in H0 as [H0|H0].
    + apply Rmult_integral in H0 as [H0|H0]; lra.
    + by apply Rinv_neq_0_compat in Hr5.
  - intros Hz. replace (2 * (z * z) - x * x - y * y) with 0 by lra.
    unfold Rdiv. ring.
Qed.

Section Orientation.
Variable pbcDistance : Vector R -> Vector R -> Vector R.
Variable solve : list (list R) -> list R -> list R.
Variable inp : Input R.
Variable o : RDC R.
Variable pos : list (Vector R).
Variable comm : Communicator.
Hypothesis run : direct_run inp o pos comm.
Variable i : nat.
Hypothesis Hi : (i < ndata o)%nat.

(** X21. For a bond of positive length [r], on the rank that owns it in
    exact arithmetic, with [D_max = -K*scale*gyro/r^3]: the scalar
    published is [D_max] when the bond is along the z axis, [-D_max/2]
    when it is perpendicular to it, and, when neither the scaling factor
    nor the gyromagnetic constant is zero, it is zero exactly at the
    magic angle, [2 z^2 = x^2 + y^2]. *)
Theorem rdc_by_orientation x y z :
  owned (bond_stride o comm) (bond_rank o comm) i ->
  bond_distance pbcDistance pos i = mkVector x y z ->
  0 < spec_r x y z ->
  let Dmax := spec_Dmax 0.3356806 (scale o !!! i) (mu_s o !!! i)
                (spec_r x y z) in
  exists v,
    value <$> published (calculate pbcDistance solve o pos comm) i = Some v /\
    (x = 0 -> y = 0 -> v = Dmax) /\
    (z = 0 -> v = - Dmax / 2) /\
    (scale o !!! i <> 0 -> mu_s o !!! i <> 0 ->
     v = 0 <-> 2 * (z * z) = x * x + y * y).
Proof.
  intros Hown Hd Hr Dmax. subst Dmax. eexists.
  rewrite (published_exact pbcDistance solve inp o pos comm run i Hi).
  split; [reflexivity|]. cbn [direct_component value].
  rewrite decide_True by done.
  rewrite (bond_rdc_exact pbcDistance inp o pos comm run i x y z) by done.
  split_and!.
  - intros -> ->. by apply spec_rdc_along_z.
  - intros ->. by apply spec_rdc_across_z.
  - intros Hs Hg. apply spec_rdc_zero; [done|].
    assert (0.3356806 <> 0) by lra.
    intros H0. apply Rmult_integral in H0 as [H0|H0]; [|done].
    by apply Rmult_integral in H0 as [H0|H0].
Qed.
End Orientation.

Lemma rdc_by_orientation_witness :
  let x := 0 - 0 in
  let y := 0 - 0 in
  let z := 1.04 - 0 in
  let Dmax := spec_Dmax 0.3356806 (scale ex_object !!! 0%nat)
                (mu_s ex_object !!! 0%nat) (spec_r x y z) in
  exists v,
    value <$> published (calculate delta ex_solve ex_object ex_along_z ex_comm) 0
      = Some v /\
    (x = 0 -> y = 0 -> v = Dmax) /\
    (z = 0 -> v = - Dmax / 2) /\
    (scale ex_object !!! 0%nat <> 0 -> mu_s ex_object !!! 0%nat <> 0 ->
     v = 0 <-> 2 * (z * z) = x * x + y * y).
Proof.
  apply (rdc_by_orientation delta ex_solve ex_input ex_object ex_along_z
           ex_comm (ex_run ex_along_z eq_refl) 0%nat).
  - cbn; lia.
  - exact ex_owned.
  - reflexivity.
  - exact ex_length_z.
Defined.

Close Scope R_scope.
